(** * TyTools (libty): board manager, firmware checks and task pool

    A shallow embedding of [src/board.c] (board manager, identity matching,
    capability facades, firmware signature scan), of the task and pool
    runtime and of the firmware reload of the upload command, followed by
    the properties established about them.

    Conventions of the embedding:
    - C [int], [size_t], [uint64_t] values are [Z]; unsigned 64-bit
      wrap-around and saturation are written out where the code relies on
      them ([strtoull]).
    - C strings are [string]s (the text before the terminating NUL); raw
      buffers are [list Z] of byte values.
    - A pointer to a static object is [option] of a record carrying its
      address; pointer comparison compares addresses.
    - Intrusive lists ([ty_list_head]) are Rocq lists of the enclosing
      objects, in list order; [ty_list_add_tail] appends, [ty_list_add]
      prepends, and [ty_list_foreach] tolerates removal of the current node
      (the source frees the current node inside such loops).
    - Calls through function pointers (manager callbacks, interface
      vtables, task callables) are recorded in an explicit trace.
    - Memory allocation is assumed to succeed, except for thread creation,
      whose outcome is an explicit oracle. *)

From Stdlib Require Import ZArith Lia Ascii String.
From stdpp Require Import base numbers list strings gmap pretty.

Local Open Scope Z_scope.

(* ===================================================================== *)
(** * Part I: definitions                                                 *)
(* ===================================================================== *)

(** ** C library functions used by the source *)

Module CLib.

Definition ULLONG_MAX : Z := 2 ^ 64 - 1.

Definition INT_MAX : Z := 2 ^ 31 - 1.

(** [isspace] in the C locale. *)
Definition isspace (c : ascii) : bool :=
  let n := nat_of_ascii c in
  (n =? 32)%nat || ((9 <=? n)%nat && (n <=? 13)%nat).

(** Value of a decimal digit character, if it is one. *)
Definition digit_value (c : ascii) : option Z :=
  let n := Z.of_nat (nat_of_ascii c) in
  if (48 <=? n) && (n <=? 57) then Some (n - 48) else None.

Fixpoint skip_spaces (s : string) : nat * string :=
  match s with
  | String c s' => if isspace c then
                     let '(n, r) := skip_spaces s' in (S n, r)
                   else (O, s)
  | EmptyString => (O, s)
  end.

(** The digit loop of [strtoull]: accumulates in base 10, remembers
    whether the value left the range of [unsigned long long], and counts
    the digits consumed. *)
Fixpoint scan_digits (s : string) (acc : Z) (overflow : bool) (n : nat)
  : Z * bool * nat :=
  match s with
  | String c s' =>
      match digit_value c with
      | Some d =>
          let acc' := acc * 10 + d in
          if ULLONG_MAX <? acc'
          then scan_digits s' ULLONG_MAX true (S n)
          else scan_digits s' acc' overflow (S n)
      | None => (acc, overflow, n)
      end
  | EmptyString => (acc, overflow, n)
  end.

(** The optional sign of [strtoull]: whether it is a minus, how many
    characters it takes, and the text after it. *)
Definition strip_sign (s : string) : bool * nat * string :=
  match s with
  | String "-"%char r => (true, 1%nat, r)
  | String "+"%char r => (false, 1%nat, r)
  | _ => (false, 0%nat, s)
  end.

(** [strtoull(nptr, &end, 10)]: returns the converted value and the
    number of characters between [nptr] and [end].  Leading white space
    and one optional sign are accepted; without any digit nothing is
    consumed ([end == nptr]) and the value is 0; a value out of range
    yields [ULLONG_MAX]; a leading minus negates modulo 2^64. *)
Definition strtoull (nptr : string) : Z * nat :=
  let '(nsp, s1) := skip_spaces nptr in
  let '(neg, nsign, s2) := strip_sign s1 in
  let '(v, ovf, nd) := scan_digits s2 0 false 0 in
  match nd with
  | O => (0, O)
  | _ =>
      let v' := if ovf then ULLONG_MAX
                else if neg then (- v) mod 2 ^ 64 else v in
      (v', (nsp + nsign + nd)%nat)
  end.

(** [strchr(s, c)] as the offset of the first occurrence, [None] for a
    null result. *)
Fixpoint strchr (s : string) (c : ascii) : option nat :=
  match s with
  | EmptyString => None
  | String a s' => if Ascii.eqb a c then Some O else S <$> strchr s' c
  end.

(** [strlen] on a raw buffer: the number of bytes before the first NUL. *)
Fixpoint strlen (buf : list Z) : Z :=
  match buf with
  | [] => 0
  | b :: rest => if b =? 0 then 0 else 1 + strlen rest
  end.

(** [memcmp(a, b, n) == 0]. *)
Definition memcmp_eq (a b : list Z) (n : nat) : bool :=
  bool_decide (take n a = take n b).

(** The text produced by the [printf] conversion ["%" PRIu64]. *)
Definition fmt_u64 (n : Z) : string := pretty (Z.to_N n).

End CLib.

(** ** Error codes *)

(** Modelled from the spec: the error kinds of [ty_err] ([common.h] is not
    part of the sources).  [ty_error] reports the error and returns its
    code; the codes are negative and pairwise distinct, which is all the
    development uses. *)
Inductive ty_err :=
| TY_ERROR_MEMORY | TY_ERROR_PARAM | TY_ERROR_RANGE | TY_ERROR_MODE
| TY_ERROR_NOT_FOUND | TY_ERROR_IO | TY_ERROR_ACCESS | TY_ERROR_BUSY
| TY_ERROR_FIRMWARE | TY_ERROR_OTHER.

Definition ty_error (e : ty_err) : Z :=
  match e with
  | TY_ERROR_MEMORY => -1 | TY_ERROR_PARAM => -2 | TY_ERROR_RANGE => -3
  | TY_ERROR_MODE => -4 | TY_ERROR_NOT_FOUND => -5 | TY_ERROR_IO => -6
  | TY_ERROR_ACCESS => -7 | TY_ERROR_BUSY => -8 | TY_ERROR_FIRMWARE => -9
  | TY_ERROR_OTHER => -10
  end.

(** ** Board models and firmware signatures *)

Module Board.

(** [struct ty_board_model]; [model_addr] is the address of the static
    object, so that [a == b] on model pointers is [model_ptr_eqb]. *)
Record ty_board_model := {
  model_addr : N;
  name : string;
  mcu : string;
  desc : string;
  code_size : Z
}.

Definition model_ptr_eqb (a b : option ty_board_model) : bool :=
  match a, b with
  | None, None => true
  | Some x, Some y => (model_addr x =? model_addr y)%N
  | _, _ => false
  end.

(** The five model objects are defined by the Teensy driver, outside
    this file; they are taken as a parameter. *)
Record model_registry := {
  _ty_teensy_pp10_model : ty_board_model;
  _ty_teensy_20_model : ty_board_model;
  _ty_teensy_pp20_model : ty_board_model;
  _ty_teensy_30_model : ty_board_model;
  _ty_teensy_31_model : ty_board_model
}.

Definition ty_board_models (R : model_registry) : list ty_board_model :=
  [ _ty_teensy_pp10_model R; _ty_teensy_20_model R;
    _ty_teensy_pp20_model R; _ty_teensy_30_model R;
    _ty_teensy_31_model R ].

Record firmware_signature := {
  sig_model : ty_board_model;
  magic : list Z
}.

Definition signatures (R : model_registry) : list firmware_signature :=
  [ {| sig_model := _ty_teensy_pp10_model R;
       magic := [0x0C; 0x94; 0x00; 0x7E; 0xFF; 0xCF; 0xF8; 0x94] |};
    {| sig_model := _ty_teensy_20_model R;
       magic := [0x0C; 0x94; 0x00; 0x3F; 0xFF; 0xCF; 0xF8; 0x94] |};
    {| sig_model := _ty_teensy_pp20_model R;
       magic := [0x0C; 0x94; 0x00; 0xFE; 0xFF; 0xCF; 0xF8; 0x94] |};
    {| sig_model := _ty_teensy_30_model R;
       magic := [0x38; 0x80; 0x04; 0x40; 0x82; 0x3F; 0x04; 0x00] |};
    {| sig_model := _ty_teensy_31_model R;
       magic := [0x30; 0x80; 0x04; 0x40; 0x82; 0x3F; 0x04; 0x00] |} ].

Definition drop_board_delay : Z := 5000.

(** [ty_firmware]: the image bytes; [size] is their number. *)
Record ty_firmware := { image : list Z }.

Definition size (f : ty_firmware) : Z := Z.of_nat (length (image f)).

Definition magic_size : Z := 8.

(** Inner loop of [ty_board_test_firmware]: the signatures in table
    order against the bytes at [f->image + i]. *)
Fixpoint match_signature (window : list Z) (sigs : list firmware_signature)
  : option ty_board_model :=
  match sigs with
  | [] => None
  | sig :: rest =>
      if CLib.memcmp_eq window (magic sig) (Z.to_nat magic_size)
      then Some (sig_model sig)
      else match_signature window rest
  end.

(** Outer loop: [steps] iterations remain, the next offset is [i]. *)
Fixpoint scan_image (sigs : list firmware_signature) (img : list Z)
    (i : nat) (steps : nat) : option ty_board_model :=
  match steps with
  | O => None
  | S k =>
      match match_signature (drop i img) sigs with
      | Some m => Some m
      | None => scan_image sigs img (S i) k
      end
  end.

(** [for (size_t i = 0; i < f->size - magic_size; i++)]. *)
Definition ty_board_test_firmware (R : model_registry) (f : ty_firmware)
  : option ty_board_model :=
  if size f <? magic_size then None
  else scan_image (signatures R) (image f) 0
                  (Z.to_nat (size f - magic_size)).

(** *** Devices, interfaces, boards *)

(** What the device monitor reports about a [ty_device]; [dev_addr] is
    the pointer the monitor hands out for it. *)
Record ty_device := {
  dev_addr : N;
  dev_location : string;
  dev_vid : Z;
  dev_pid : Z;
  dev_serial_number : option string
}.

Inductive ty_board_capability :=
| TY_BOARD_CAPABILITY_UPLOAD
| TY_BOARD_CAPABILITY_RESET
| TY_BOARD_CAPABILITY_REBOOT
| TY_BOARD_CAPABILITY_SERIAL.

(** Index of a capability, the order of [capability_names]. *)
Definition cap_index (c : ty_board_capability) : nat :=
  match c with
  | TY_BOARD_CAPABILITY_UPLOAD => 0
  | TY_BOARD_CAPABILITY_RESET => 1
  | TY_BOARD_CAPABILITY_REBOOT => 2
  | TY_BOARD_CAPABILITY_SERIAL => 3
  end.

Definition TY_BOARD_CAPABILITY_COUNT : nat := 4.

(** The operations of an interface's vtable, reduced to the value each
    returns; the call itself is recorded as a [vtable_call]. *)
Record iface_vtable := {
  vt_upload : ty_firmware -> Z -> Z;
  vt_serial_write : list Z -> Z -> Z
}.

Record ty_board_interface := {
  iface_dev : ty_device;
  iface_model : option ty_board_model;
  iface_serial : Z;
  iface_capabilities : Z;
  iface_vtable_of : iface_vtable;
  iface_board : option nat
}.

Inductive vtable_call :=
| CallUpload (dev : N) (f : ty_firmware) (flags : Z)
| CallSerialWrite (dev : N) (buf : list Z) (size : Z).

Inductive ty_board_state :=
| TY_BOARD_STATE_DROPPED
| TY_BOARD_STATE_MISSING
| TY_BOARD_STATE_ONLINE.

Inductive ty_board_event :=
| TY_BOARD_EVENT_ADDED
| TY_BOARD_EVENT_CHANGED
| TY_BOARD_EVENT_DISAPPEARED
| TY_BOARD_EVENT_DROPPED.

(** [struct ty_board]; [board_id] stands for the address of the object. *)
Record ty_board := {
  board_id : nat;
  location : string;
  identity : string;
  serial : Z;
  vid : Z;
  pid : Z;
  model : option ty_board_model;
  state : ty_board_state;
  interfaces : list ty_board_interface;
  cap2iface : list (option ty_board_interface);
  capabilities : Z;
  missing_since : Z
}.

Record callback := {
  cb_id : Z;
  cb_f : ty_board -> ty_board_event -> Z
}.

(** One invocation of a registered callback. *)
Record callback_call := {
  call_id : Z;
  call_board : ty_board;
  call_event : ty_board_event
}.

(** [struct ty_board_manager].  [boards] holds the board objects in list
    order; [missing_boards] and [interfaces] refer to boards and devices
    by address; [timer] is the delay last given to [ty_timer_set];
    [next_board] is the next unused board address. *)
Record ty_board_manager := {
  callbacks : list callback;
  callback_id : Z;
  boards : list ty_board;
  missing_boards : list nat;
  interfaces_table : list ty_board_interface;
  timer : option Z;
  next_board : nat
}.

Definition set_callbacks (m : ty_board_manager) (cbs : list callback) :=
  {| callbacks := cbs; callback_id := callback_id m; boards := boards m;
     missing_boards := missing_boards m;
     interfaces_table := interfaces_table m; timer := timer m;
     next_board := next_board m |}.

Definition set_boards (m : ty_board_manager) (bs : list ty_board) :=
  {| callbacks := callbacks m; callback_id := callback_id m; boards := bs;
     missing_boards := missing_boards m;
     interfaces_table := interfaces_table m; timer := timer m;
     next_board := next_board m |}.

Definition set_missing_boards (m : ty_board_manager) (l : list nat) :=
  {| callbacks := callbacks m; callback_id := callback_id m;
     boards := boards m; missing_boards := l;
     interfaces_table := interfaces_table m; timer := timer m;
     next_board := next_board m |}.

Definition set_interfaces_table (m : ty_board_manager)
    (l : list ty_board_interface) :=
  {| callbacks := callbacks m; callback_id := callback_id m;
     boards := boards m; missing_boards := missing_boards m;
     interfaces_table := l; timer := timer m;
     next_board := next_board m |}.

Definition set_timer (m : ty_board_manager) (t : option Z) :=
  {| callbacks := callbacks m; callback_id := callback_id m;
     boards := boards m; missing_boards := missing_boards m;
     interfaces_table := interfaces_table m; timer := t;
     next_board := next_board m |}.

(** A board changed through a pointer is written back to the manager's
    list; a board that is not linked any more is left out. *)
Definition store_board (m : ty_board_manager) (b : ty_board) :=
  set_boards m
    (map (fun x => if (board_id x =? board_id b)%nat then b else x)
         (boards m)).

(** *** Callbacks *)

(** The loop of [trigger_callbacks] over the callback list: returns the
    result, the callbacks still registered, and the calls made. *)
Fixpoint trigger_loop (cbs : list callback) (board : ty_board)
    (event : ty_board_event) : Z * list callback * list callback_call :=
  match cbs with
  | [] => (0, [], [])
  | cb :: rest =>
      let r := cb_f cb board event in
      let call := {| call_id := cb_id cb; call_board := board;
                     call_event := event |} in
      if r <? 0 then (r, cb :: rest, [call])
      else
        let '(r', kept, calls) := trigger_loop rest board event in
        (r', if r =? 0 then cb :: kept else kept, call :: calls)
  end.

Definition trigger_callbacks (m : ty_board_manager) (board : ty_board)
    (event : ty_board_event) : Z * ty_board_manager * list callback_call :=
  let '(r, kept, calls) := trigger_loop (callbacks m) board event in
  (r, set_callbacks m kept, calls).

(** [ty_board_manager_register_callback].  [manager->callback_id] is a C
    [int] and [callback_id++] has no defined result once it has reached
    [INT_MAX]; the counter is a [Z] here, which is what the source
    computes as long as [callback_id < INT_MAX]. *)
Definition ty_board_manager_register_callback (m : ty_board_manager)
    (fn : ty_board -> ty_board_event -> Z) : Z * ty_board_manager :=
  let cb := {| cb_id := callback_id m; cb_f := fn |} in
  (cb_id cb,
   {| callbacks := callbacks m ++ [cb]; callback_id := callback_id m + 1;
      boards := boards m; missing_boards := missing_boards m;
      interfaces_table := interfaces_table m; timer := timer m;
      next_board := next_board m |}).

Fixpoint deregister_loop (cbs : list callback) (i : Z) : list callback :=
  match cbs with
  | [] => []
  | cb :: rest => if cb_id cb =? i then rest else cb :: deregister_loop rest i
  end.

Definition ty_board_manager_deregister_callback (m : ty_board_manager)
    (i : Z) : ty_board_manager :=
  set_callbacks m (deregister_loop (callbacks m) i).

(** *** Board life cycle *)

Definition model_is_valid (m : option ty_board_model) : bool :=
  match m with
  | Some x => negb (code_size x =? 0)
  | None => false
  end.

(** [add_board]: a new board for [iface], linked at the tail of the
    manager's list. *)
Definition add_board (m : ty_board_manager) (iface : ty_board_interface)
  : ty_board_manager * ty_board :=
  let loc := dev_location (iface_dev iface) in
  let board :=
    {| board_id := next_board m;
       location := loc;
       identity := loc +:+ "#" +:+ CLib.fmt_u64 (iface_serial iface);
       serial := iface_serial iface;
       vid := dev_vid (iface_dev iface);
       pid := dev_pid (iface_dev iface);
       model := iface_model iface;
       state := TY_BOARD_STATE_DROPPED; (* the zero of [calloc] *)
       interfaces := [];
       cap2iface := replicate TY_BOARD_CAPABILITY_COUNT None;
       capabilities := 0;
       missing_since := 0 |} in
  ({| callbacks := callbacks m; callback_id := callback_id m;
      boards := boards m ++ [board];
      missing_boards := missing_boards m;
      interfaces_table := interfaces_table m; timer := timer m;
      next_board := S (next_board m) |},
   board).

Definition same_device (a b : ty_board_interface) : bool :=
  (dev_addr (iface_dev a) =? dev_addr (iface_dev b))%N.

(** [close_board]: every interface is released and taken out of the
    device table, the routing is cleared, [DISAPPEARED] is fired. *)
Definition close_board (m : ty_board_manager) (board : ty_board)
  : ty_board_manager * ty_board * list callback_call :=
  let m1 :=
    set_interfaces_table m
      (filter (fun i => ¬ existsb (same_device i) (interfaces board))
              (interfaces_table m)) in
  let board' :=
    {| board_id := board_id board; location := location board;
       identity := identity board; serial := serial board;
       vid := vid board; pid := pid board; model := model board;
       state := TY_BOARD_STATE_MISSING;
       interfaces := [];
       cap2iface := replicate TY_BOARD_CAPABILITY_COUNT None;
       capabilities := 0;
       missing_since := missing_since board |} in
  let '(_, m2, calls) :=
    trigger_callbacks m1 board' TY_BOARD_EVENT_DISAPPEARED in
  (store_board m2 board', board', calls).

(** Modelled from the spec: [ty_adjust_timeout(timeout, start)], the
    part of [timeout] left at time [now] (the helper lives in the system
    layer): negative timeouts mean no limit and are kept. *)
Definition ty_adjust_timeout (timeout start now : Z) : Z :=
  if timeout <? 0 then -1 else Z.max 0 (start + timeout - now).

(** [add_missing_board]: the board joins the tail of the missing list and
    the timer is set for the board at its head. *)
Definition add_missing_board (m : ty_board_manager) (board : ty_board)
    (now : Z) : ty_board_manager * ty_board :=
  let board' :=
    {| board_id := board_id board; location := location board;
       identity := identity board; serial := serial board;
       vid := vid board; pid := pid board; model := model board;
       state := state board; interfaces := interfaces board;
       cap2iface := cap2iface board; capabilities := capabilities board;
       missing_since := now |} in
  let m1 := store_board m board' in
  let missing :=
    filter (fun i => i ≠ board_id board) (missing_boards m1)
    ++ [board_id board] in
  let m2 := set_missing_boards m1 missing in
  let head_since :=
    match missing with
    | h :: _ =>
        match find (fun b => (board_id b =? h)%nat) (boards m2) with
        | Some hb => missing_since hb
        | None => now
        end
    | [] => now
    end in
  (set_timer m2 (Some (ty_adjust_timeout drop_board_delay head_since now)),
   board').

(** [drop_board]: the board becomes [DROPPED], leaves the missing list,
    [DROPPED] is fired, and the board is unlinked from the manager. *)
Definition drop_board (m : ty_board_manager) (board : ty_board)
  : ty_board_manager * ty_board * list callback_call :=
  let board' :=
    {| board_id := board_id board; location := location board;
       identity := identity board; serial := serial board;
       vid := vid board; pid := pid board; model := model board;
       state := TY_BOARD_STATE_DROPPED;
       interfaces := interfaces board;
       cap2iface := cap2iface board; capabilities := capabilities board;
       missing_since := missing_since board |} in
  let m1 :=
    set_missing_boards m
      (filter (fun i => i ≠ board_id board) (missing_boards m)) in
  let '(_, m2, calls) :=
    trigger_callbacks m1 board' TY_BOARD_EVENT_DROPPED in
  (set_boards m2
     (filter (fun b => board_id b ≠ board_id board) (boards m2)),
   board', calls).

Definition find_board (m : ty_board_manager) (loc : string)
  : option ty_board :=
  find (fun b => String.eqb (location b) loc) (boards m).

(** A vendor driver's [open_interface]: its result and the interface as
    it leaves it. *)
Definition vendor := ty_board_interface -> Z * ty_board_interface.

(** The loop of [open_interface] over the vendor table. *)
Fixpoint open_with_vendors (vendors : list vendor)
    (iface : ty_board_interface) : Z * option ty_board_interface :=
  match vendors with
  | [] => (0, None)
  | v :: rest =>
      let '(r, iface') := v iface in
      if (r <? 0) && negb (r =? ty_error TY_ERROR_NOT_FOUND)
      then (r, None)
      else if negb (r =? 0) then (1, Some iface')
      else open_with_vendors rest iface'
  end.

Definition null_vtable : iface_vtable :=
  {| vt_upload := fun _ _ => 0; vt_serial_write := fun _ _ => 0 |}.

Definition open_interface (vendors : list vendor) (dev : ty_device)
  : Z * option ty_board_interface :=
  let iface :=
    {| iface_dev := dev;
       iface_model := None;
       iface_serial := match dev_serial_number dev with
                       | Some s => fst (CLib.strtoull s)
                       | None => 0
                       end;
       iface_capabilities := 0;
       iface_vtable_of := null_vtable;
       iface_board := None |} in
  open_with_vendors vendors iface.

Definition find_interface (m : ty_board_manager) (dev : ty_device)
  : option ty_board_interface :=
  find (fun i => (dev_addr (iface_dev i) =? dev_addr dev)%N)
       (interfaces_table m).

(** *** Attaching and detaching interfaces *)

(** [for (i...) if (iface->capabilities & (1 << i)) cap2iface[i] = iface] *)
Definition route_capabilities (c2i : list (option ty_board_interface))
    (iface : ty_board_interface) : list (option ty_board_interface) :=
  foldl (fun acc i =>
           if Z.land (iface_capabilities iface) (Z.shiftl 1 (Z.of_nat i)) =? 0
           then acc else <[i := Some iface]> acc)
        c2i (seq 0 TY_BOARD_CAPABILITY_COUNT).

Definition with_board (iface : ty_board_interface) (b : nat) :=
  {| iface_dev := iface_dev iface; iface_model := iface_model iface;
     iface_serial := iface_serial iface;
     iface_capabilities := iface_capabilities iface;
     iface_vtable_of := iface_vtable_of iface;
     iface_board := Some b |}.

(** The replacement test of [add_interface], as written in the source. *)
Definition board_replaced (iface : ty_board_interface) (board : ty_board)
  : bool :=
  (model_is_valid (iface_model iface) && model_is_valid (model board)
   && negb (model_ptr_eqb (iface_model iface) (model board)))
  || negb (iface_serial iface =? serial board).

Definition add_interface (vendors : list vendor) (m : ty_board_manager)
    (dev : ty_device) : Z * ty_board_manager * list callback_call :=
  match open_interface vendors dev with
  | (r, None) => (r, m, [])
  | (_, Some iface) =>
      (* heuristics on an existing board at this location *)
      let '(m1, kept, calls1) :=
        match find_board m (dev_location dev) with
        | Some board =>
            if board_replaced iface board then
              let '(m', _, calls) := drop_board m board in (m', None, calls)
            else if negb (vid board =? dev_vid dev)
                    || negb (pid board =? dev_pid dev) then
              let '(m', b', calls) := close_board m board in
              (m',
               Some {| board_id := board_id b'; location := location b';
                       identity := identity b'; serial := serial b';
                       vid := dev_vid dev; pid := dev_pid dev;
                       model := model b'; state := state b';
                       interfaces := interfaces b';
                       cap2iface := cap2iface b';
                       capabilities := capabilities b';
                       missing_since := missing_since b' |},
               calls)
            else (m, Some board, [])
        | None => (m, None, [])
        end in
      let '(m2, board, event) :=
        match kept with
        | Some b =>
            (m1,
             {| board_id := board_id b; location := location b;
                identity := identity b;
                serial := if iface_serial iface =? 0 then serial b
                          else iface_serial iface;
                vid := vid b; pid := pid b;
                model := if model_is_valid (iface_model iface)
                         then iface_model iface else model b;
                state := state b; interfaces := interfaces b;
                cap2iface := cap2iface b; capabilities := capabilities b;
                missing_since := missing_since b |},
             TY_BOARD_EVENT_CHANGED)
        | None =>
            let '(m', b) := add_board m1 iface in
            (m', b, TY_BOARD_EVENT_ADDED)
        end in
      let iface' := with_board iface (board_id board) in
      let board' :=
        {| board_id := board_id board; location := location board;
           identity := identity board; serial := serial board;
           vid := vid board; pid := pid board; model := model board;
           state := TY_BOARD_STATE_ONLINE;
           interfaces := interfaces board ++ [iface'];
           cap2iface := route_capabilities (cap2iface board) iface';
           capabilities :=
             Z.lor (capabilities board) (iface_capabilities iface');
           missing_since := missing_since board |} in
      let m3 := set_interfaces_table m2 (interfaces_table m2 ++ [iface']) in
      let m4 :=
        set_missing_boards m3
          (filter (fun i => i ≠ board_id board) (missing_boards m3)) in
      let m5 := store_board m4 board' in
      let '(r, m6, calls2) := trigger_callbacks m5 board' event in
      (r, m6, calls1 ++ calls2)
  end.

(** [ty_htable_remove(&iface->hnode)] and [ty_list_remove(&iface->list)]:
    one node leaves the list, the first one that stands for the device
    of [iface] (an interface object is known by its device). *)
Fixpoint unlink_interface (iface : ty_board_interface)
    (l : list ty_board_interface) : list ty_board_interface :=
  match l with
  | [] => []
  | i :: l' =>
      if same_device i iface then l' else i :: unlink_interface iface l'
  end.

(** [remove_interface].  The interface [find_interface] returns is
    unlinked from the device table and from the list of its board, and
    the capabilities of the board are routed again over the interfaces
    that are left.

    Two things the sources do not settle are left to the statements:
    - the hash table is not part of the sources, so the order in which
      [find_interface] meets several entries for one device is not
      known; the table is searched here in the order of insertion, and
      the statements about [remove_interface] are made for devices with
      one entry;
    - [board = iface->board] is used without a test.  When that board
      was dropped ([drop_board] unlinks it and clears [board->manager];
      its interfaces stay in the table as long as the program keeps a
      reference to the board), [close_board] and [trigger_callbacks]
      read [board->manager->callbacks] through the null pointer: the
      call has no defined outcome, and the manager is returned as it is.
      The statements about [remove_interface] are made for interfaces
      whose board is linked. *)
Definition remove_interface (m : ty_board_manager) (dev : ty_device)
    (now : Z) : Z * ty_board_manager * list callback_call :=
  match find_interface m dev with
  | None => (0, m, [])
  | Some iface =>
      match
        find (fun b => bool_decide (Some (board_id b) = iface_board iface))
             (boards m)
      with
      | None => (0, m, [])
      | Some board =>
          let m1 :=
            set_interfaces_table m
              (unlink_interface iface (interfaces_table m)) in
          let rest := unlink_interface iface (interfaces board) in
          let board1 :=
            {| board_id := board_id board; location := location board;
               identity := identity board; serial := serial board;
               vid := vid board; pid := pid board; model := model board;
               state := state board;
               interfaces := rest;
               cap2iface :=
                 foldl route_capabilities
                       (replicate TY_BOARD_CAPABILITY_COUNT None) rest;
               capabilities :=
                 foldl (fun c i => Z.lor c (iface_capabilities i)) 0 rest;
               missing_since := missing_since board |} in
          match rest with
          | [] =>
              let '(m2, board2, calls) := close_board m1 board1 in
              let '(m3, _) := add_missing_board m2 board2 now in
              (0, m3, calls)
          | _ :: _ =>
              let '(r, m2, calls) :=
                trigger_callbacks (store_board m1 board1) board1
                                  TY_BOARD_EVENT_CHANGED in
              (if r <? 0 then r else 0, m2, calls)
          end
      end
  end.

(** *** Identity matching *)

(** [parse_identity]: the location before the first ['#'] (none when the
    text starts with ['#']) and the serial after it. *)
Definition parse_identity (id : string) : ty_err + (option string * Z) :=
  let ptr := CLib.strchr id "#" in
  let location :=
    match ptr with
    | Some O => None
    | Some n => Some (substring 0 n id)
    | None => Some id
    end in
  match ptr with
  | Some n =>
      let text := substring (S n) (String.length id - S n) id in
      let '(serial, consumed) := CLib.strtoull text in
      if bool_decide (consumed = O)
         || negb (bool_decide (consumed = String.length text))
      then inl TY_ERROR_PARAM
      else inr (location, serial)
  | None => inr (location, 0)
  end.

(** [ty_board_matches_identity]; [None] is a null [id]. *)
Definition ty_board_matches_identity (board : ty_board)
    (id : option string) : Z :=
  match id with
  | None => 1
  | Some "" => 1
  | Some s =>
      match parse_identity s with
      | inl e => ty_error e
      | inr (loc, ser) =>
          if match loc with
             | Some l => negb (String.eqb l (location board))
             | None => false
             end
          then 0
          else if negb (ser =? 0) && negb (ser =? serial board) then 0
          else 1
      end
  end.

(** *** Capability facades *)

(** [ty_board_get_interface]. *)
Definition ty_board_get_interface (board : ty_board)
    (cap : ty_board_capability) : option ty_board_interface :=
  mjoin (cap2iface board !! cap_index cap).

(** Modelled from the spec: the [nocheck] upload flag, one bit of
    [flags] (its definition is in [board.h]). *)
Definition TY_BOARD_UPLOAD_NOCHECK : Z := 1.

(** [ty_board_serial_write]: result and the vtable calls made. *)
Definition ty_board_serial_write (board : ty_board) (buf : list Z)
    (size : Z) : Z * list vtable_call :=
  match ty_board_get_interface board TY_BOARD_CAPABILITY_SERIAL with
  | None => (ty_error TY_ERROR_MODE, [])
  | Some iface =>
      let size := if size =? 0 then CLib.strlen buf else size in
      (vt_serial_write (iface_vtable_of iface) buf size,
       [CallSerialWrite (dev_addr (iface_dev iface)) buf size])
  end.

(** [ty_board_upload]: result and the vtable calls made. *)
Definition ty_board_upload (R : model_registry) (board : ty_board)
    (f : ty_firmware) (flags : Z) : Z * list vtable_call :=
  match ty_board_get_interface board TY_BOARD_CAPABILITY_UPLOAD with
  | None => (ty_error TY_ERROR_MODE, [])
  | Some iface =>
      if negb (model_is_valid (model board))
      then (ty_error TY_ERROR_MODE, [])
      else if match model board with
              | Some md => code_size md <? size f
              | None => false
              end
      then (ty_error TY_ERROR_RANGE, [])
      else
        let upload :=
          (vt_upload (iface_vtable_of iface) f flags,
           [CallUpload (dev_addr (iface_dev iface)) f flags]) in
        if Z.land flags TY_BOARD_UPLOAD_NOCHECK =? 0 then
          match ty_board_test_firmware R f with
          | None => (ty_error TY_ERROR_FIRMWARE, [])
          | Some guess =>
              if negb (model_ptr_eqb (Some guess) (model board))
              then (ty_error TY_ERROR_FIRMWARE, [])
              else upload
          end
        else upload
  end.

(** *** Queries and enumeration *)

(** [ty_board_find_model]: the first model of the table whose name or
    whose microcontroller is [nm]. *)
Definition ty_board_find_model (R : model_registry) (nm : string)
  : option ty_board_model :=
  find (fun md => String.eqb (name md) nm || String.eqb (mcu md) nm)
       (ty_board_models R).

(** The loop of [ty_board_manager_list]: [fn] is called with [ADDED] on
    the boards that are online, until it returns non-zero.  Returns the
    result and the boards [fn] was called with. *)
Fixpoint list_boards_loop (bs : list ty_board)
    (fn : ty_board -> ty_board_event -> Z) : Z * list ty_board :=
  match bs with
  | [] => (0, [])
  | b :: rest =>
      match state b with
      | TY_BOARD_STATE_ONLINE =>
          let r := fn b TY_BOARD_EVENT_ADDED in
          if r =? 0 then
            let '(r', seen) := list_boards_loop rest fn in (r', b :: seen)
          else (r, [b])
      | _ => list_boards_loop rest fn
      end
  end.

Definition ty_board_manager_list (m : ty_board_manager)
    (fn : ty_board -> ty_board_event -> Z) : Z * list ty_board :=
  list_boards_loop (boards m) fn.

(** The loop of [ty_board_list_interfaces]: [fn] is called on the
    interfaces in list order until it returns non-zero. *)
Fixpoint list_interfaces_loop (l : list ty_board_interface)
    (fn : ty_board_interface -> Z) : Z * list ty_board_interface :=
  match l with
  | [] => (0, [])
  | i :: rest =>
      let r := fn i in
      if r =? 0 then
        let '(r', seen) := list_interfaces_loop rest fn in (r', i :: seen)
      else (r, [i])
  end.

Definition ty_board_list_interfaces (board : ty_board)
    (fn : ty_board_interface -> Z) : Z * list ty_board_interface :=
  list_interfaces_loop (interfaces board) fn.

Definition ty_board_get_capabilities (board : ty_board) : Z :=
  capabilities board.

(** *** Device events *)

Inductive ty_device_event :=
| TY_DEVICE_EVENT_ADDED
| TY_DEVICE_EVENT_REMOVED.

(** [device_callback], the manager's handler of the monitor's events;
    [now] is the time [ty_millis] reports. *)
Definition device_callback (vendors : list vendor) (m : ty_board_manager)
    (dev : ty_device) (event : ty_device_event) (now : Z)
  : Z * ty_board_manager * list callback_call :=
  match event with
  | TY_DEVICE_EVENT_ADDED => add_interface vendors m dev
  | TY_DEVICE_EVENT_REMOVED => remove_interface m dev now
  end.

(** The first block of [ty_board_manager_refresh], entered when the
    timer has expired: the missing boards are gone through from the
    oldest; one that still has time left re-arms the timer with that
    time and ends the loop, the others are dropped. *)
Fixpoint drop_expired (m : ty_board_manager) (missing : list nat) (now : Z)
  : ty_board_manager * list callback_call :=
  match missing with
  | [] => (m, [])
  | i :: rest =>
      match find (fun b => (board_id b =? i)%nat) (boards m) with
      | None => drop_expired m rest now
      | Some board =>
          let timeout :=
            ty_adjust_timeout drop_board_delay (missing_since board) now in
          if timeout =? 0 then
            let '(m1, _, calls) := drop_board m board in
            let '(m2, calls') := drop_expired m1 rest now in
            (m2, calls ++ calls')
          else (set_timer m (Some timeout), [])
      end
  end.

End Board.

(** ** Tasks and the worker pool *)

Module Task.

Inductive ty_task_status :=
| TY_TASK_STATUS_READY
| TY_TASK_STATUS_PENDING
| TY_TASK_STATUS_RUNNING
| TY_TASK_STATUS_FINISHED.

(** The integer value of a status, used by [<], [<=] and [>=] in the
    source. *)
Definition rank (s : ty_task_status) : Z :=
  match s with
  | TY_TASK_STATUS_READY => 0
  | TY_TASK_STATUS_PENDING => 1
  | TY_TASK_STATUS_RUNNING => 2
  | TY_TASK_STATUS_FINISHED => 3
  end.

Global Instance ty_task_status_eq_dec : EqDecision ty_task_status.
Proof. solve_decision. Defined.

(** [struct ty_task].  A task is named by its address (a [nat]).  The
    callables are opaque: [task_run] is the value the run callable
    returns, the three optional callables are present or not, and every
    call is recorded in the log. *)
Record ty_task := {
  name : string;
  status : ty_task_status;
  ret : Z;
  task_run : Z;
  task_finalize : bool;
  result_cleanup : bool;
  user_cleanup : bool;
  refcount : Z
}.

(** [struct ty_pool]; worker threads are anonymous: [started] of them
    exist, [busy] of those are running a task or on their way to the
    queue, the others sit in the inner loop of [task_thread]. *)
Record ty_pool := {
  unused_timeout : Z;
  max_threads : Z;
  started : Z;
  busy : Z;
  pending_tasks : list nat;
  init : bool
}.

Inductive event :=
| EvNew (t : nat) (finalize : bool)
| EvStore (t : nat) (s : ty_task_status)     (* store to task->status *)
| EvMessage (t : nat) (s : ty_task_status)   (* status message sent *)
| EvRun (t : nat)
| EvFinalize (t : nat)
| EvResultCleanup (t : nat)
| EvUserCleanup (t : nat)
| EvFree (t : nat).

Global Instance event_eq_dec : EqDecision event.
Proof. solve_decision. Defined.

(** The memory holding the tasks, the (default) pool every task is
    started on, the tasks in the hands of the workers, the thread-local
    [current_task], and the log of stores and calls.  [held] lists the
    local variable [task] of every worker that is between the unlock of
    [pool->mutex] that ends the inner loop of [task_thread] and its call
    of [run_task]: such a task has left the queue and is still
    [PENDING]. *)
Record world := {
  tasks : gmap nat ty_task;
  pool : ty_pool;
  held : list nat;
  current_task : option nat;
  next_task : nat;
  log : list event
}.

Definition set_task (w : world) (t : nat) (x : ty_task) : world :=
  {| tasks := <[t := x]> (tasks w); pool := pool w; held := held w;
     current_task := current_task w; next_task := next_task w;
     log := log w |}.

Definition set_pool (w : world) (p : ty_pool) : world :=
  {| tasks := tasks w; pool := p; held := held w;
     current_task := current_task w;
     next_task := next_task w; log := log w |}.

Definition set_held (w : world) (l : list nat) : world :=
  {| tasks := tasks w; pool := pool w; held := l;
     current_task := current_task w;
     next_task := next_task w; log := log w |}.

Definition set_current (w : world) (c : option nat) : world :=
  {| tasks := tasks w; pool := pool w; held := held w; current_task := c;
     next_task := next_task w; log := log w |}.

Definition emit (w : world) (evs : list event) : world :=
  {| tasks := tasks w; pool := pool w; held := held w;
     current_task := current_task w;
     next_task := next_task w; log := log w ++ evs |}.

Definition with_status (x : ty_task) (s : ty_task_status) : ty_task :=
  {| name := name x; status := s; ret := ret x; task_run := task_run x;
     task_finalize := task_finalize x;
     result_cleanup := result_cleanup x; user_cleanup := user_cleanup x;
     refcount := refcount x |}.

Definition with_refcount (x : ty_task) (n : Z) : ty_task :=
  {| name := name x; status := status x; ret := ret x;
     task_run := task_run x; task_finalize := task_finalize x;
     result_cleanup := result_cleanup x; user_cleanup := user_cleanup x;
     refcount := n |}.

(** [ty_pool_new]. *)
Definition ty_pool_new : ty_pool :=
  {| unused_timeout := 10000; max_threads := 16; started := 0; busy := 0;
     pending_tasks := []; init := true |}.

Definition initial_world : world :=
  {| tasks := ∅; pool := ty_pool_new; held := []; current_task := None;
     next_task := 0; log := [] |}.

(** [ty_task_new], followed by the attachment of the optional callables
    by the task's constructor: [finalize], [result] and user-cleanup may
    be attached before start (the constructors that attach them are not
    part of the sources).  The log records the creation and the status
    [calloc] leaves, [READY]. *)
Definition ty_task_new (w : world) (nm : string) (run : Z)
    (finalize rcleanup ucleanup : bool) : nat * world :=
  let t := next_task w in
  let x := {| name := nm; status := TY_TASK_STATUS_READY; ret := 0;
              task_run := run; task_finalize := finalize;
              result_cleanup := rcleanup; user_cleanup := ucleanup;
              refcount := 1 |} in
  (t,
   {| tasks := <[t := x]> (tasks w); pool := pool w; held := held w;
      current_task := current_task w; next_task := S t;
      log := log w ++ [EvNew t finalize; EvStore t TY_TASK_STATUS_READY] |}).

(** Operations on a task that is not in memory any more have no meaning
    in C; they are [None] here.  [_ty_refcount_increase] and
    [_ty_refcount_decrease] add and subtract one, the latter returning the
    new count. *)
Definition ty_task_ref (w : world) (t : nat) : option world :=
  x ← tasks w !! t;
  Some (set_task w t (with_refcount x (refcount x + 1))).

Definition ty_task_unref (w : world) (t : nat) : option world :=
  x ← tasks w !! t;
  if negb (refcount x - 1 =? 0)
  then Some (set_task w t (with_refcount x (refcount x - 1)))
  else
    Some {| tasks := delete t (tasks w); pool := pool w; held := held w;
            current_task := current_task w; next_task := next_task w;
            log := log w
                   ++ (if result_cleanup x then [EvResultCleanup t] else [])
                   ++ (if user_cleanup x then [EvUserCleanup t] else [])
                   ++ (if task_finalize x then [EvFinalize t] else [])
                   ++ [EvFree t] |}.

Definition change_status (w : world) (t : nat) (s : ty_task_status)
  : option world :=
  x ← tasks w !! t;
  Some (emit (set_task w t (with_status x s)) [EvStore t s; EvMessage t s]).

(** [run_task] after its [assert]: all of it when the assertions are
    compiled out ([NDEBUG]). *)
Definition run_task_body (w : world) (t : nat) : option world :=
  let previous_task := current_task w in
  w1 ← change_status (set_current w (Some t)) t TY_TASK_STATUS_RUNNING;
  x1 ← tasks w1 !! t;
  let w2 :=
    emit (set_task w1 t
            {| name := name x1; status := status x1; ret := task_run x1;
               task_run := task_run x1;
               task_finalize := task_finalize x1;
               result_cleanup := result_cleanup x1;
               user_cleanup := user_cleanup x1;
               refcount := refcount x1 |})
         [EvRun t] in
  x2 ← tasks w2 !! t;
  let w3 :=
    if task_finalize x2 then
      emit (set_task w2 t
              {| name := name x2; status := status x2; ret := ret x2;
                 task_run := task_run x2; task_finalize := false;
                 result_cleanup := result_cleanup x2;
                 user_cleanup := user_cleanup x2;
                 refcount := refcount x2 |})
           [EvFinalize t]
    else w2 in
  w4 ← change_status w3 t TY_TASK_STATUS_FINISHED;
  Some (set_current w4 previous_task).

(** [run_task]; the leading [assert] is a precondition: where it fails
    the call is [None], as the program aborts there. *)
Definition run_task (w : world) (t : nat) : option world :=
  x ← tasks w !! t;
  if negb (rank (status x) <=? rank TY_TASK_STATUS_PENDING) then None
  else run_task_body w t.

(** [start_thread], called with the pool locked.  [spawn] is what
    allocating the thread structure and [ty_thread_create] come to: 0 on
    success, a negative error code on failure. *)
Definition start_thread (p : ty_pool) (spawn : Z) : Z * ty_pool :=
  if spawn <? 0 then (spawn, p)
  else
    (0, {| unused_timeout := unused_timeout p; max_threads := max_threads p;
           started := started p + 1; busy := busy p + 1;
           pending_tasks := pending_tasks p; init := init p |}).

(** The loop of [ty_pool_set_max_threads] over the pending tasks, one
    spawn attempt per task until [started] reaches [max]; [spawns] gives
    the outcome of the successive attempts (success once exhausted).
    [Some r] is an exit through [goto cleanup] with result [r]. *)
Fixpoint set_max_loop (cur : list nat) (max : Z) (p : ty_pool)
    (spawns : list Z) : option Z * ty_pool :=
  match cur with
  | [] => (None, p)
  | _ :: cur' =>
      if max <=? started p then (None, p)
      else
        let '(r, p') := start_thread p (hd 0 spawns) in
        if r <? 0
        then (Some (if started p' =? 0 then r else 0), p')
        else set_max_loop cur' max p' (tl spawns)
  end.

Definition ty_pool_set_max_threads (w : world) (max : Z) (spawns : list Z)
  : Z * world :=
  let p := pool w in
  let '(exit, p1) :=
    if max_threads p <? max
    then set_max_loop (pending_tasks p) max p spawns
    else (None, p) (* ty_cond_broadcast *) in
  match exit with
  | Some r => (r, set_pool w p1)
  | None =>
      (0, set_pool w
            {| unused_timeout := unused_timeout p1; max_threads := max;
               started := started p1; busy := busy p1;
               pending_tasks := pending_tasks p1; init := init p1 |})
  end.

(** [ty_task_start]; the [assert] on the status is a precondition. *)
Definition ty_task_start (w : world) (t : nat) (spawn : Z)
  : option (Z * world) :=
  x ← tasks w !! t;
  if negb (bool_decide (status x = TY_TASK_STATUS_READY)) then None
  else
    let p := pool w in
    let '(r, p1) :=
      if (busy p =? started p) && (started p <? max_threads p)
      then start_thread p spawn
      else (0, p) in
    if r <? 0 then Some (r, set_pool w p1)
    else
      w1 ← ty_task_ref (set_pool w p1) t;
      let p2 := pool w1 in
      let w2 :=
        set_pool w1
          {| unused_timeout := unused_timeout p2;
             max_threads := max_threads p2; started := started p2;
             busy := busy p2; pending_tasks := t :: pending_tasks p2;
             init := init p2 |} in
      w3 ← change_status w2 t TY_TASK_STATUS_PENDING;
      Some (0, w3).

(** [ty_list_remove(&task->list)] on the pending queue.  A task has one
    list node, so it is queued at most once.  The list primitives are not
    part of the sources: for a task that a worker has already taken off
    the queue, the model leaves the queue as it is. *)
Definition remove_pending (w : world) (t : nat) : world :=
  let p := pool w in
  set_pool w
    {| unused_timeout := unused_timeout p; max_threads := max_threads p;
       started := started p; busy := busy p;
       pending_tasks := filter (fun u => u ≠ t) (pending_tasks p);
       init := init p |}.

(** How a call of [ty_task_wait] leaves its first part: it has returned
    [r], or it has reached the loop on the task's condition variable. *)
Inductive wait_entry :=
| Returned (r : Z)
| Waiting.

(** [ty_task_wait] up to the wait loop; the [assert] on [status] is a
    precondition.  A negative [timeout] is a wait without limit. *)
Definition ty_task_wait_enter (w : world) (t : nat) (s : ty_task_status)
    (timeout : Z) (spawn : Z) : option (wait_entry * world) :=
  if negb (rank TY_TASK_STATUS_READY <? rank s) then None
  else
    x ← tasks w !! t;
    if bool_decide (s = TY_TASK_STATUS_FINISHED) && (timeout <? 0) then
      w1 ← (if bool_decide (status x = TY_TASK_STATUS_PENDING) then
              w' ← ty_task_unref (remove_pending w t) t;
              x' ← tasks w' !! t;
              Some (emit (set_task w' t
                            (with_status x' TY_TASK_STATUS_READY))
                         [EvStore t TY_TASK_STATUS_READY])
            else Some w);
      x1 ← tasks w1 !! t;
      if bool_decide (status x1 = TY_TASK_STATUS_READY) then
        w2 ← run_task w1 t;
        Some (Returned 1, w2)
      else Some (Waiting, w1)
    else if bool_decide (status x = TY_TASK_STATUS_READY) then
      '(r, w1) ← ty_task_start w t spawn;
      if r <? 0 then Some (Returned r, w1) else Some (Waiting, w1)
    else Some (Waiting, w).

(** The wait loop of [ty_task_wait] seen from outside: the call returns
    1 once the status has reached [s], 0 if the wait timed out before,
    and does not return otherwise. *)
Definition ty_task_wait_leave (w : world) (t : nat) (s : ty_task_status)
    (timed_out : bool) : option Z :=
  x ← tasks w !! t;
  if rank s <=? rank (status x) then Some 1
  else if timed_out then Some 0
  else None.

(** [task_thread], top of the outer loop: a worker that was counted as
    busy locks the pool and stops being so. *)
Definition task_thread_enter (w : world) : option world :=
  let p := pool w in
  if busy p <=? 0 then None
  else
    Some (set_pool w
            {| unused_timeout := unused_timeout p;
               max_threads := max_threads p; started := started p;
               busy := busy p - 1; pending_tasks := pending_tasks p;
               init := init p |}).

(** [task_thread], one pass of the inner loop by a worker that is not
    busy, up to the point where the pool is unlocked: the worker leaves
    when the pool shrinks, or takes the first pending task off the queue
    and counts as busy, or leaves when its wait timed out ([timed_out]),
    or keeps waiting.  The result names the task the worker leaves the
    loop with, if any; that task is [held] from then on, and nothing has
    been stored to its status yet. *)
Definition task_thread_scan (w : world) (timed_out : bool)
  : option (option nat * world) :=
  let p := pool w in
  if started p - busy p <=? 0 then None
  else
    let leave :=
      set_pool w
        {| unused_timeout := unused_timeout p; max_threads := max_threads p;
           started := started p - 1; busy := busy p;
           pending_tasks := pending_tasks p; init := init p |} in
    if max_threads p <? started p then Some (None, leave)
    else
      match pending_tasks p with
      | t :: rest =>
          Some (Some t,
                set_held
                  (set_pool w
                     {| unused_timeout := unused_timeout p;
                        max_threads := max_threads p; started := started p;
                        busy := busy p + 1; pending_tasks := rest;
                        init := init p |})
                  (t :: held w))
      | [] => if timed_out then Some (None, leave) else Some (None, w)
      end.

(** One occurrence of [t] less. *)
Fixpoint remove_one (t : nat) (l : list nat) : list nat :=
  match l with
  | [] => []
  | u :: l' => if (u =? t)%nat then l' else u :: remove_one t l'
  end.

(** [task_thread] after the unlock, for a worker that holds the task
    [t] ([None] when no worker does): [run_task], then [ty_task_unref]
    for the reference the queue had.  The pool is not locked here, so
    calls of other threads can come between [task_thread_scan] and this
    one. *)
Definition task_thread_run (w : world) (t : nat) : option world :=
  if negb (bool_decide (t ∈ held w)) then None
  else
    w1 ← run_task (set_held w (remove_one t (held w))) t;
    ty_task_unref w1 t.

(** A whole pass of a worker that no call of another thread comes
    across: the scan, and the run of the task it took. *)
Definition task_thread_pass (w : world) (timed_out : bool) : option world :=
  '(taken, w1) ← task_thread_scan w timed_out;
  match taken with
  | Some t => task_thread_run w1 t
  | None => Some w1
  end.

(** The first loop of [ty_pool_free]: the queue's reference to every
    pending task is dropped. *)
Fixpoint unref_all (w : world) (l : list nat) : option world :=
  match l with
  | [] => Some w
  | t :: l' => w' ← ty_task_unref w t; unref_all w' l'
  end.

(** [ty_pool_free] up to the point where it joins the workers: the queue
    is emptied, the limit drops to zero and [init] is cleared. *)
Definition ty_pool_free (w : world) : option world :=
  if init (pool w) then
    w1 ← unref_all w (pending_tasks (pool w));
    let p := pool w1 in
    Some (set_pool w1
            {| unused_timeout := unused_timeout p; max_threads := 0;
               started := started p; busy := busy p; pending_tasks := [];
               init := false |})
  else Some w.

(** *** Executions *)

(** The calls a program and the workers can make, in some interleaving.
    A worker's pass is two steps, [AWorkerScan] and [AWorkerRun], as the
    pool is unlocked in between. *)
Inductive action :=
| ANew (nm : string) (run : Z) (finalize rcleanup ucleanup : bool)
| ARef (t : nat)
| AUnref (t : nat)
| AStart (t : nat) (spawn : Z)
| AWait (t : nat) (s : ty_task_status) (timeout : Z) (spawn : Z)
| ASetMaxThreads (max : Z) (spawns : list Z)
| AWorkerEnter
| AWorkerScan (timed_out : bool)
| AWorkerRun (t : nat)
| APoolFree.

Definition step (w : world) (a : action) : option world :=
  match a with
  | ANew nm run fin rc uc => Some (snd (ty_task_new w nm run fin rc uc))
  | ARef t => ty_task_ref w t
  | AUnref t => ty_task_unref w t
  | AStart t spawn => snd <$> ty_task_start w t spawn
  | AWait t s timeout spawn => snd <$> ty_task_wait_enter w t s timeout spawn
  | ASetMaxThreads max spawns => Some (snd (ty_pool_set_max_threads w max spawns))
  | AWorkerEnter => task_thread_enter w
  | AWorkerScan timed_out => snd <$> task_thread_scan w timed_out
  | AWorkerRun t => task_thread_run w t
  | APoolFree => ty_pool_free w
  end.

Fixpoint exec (w : world) (acts : list action) : option world :=
  match acts with
  | [] => Some w
  | a :: rest => w' ← step w a; exec w' rest
  end.

(** The values stored to the status of task [t], oldest first. *)
Fixpoint history (l : list event) (t : nat) : list ty_task_status :=
  match l with
  | [] => []
  | EvStore u s :: l' => if (u =? t)%nat then s :: history l' t
                         else history l' t
  | _ :: l' => history l' t
  end.


(** [ty_task_join]: an unlimited wait for the end of the task, then its
    return code.  When the first part of the wait has to block, the call
    returns only once the task is finished. *)
Definition ty_task_join (w : world) (t : nat) : option (Z * world) :=
  '(e, w1) ← ty_task_wait_enter w t TY_TASK_STATUS_FINISHED (-1) 0;
  r ← match e with
      | Returned r => Some r
      | Waiting => ty_task_wait_leave w1 t TY_TASK_STATUS_FINISHED false
      end;
  if r <? 0 then Some (r, w1)
  else x ← tasks w1 !! t; Some (ret x, w1).

(** [ty_pool_set_idle_timeout]. *)
Definition ty_pool_set_idle_timeout (w : world) (timeout : Z) : world :=
  let p := pool w in
  set_pool w
    {| unused_timeout := timeout; max_threads := max_threads p;
       started := started p; busy := busy p;
       pending_tasks := pending_tasks p; init := init p |}.

End Task.

(** ** The upload command of the command-line tool *)

Module Tyc.

(** [reload_firmware]: [stat] is the result of [ty_stat] and the
    modification time it reports, [load] the result of
    [ty_firmware_load] and the firmware it makes.  Returns the result,
    the firmware and the time the caller keeps, and whether the file
    was loaded. *)
Definition reload_firmware (rfirmware : option Board.ty_firmware)
    (rmtime : Z) (stat : Z * Z) (load : Z * Board.ty_firmware)
  : Z * option Board.ty_firmware * Z * bool :=
  let '(r, info_mtime) := stat in
  if r <? 0 then (r, rfirmware, rmtime, false)
  else if match rfirmware with None => true | Some _ => false end
          || negb (info_mtime =? rmtime) then
    let '(r, firmware) := load in
    if r <? 0 then (r, rfirmware, rmtime, true)
    else (1, Some firmware, info_mtime, true)
  else (0, rfirmware, rmtime, false).

End Tyc.

(* ===================================================================== *)
(** * Part II: properties                                                 *)
(* ===================================================================== *)

(** ** Sample data for closed examples *)

Module Sample.
Import Board.

(** Five model objects with distinct addresses, as the Teensy driver
    defines them; only the addresses and the sizes matter below. *)
Definition registry : model_registry :=
  {| _ty_teensy_pp10_model :=
       {| model_addr := 1; name := "teensy++10"; mcu := "at90usb646";
          desc := "Teensy++ 1.0"; code_size := 64512 |};
     _ty_teensy_20_model :=
       {| model_addr := 2; name := "teensy20"; mcu := "atmega32u4";
          desc := "Teensy 2.0"; code_size := 32256 |};
     _ty_teensy_pp20_model :=
       {| model_addr := 3; name := "teensy++20"; mcu := "at90usb1286";
          desc := "Teensy++ 2.0"; code_size := 130048 |};
     _ty_teensy_30_model :=
       {| model_addr := 4; name := "teensy30"; mcu := "mk20dx128";
          desc := "Teensy 3.0"; code_size := 131072 |};
     _ty_teensy_31_model :=
       {| model_addr := 5; name := "teensy31"; mcu := "mk20dx256";
          desc := "Teensy 3.1"; code_size := 262144 |} |}.

(** A model object of a board family whose exact model is not known: it
    exists but has no code size, so [model_is_valid] rejects it. *)
Definition unknown_model : ty_board_model :=
  {| model_addr := 9; name := "teensy"; mcu := ""; desc := "Teensy";
     code_size := 0 |}.

Definition teensy_20_magic : list Z :=
  [0x0C; 0x94; 0x00; 0x3F; 0xFF; 0xCF; 0xF8; 0x94].

Definition device (addr : N) (vid pid : Z) (sn : option string)
  : ty_device :=
  {| dev_addr := addr; dev_location := "usb-1-2"; dev_vid := vid;
     dev_pid := pid; dev_serial_number := sn |}.

(** A vtable whose operations report the number of bytes they were
    given. *)
Definition vtable : iface_vtable :=
  {| vt_upload := fun f _ => size f; vt_serial_write := fun _ n => n |}.

(** A vendor driver that recognises every device as a Teensy 3.1 with
    the capabilities [caps]. *)
Definition vendor_teensy31 (caps : Z) : vendor :=
  fun iface =>
    (1, {| iface_dev := iface_dev iface;
           iface_model := Some (_ty_teensy_31_model registry);
           iface_serial := iface_serial iface;
           iface_capabilities := caps;
           iface_vtable_of := vtable;
           iface_board := None |}).

Definition empty_manager : ty_board_manager :=
  {| callbacks := []; callback_id := 0; boards := [];
     missing_boards := []; interfaces_table := []; timer := None;
     next_board := 0 |}.

(** An interface with the capabilities [caps], and a board that routes
    every capability of [caps] to it. *)
Definition interface (caps : Z) (md : option ty_board_model)
  : ty_board_interface :=
  {| iface_dev := device 7 0x16C0 0x478 None; iface_model := md;
     iface_serial := 0; iface_capabilities := caps;
     iface_vtable_of := vtable; iface_board := Some O |}.

Definition board (caps : Z) (md : option ty_board_model) : ty_board :=
  {| board_id := 0; location := "usb-1-2"; identity := "usb-1-2#0";
     serial := 0; vid := 0x16C0; pid := 0x478; model := md;
     state := TY_BOARD_STATE_ONLINE;
     interfaces := [interface caps md];
     cap2iface :=
       route_capabilities (replicate TY_BOARD_CAPABILITY_COUNT None)
                          (interface caps md);
     capabilities := caps; missing_since := 0 |}.

(** Callbacks: one that keeps listening, one that asks to be removed,
    one that fails. *)
Definition cb_stay (i : Z) : callback := {| cb_id := i; cb_f := fun _ _ => 0 |}.
Definition cb_once (i : Z) : callback := {| cb_id := i; cb_f := fun _ _ => 1 |}.
Definition cb_fail (i : Z) : callback := {| cb_id := i; cb_f := fun _ _ => -1 |}.

(** A board with a serial number and no interface. *)
Definition board_1234 : ty_board :=
  {| board_id := 0; location := "usb-1-2"; identity := "usb-1-2#1234";
     serial := 1234; vid := 0x16C0; pid := 0x478; model := None;
     state := TY_BOARD_STATE_MISSING; interfaces := [];
     cap2iface := replicate TY_BOARD_CAPABILITY_COUNT None;
     capabilities := 0; missing_since := 0 |}.

(** A manager with one listener, after a device without readable serial
    number has appeared at usb-1-2: one board, serial 0. *)
Definition manager_serial0 : ty_board_manager :=
  snd (fst (add_interface [vendor_teensy31 8]
              (snd (ty_board_manager_register_callback empty_manager
                      (fun _ _ => 0)))
              (device 7 0x16C0 0x483 None))).

Definition manager_with (cbs : list callback) : ty_board_manager :=
  {| callbacks := cbs; callback_id := Z.of_nat (length cbs); boards := [];
     missing_boards := []; interfaces_table := []; timer := None;
     next_board := 0 |}.

End Sample.

(** ** Vocabulary of the statements *)

Module Statements.
Import Board.

(** The value and the call of a delegated upload. *)
Definition delegated (iface : ty_board_interface) (f : ty_firmware)
    (flags : Z) : Z * list vtable_call :=
  (vt_upload (iface_vtable_of iface) f flags,
   [CallUpload (dev_addr (iface_dev iface)) f flags]).

(** The reading of the upload checks that leaves the model check out:
    with the upload capability present, a firmware larger than the
    model's code size gives a range error. *)
Definition oversize_gives_range : Prop :=
  forall R board f flags iface md,
    ty_board_get_interface board TY_BOARD_CAPABILITY_UPLOAD = Some iface ->
    model board = Some md ->
    code_size md < size f ->
    ty_board_upload R board f flags = (ty_error TY_ERROR_RANGE, []).

(** The record of a call of [cb]. *)
Definition call_of (board : ty_board) (event : ty_board_event)
    (cb : callback) : callback_call :=
  {| call_id := cb_id cb; call_board := board; call_event := event |}.

(** The callbacks of [cbs] that returned zero for this event. *)
Definition returned_zero (board : ty_board) (event : ty_board_event)
    (cbs : list callback) : list callback :=
  List.filter (fun c => cb_f c board event =? 0) cbs.

(** "Every callback that returns a non-zero value is removed from the
    callback list": no callback that was called and returned non-zero
    for the event is registered after the delivery. *)
Definition nonzero_return_removed : Prop :=
  forall m board event cb,
    In cb (callbacks m) ->
    In (call_of board event cb) (snd (trigger_callbacks m board event)) ->
    cb_f cb board event <> 0 ->
    ~ In cb (callbacks (snd (fst (trigger_callbacks m board event)))).

(** A serial text that [parse_identity] accepts: [strtoull] converts
    something and stops at the end of the text. *)
Definition serial_accepted (text : string) : Prop :=
  snd (CLib.strtoull text) <> O
  /\ snd (CLib.strtoull text) = String.length text.

(** The value of a string of decimal digits, digit by digit. *)
Definition digit_step (acc : Z) (c : ascii) : Z :=
  acc * 10 + default 0 (CLib.digit_value c).

Definition decimal_value (s : string) : Z :=
  fold_left digit_step (list_ascii_of_string s) 0.

Definition all_digits (s : string) : Prop :=
  Forall (fun c => is_Some (CLib.digit_value c)) (list_ascii_of_string s).

(** The optional sign of a serial text. *)
Inductive sign := NoSign | Plus | Minus.

Definition sign_text (sg : sign) : string :=
  match sg with
  | NoSign => ""
  | Plus => "+"
  | Minus => "-"
  end.

Definition all_spaces (s : string) : Prop :=
  Forall (fun c => CLib.isspace c = true) (list_ascii_of_string s).

(** The serial texts that are read to their end: white space [sp], an
    optional sign [sg], and one decimal digit or more, [ds]. *)
Definition serial_syntax (text sp : string) (sg : sign) (ds : string)
  : Prop :=
  text = sp +:+ sign_text sg +:+ ds
  /\ all_spaces sp /\ all_digits ds /\ ds <> "".

(** The serial such a text stands for: the number written by the digits,
    negated modulo 2^64 after a minus sign, and 2^64 - 1 when the digits
    write a larger number. *)
Definition serial_value (sg : sign) (ds : string) : Z :=
  if CLib.ULLONG_MAX <? decimal_value ds then CLib.ULLONG_MAX
  else match sg with
       | Minus => (- decimal_value ds) mod 2 ^ 64
       | _ => decimal_value ds
       end.

(** The number a signed decimal text writes. *)
Definition signed_value (sg : sign) (ds : string) : Z :=
  match sg with
  | Minus => - decimal_value ds
  | _ => decimal_value ds
  end.

(** "A nonzero serial part matches only under numeric equality with the
    board's serial": when [location#text] matches a board, [text] writes
    a number, with or without sign, that is zero or the serial of the
    board. *)
Definition serial_matches_by_numeric_equality : Prop :=
  forall board loc text,
    CLib.strchr loc "#" = None ->
    ty_board_matches_identity board (Some (loc +:+ String "#" text)) = 1 ->
    exists sg ds,
      text = sign_text sg +:+ ds /\ all_digits ds /\ ds <> ""
      /\ (signed_value sg ds = 0 \/ signed_value sg ds = serial board).

(** "The [#<serial>] suffix is omitted when the serial is zero". *)
Definition suffix_omitted_for_zero_serial : Prop :=
  forall m iface,
    iface_serial iface = 0 ->
    identity (snd (add_board m iface)) = dev_location (iface_dev iface).

(** "The board is retained when one of the two serials is zero": an
    interface does not replace the board on account of the serials when
    one of them is zero. *)
Definition zero_serial_retains : Prop :=
  forall iface board,
    iface_serial iface = 0 \/ serial board = 0 ->
    model_ptr_eqb (iface_model iface) (model board) = true ->
    board_replaced iface board = false.

(** Address, serial and identity of the linked boards, and address and
    event of the calls made, for closed examples. *)
Definition linked (m : ty_board_manager) : list (nat * Z * string) :=
  map (fun b => (board_id b, serial b, identity b)) (boards m).

Definition events (calls : list callback_call)
  : list (nat * ty_board_event) :=
  map (fun c => (board_id (call_board c), call_event c)) calls.

(** The table of identities: address and identity of every linked board. *)
Definition idmap (m : ty_board_manager) : list (nat * string) :=
  map (fun b => (board_id b, identity b)) (boards m).

(** Every entry of the table at the address of [b] carries the identity
    of [b]. *)
Definition consistent (l : list (nat * string)) (b : ty_board) : Prop :=
  forall p, In p l -> fst p = board_id b -> snd p = identity b.

(** Board addresses are distinct and below the next one to be handed
    out. *)
Definition ids_ok (m : ty_board_manager) : Prop :=
  List.NoDup (map fst (idmap m))
  /\ Forall (fun p => (fst p < next_board m)%nat) (idmap m).

(** The identity [add_board] prints for a board made from [iface]. *)
Definition new_identity (iface : ty_board_interface) : string :=
  dev_location (iface_dev iface) +:+ "#" +:+ CLib.fmt_u64 (iface_serial iface).

(** What [add_interface] does to the table of identities and to the next
    board address. *)
Definition idmap_after_add (vendors : list vendor) (m : ty_board_manager)
    (dev : ty_device) : list (nat * string) * nat :=
  match open_interface vendors dev with
  | (_, None) => (idmap m, next_board m)
  | (_, Some iface) =>
      match find_board m (dev_location dev) with
      | Some b =>
          if board_replaced iface b
          then (filter (fun p => fst p ≠ board_id b) (idmap m)
                ++ [(next_board m, new_identity iface)],
                S (next_board m))
          else (idmap m, next_board m)
      | None =>
          (idmap m ++ [(next_board m, new_identity iface)], S (next_board m))
      end
  end.

(** The table of identities and the next board address. *)
Definition summary (m : ty_board_manager) : list (nat * string) * nat :=
  (idmap m, next_board m).

End Statements.

(** ** Vocabulary of the statements about tasks *)

Module TaskStatements.
Import Task.

(** The task as [run_task] leaves it. *)
Definition finished (x : ty_task) : ty_task :=
  {| name := name x; status := TY_TASK_STATUS_FINISHED; ret := task_run x;
     task_run := task_run x; task_finalize := false;
     result_cleanup := result_cleanup x; user_cleanup := user_cleanup x;
     refcount := refcount x |}.

(** What [run_task] adds to the log for a task found as [x]. *)
Definition run_events (t : nat) (x : ty_task) : list event :=
  [EvStore t TY_TASK_STATUS_RUNNING; EvMessage t TY_TASK_STATUS_RUNNING;
   EvRun t]
  ++ (if task_finalize x then [EvFinalize t] else [])
  ++ [EvStore t TY_TASK_STATUS_FINISHED; EvMessage t TY_TASK_STATUS_FINISHED].

(** What the last [ty_task_unref] adds to the log. *)
Definition unref_events (t : nat) (x : ty_task) : list event :=
  (if result_cleanup x then [EvResultCleanup t] else [])
  ++ (if user_cleanup x then [EvUserCleanup t] else [])
  ++ (if task_finalize x then [EvFinalize t] else [])
  ++ [EvFree t].





(** "A spawn that fails while [started > 0] is recoverable in
    [ty_task_start]: it reports success and the task is queued". *)
Definition start_recovers_from_spawn_failure : Prop :=
  forall w t spawn r w',
    0 < started (pool w) -> spawn < 0 ->
    ty_task_start w t spawn = Some (r, w') ->
    r = 0 /\ In t (pending_tasks (pool w')).








(** The world an execution ends in (the initial one if it has none). *)
Definition run_of (acts : list action) : world :=
  default initial_world (exec initial_world acts).





(** A task is started and the worker started for it takes it off the
    queue; before the worker has called [run_task], the submitter waits
    for the task to finish, without limit. *)
Definition acts_overtaken : list action :=
  [ANew "upload" 0 true false false; AStart 0 0; AWorkerEnter;
   AWorkerScan false; AWait 0 TY_TASK_STATUS_FINISHED (-1) 0].

(** A task is queued and its worker has come to the queue; the limit of
    the pool is then lowered to zero, and a call that would raise it
    again fails to start a thread. *)
Definition acts_limit_kept : list action :=
  [ANew "upload" 0 true false false; AStart 0 0; AWorkerEnter;
   ASetMaxThreads 0 []; ASetMaxThreads 32 [-1]].

(** A first task is queued, for which the only worker is started (and
    counted as busy); a second task is created. *)
Definition acts_busy : list action :=
  [ANew "first" 0 true false false; AStart 0 0;
   ANew "second" 0 true false false].

End TaskStatements.

(** ** Vocabulary of the statements about the registry, the listeners
    and the hotplug events *)

Module BoardStatements.
Import Board.

(** The test [ty_board_find_model] makes on a model. *)
Definition model_key (nm : string) (md : ty_board_model) : bool :=
  String.eqb (name md) nm || String.eqb (mcu md) nm.

(** No name or microcontroller of a model of the table is the name or
    the microcontroller of a later one. *)
Fixpoint keys_distinct (l : list ty_board_model) : Prop :=
  match l with
  | [] => True
  | md :: rest =>
      Forall (fun md' => name md <> name md' /\ name md <> mcu md'
                         /\ mcu md <> name md' /\ mcu md <> mcu md') rest
      /\ keys_distinct rest
  end.

(** The signature [sig] of the table is found at offset [k] of the
    image. *)
Definition matches_at (R : model_registry) (f : ty_firmware) (k : nat)
    (sig : firmware_signature) : Prop :=
  In sig (signatures R) /\ take 8 (drop k (image f)) = magic sig.

Definition is_online (b : ty_board) : bool :=
  match state b with TY_BOARD_STATE_ONLINE => true | _ => false end.

(** The boards of the manager that are online, in list order. *)
Definition online (m : ty_board_manager) : list ty_board :=
  List.filter is_online (boards m).

(** The ids of the registered callbacks are distinct and below the next
    id to be handed out. *)
Definition callbacks_ok (m : ty_board_manager) : Prop :=
  Forall (fun cb => cb_id cb < callback_id m) (callbacks m)
  /\ List.NoDup (map cb_id (callbacks m)).

(** A vendor driver that does not recognise any device. *)
Definition declines (v : vendor) : Prop := forall i, fst (v i) = 0.

(** The board as [close_board] leaves it. *)
Definition close_of (b : ty_board) : ty_board :=
  {| board_id := board_id b; location := location b;
     identity := identity b; serial := serial b;
     vid := vid b; pid := pid b; model := model b;
     state := TY_BOARD_STATE_MISSING;
     interfaces := [];
     cap2iface := replicate TY_BOARD_CAPABILITY_COUNT None;
     capabilities := 0;
     missing_since := missing_since b |}.

Definition with_ids (b : ty_board) (v p : Z) : ty_board :=
  {| board_id := board_id b; location := location b;
     identity := identity b; serial := serial b;
     vid := v; pid := p;
     model := model b; state := state b;
     interfaces := interfaces b;
     cap2iface := cap2iface b;
     capabilities := capabilities b;
     missing_since := missing_since b |}.

(** The board [add_interface] keeps for [iface], after the model and the
    serial number of [iface] were copied to it. *)
Definition retain_of (iface : ty_board_interface) (b : ty_board) : ty_board :=
  {| board_id := board_id b; location := location b;
     identity := identity b;
     serial := if iface_serial iface =? 0 then serial b
               else iface_serial iface;
     vid := vid b; pid := pid b;
     model := if model_is_valid (iface_model iface)
              then iface_model iface else model b;
     state := state b; interfaces := interfaces b;
     cap2iface := cap2iface b; capabilities := capabilities b;
     missing_since := missing_since b |}.

(** The board once [add_interface] has attached [iface] to it. *)
Definition attach_of (iface : ty_board_interface) (b : ty_board) : ty_board :=
  {| board_id := board_id b; location := location b;
     identity := identity b; serial := serial b;
     vid := vid b; pid := pid b; model := model b;
     state := TY_BOARD_STATE_ONLINE;
     interfaces := interfaces b ++ [with_board iface (board_id b)];
     cap2iface :=
       route_capabilities (cap2iface b) (with_board iface (board_id b));
     capabilities :=
       Z.lor (capabilities b)
             (iface_capabilities (with_board iface (board_id b)));
     missing_since := missing_since b |}.

(** The board once [remove_interface] has detached [iface] from it and
    routed the capabilities again. *)
Definition detach_of (iface : ty_board_interface) (b : ty_board) : ty_board :=
  {| board_id := board_id b; location := location b;
     identity := identity b; serial := serial b;
     vid := vid b; pid := pid b; model := model b;
     state := state b;
     interfaces := unlink_interface iface (interfaces b);
     cap2iface :=
       foldl route_capabilities
             (replicate TY_BOARD_CAPABILITY_COUNT None)
             (unlink_interface iface (interfaces b));
     capabilities :=
       foldl (fun c i => Z.lor c (iface_capabilities i)) 0
             (unlink_interface iface (interfaces b));
     missing_since := missing_since b |}.

(** The board as [add_missing_board] stamps it. *)
Definition missing_at (now : Z) (b : ty_board) : ty_board :=
  {| board_id := board_id b; location := location b;
     identity := identity b; serial := serial b;
     vid := vid b; pid := pid b; model := model b;
     state := state b; interfaces := interfaces b;
     cap2iface := cap2iface b; capabilities := capabilities b;
     missing_since := now |}.

(** The interface stands for the device [dev]. *)
Definition of_device (dev : ty_device) (i : ty_board_interface) : bool :=
  (dev_addr (iface_dev i) =? dev_addr dev)%N.

(** What [remove_interface] takes for granted about the device it is
    called for: the addresses of the linked boards are distinct, the
    device has one entry in the device table, the board of that entry is
    linked, and the device stands once in the list of interfaces of that
    board. *)
Definition single_entry (m : ty_board_manager) (dev : ty_device) : Prop :=
  List.NoDup (map board_id (boards m))
  /\ forall iface,
       find_interface m dev = Some iface ->
       length (List.filter (of_device dev) (interfaces_table m)) = 1%nat
       /\ exists b,
            In b (boards m) /\ iface_board iface = Some (board_id b)
            /\ length (List.filter (of_device dev) (interfaces b)) = 1%nat.

(** The boards [add_interface] can leave in the manager's list for the
    interface [iface]: a new board, or the board found at the location,
    closed first when the USB ids differ, with [iface] attached. *)
Definition attached_to (m : ty_board_manager) (dev : ty_device)
    (iface : ty_board_interface) (b' : ty_board) : Prop :=
  (exists m1, b' = attach_of iface (snd (add_board m1 iface)))
  \/ (exists b, In b (boards m) /\ board_replaced iface b = false
      /\ (b' = attach_of iface (retain_of iface b)
          \/ b' = attach_of iface
                    (retain_of iface
                       (with_ids (close_of b) (dev_vid dev) (dev_pid dev))))).

(** The board [remove_interface] leaves for the board [b] of the
    interface [iface]. *)
Definition detached_from (now : Z) (iface : ty_board_interface)
    (b b' : ty_board) : Prop :=
  match interfaces (detach_of iface b) with
  | [] => b' = missing_at now (close_of (detach_of iface b))
  | _ :: _ => b' = detach_of iface b
  end.

(** The board [add_interface] makes for [iface] at a location without a
    board. *)
Definition plugged (m : ty_board_manager) (iface : ty_board_interface)
  : ty_board :=
  attach_of iface (snd (add_board m iface)).

(** The identity is the location, ['#'] and the serial number in
    decimal. *)
Definition identity_wf (b : ty_board) : Prop :=
  identity b = location b +:+ "#" +:+ CLib.fmt_u64 (serial b).

(** A linked board is online with an interface, or missing without. *)
Definition state_ok (b : ty_board) : Prop :=
  match state b with
  | TY_BOARD_STATE_ONLINE => interfaces b <> []
  | TY_BOARD_STATE_MISSING => interfaces b = [] /\ capabilities b = 0
  | TY_BOARD_STATE_DROPPED => False
  end.

(** Bit [c] of a capability mask. *)
Definition has_cap (caps : Z) (c : nat) : bool :=
  negb (Z.land caps (Z.shiftl 1 (Z.of_nat c)) =? 0).

(** The interface of [l] attached last among those that have the
    capability [c]. *)
Definition last_with (c : nat) (l : list ty_board_interface)
  : option ty_board_interface :=
  find (fun i => has_cap (iface_capabilities i) c) (rev l).

(** The mask of the board gathers the masks of its interfaces, and every
    capability is routed to the last interface that has it. *)
Definition routing_ok (b : ty_board) : Prop :=
  (forall c, has_cap (capabilities b) c
             = existsb (fun i => has_cap (iface_capabilities i) c)
                       (interfaces b))
  /\ length (cap2iface b) = TY_BOARD_CAPABILITY_COUNT
  /\ forall c, (c < TY_BOARD_CAPABILITY_COUNT)%nat ->
       cap2iface b !! c = Some (last_with c (interfaces b)).

(** One turn of the loop of [route_capabilities]. *)
Definition route_step (iface : ty_board_interface)
    (acc : list (option ty_board_interface)) (i : nat) :=
  if Z.land (iface_capabilities iface) (Z.shiftl 1 (Z.of_nat i)) =? 0
  then acc else <[i := Some iface]> acc.

(** The delay of a missing board has run out at time [now]. *)
Definition expired (now : Z) (b : ty_board) : Prop :=
  ty_adjust_timeout drop_board_delay (missing_since b) now = 0.

(** The missing list holds the addresses of the linked boards that are
    missing, and no other. *)
Definition missing_ok (m : ty_board_manager) : Prop :=
  forall i, In i (missing_boards m)
            <-> exists b, In b (boards m) /\ board_id b = i
                          /\ state b = TY_BOARD_STATE_MISSING.

(** The list after the board at address [i] was written back as [fb]. *)
Definition stored (i : nat) (fb : ty_board) (l : list ty_board)
  : list ty_board :=
  map (fun x => if (board_id x =? i)%nat then fb else x) l.

(** A manager with an online board and a missing one. *)
Definition two_boards : ty_board_manager :=
  set_boards Sample.empty_manager [Sample.board 8 None; Sample.board_1234].

End BoardStatements.

(** ** Vocabulary of the statements about the pool *)

Module PoolStatements.
Import Task TaskStatements.

(** The world after [run_task] has run the task [t], found as [x]. *)
Definition ran (w : world) (t : nat) (x : ty_task) : world :=
  {| tasks := <[t := finished x]> (tasks w); pool := pool w;
     held := held w;
     current_task := current_task w; next_task := next_task w;
     log := log w ++ run_events t x |}.

(** The number of threads [ty_pool_set_max_threads] starts when no spawn
    fails: one per pending task, as long as the new limit allows. *)
Definition threads_to_start (p : ty_pool) (max : Z) : Z :=
  if max_threads p <? max
  then Z.min (Z.of_nat (length (pending_tasks p)))
             (Z.max 0 (max - started p))
  else 0.

(** The pool with the limit [max] and [k] more threads, all busy. *)
Definition grown (p : ty_pool) (max k : Z) : ty_pool :=
  {| unused_timeout := unused_timeout p; max_threads := max;
     started := started p + k; busy := busy p + k;
     pending_tasks := pending_tasks p; init := init p |}.



(** A task that was created and started, and the worker started for it
    has come to the queue. *)
Definition acts_worker_idle : list action :=
  [ANew "job" 5 true false false; AStart 0 0; AWorkerEnter].

(** A task that was just created. *)
Definition acts_created : list action :=
  [ANew "job" 5 true false false].

End PoolStatements.

(** ** Firmware signature scan *)

Module FirmwareFacts.
Import Board.

Lemma test_firmware_short R f :
  size f < magic_size -> ty_board_test_firmware R f = None.
Proof.
  intros H. unfold ty_board_test_firmware.
  destruct (Z.ltb_spec (size f) magic_size); [reflexivity | lia].
Qed.

(** The scan returns the model of the first matching signature at the
    first offset, among the [steps] offsets starting at [i], that has a
    match. *)
Lemma scan_image_first_hit sigs img steps : forall i m,
  scan_image sigs img i steps = Some m <->
  exists k, (k < steps)%nat
            /\ match_signature (drop (i + k) img) sigs = Some m
            /\ forall j, (j < k)%nat ->
                 match_signature (drop (i + j) img) sigs = None.
Proof.
  induction steps as [|n IH]; intros i m; simpl.
  - split; [discriminate | intros (k & Hk & _); lia].
  - destruct (match_signature (drop i img) sigs) as [m0|] eqn:E.
    + split.
      * intros [= <-]. exists O. rewrite Nat.add_0_r.
        repeat split; [lia | assumption | intros j Hj; lia].
      * intros (k & Hk & Hm & Hfirst). destruct k as [|k].
        -- rewrite Nat.add_0_r in Hm. congruence.
        -- specialize (Hfirst O ltac:(lia)). rewrite Nat.add_0_r in Hfirst.
           congruence.
    + rewrite IH. split.
      * intros (k & Hk & Hm & Hfirst). exists (S k).
        replace (i + S k)%nat with (S i + k)%nat by lia.
        repeat split; [lia | assumption |].
        intros [|j] Hj.
        -- rewrite Nat.add_0_r. assumption.
        -- replace (i + S j)%nat with (S i + j)%nat by lia.
           apply Hfirst. lia.
      * intros (k & Hk & Hm & Hfirst). destruct k as [|k].
        -- rewrite Nat.add_0_r in Hm. congruence.
        -- exists k. replace (S i + k)%nat with (i + S k)%nat by lia.
           repeat split; [lia | assumption |].
           intros j Hj. replace (S i + j)%nat with (i + S j)%nat by lia.
           apply Hfirst. lia.
Qed.

(** Only the offsets [0 .. size - 9] are examined: a hit reported by
    [ty_board_test_firmware] lies strictly before [size - 8]. *)
Lemma test_firmware_hit_offset R f m :
  ty_board_test_firmware R f = Some m ->
  exists k, Z.of_nat k < size f - magic_size
            /\ match_signature (drop k (image f)) (signatures R) = Some m
            /\ forall j, (j < k)%nat ->
                 match_signature (drop j (image f)) (signatures R) = None.
Proof.
  unfold ty_board_test_firmware.
  destruct (Z.ltb_spec (size f) magic_size); [discriminate |].
  intros Hs. apply scan_image_first_hit in Hs.
  destruct Hs as (k & Hk & Hm & Hfirst). exists k.
  repeat split; [lia | exact Hm | exact Hfirst].
Qed.

(** Scenario of the specification: the Teensy 2.0 signature at offset 12
    of a longer image is found. *)
Example test_firmware_offset_12 R :
  ty_board_test_firmware R
    {| image := replicate 12 0xFF ++ Sample.teensy_20_magic ++ [0xFF] |}
  = Some (_ty_teensy_20_model R).
Proof. reflexivity. Qed.

(** C2: an image that consists of exactly the eight bytes of a signature
    (here the one of the Teensy 2.0) is not detected: the loop runs while
    [i < size - 8], so the window at offset [size - 8] is never compared
    and the result is null. *)
Theorem test_firmware_misses_last_window R :
  size {| image := Sample.teensy_20_magic |} = magic_size
  /\ match_signature Sample.teensy_20_magic (signatures R)
     = Some (_ty_teensy_20_model R)
  /\ ty_board_test_firmware R {| image := Sample.teensy_20_magic |} = None.
Proof. repeat split. Qed.

(** Whatever stands in the last window is not looked at: an image none
    of whose windows before the last one matches is not recognised. *)
Lemma test_firmware_skips_last_window R pre w :
  length w = 8%nat ->
  (forall k, (k < length pre)%nat ->
     match_signature (drop k (pre ++ w)) (signatures R) = None) ->
  ty_board_test_firmware R {| image := pre ++ w |} = None.
Proof.
  intros Hw Hpre.
  destruct (ty_board_test_firmware R {| image := pre ++ w |}) as [m|] eqn:E;
    [| reflexivity].
  apply test_firmware_hit_offset in E. destruct E as (k & Hk & Hm & _).
  unfold size, magic_size in Hk. cbn [image] in Hk, Hm.
  rewrite length_app, Hw in Hk.
  rewrite Hpre in Hm by lia. discriminate.
Qed.

(** More generally no image of exactly eight bytes is ever recognised. *)
Lemma test_firmware_eight_bytes R f :
  size f = magic_size -> ty_board_test_firmware R f = None.
Proof.
  intros H. unfold ty_board_test_firmware. rewrite H. reflexivity.
Qed.

End FirmwareFacts.

(** ** Capability facades *)

Module FacadeFacts.
Import Board Statements.

(** C10: with [size == 0] and a serial interface, the bytes handed to the
    interface's [serial_write] are those of [buf] up to its terminating
    NUL: the size passed on is [strlen(buf)], and this is the only vtable
    call. *)
Theorem serial_write_size_zero_uses_strlen board buf iface :
  ty_board_get_interface board TY_BOARD_CAPABILITY_SERIAL = Some iface ->
  ty_board_serial_write board buf 0
  = (vt_serial_write (iface_vtable_of iface) buf (CLib.strlen buf),
     [CallSerialWrite (dev_addr (iface_dev iface)) buf (CLib.strlen buf)]).
Proof.
  intros H. unfold ty_board_serial_write. rewrite H. reflexivity.
Qed.

(** "hi" followed by its NUL and by stale bytes: two bytes are written. *)
Lemma serial_write_size_zero_uses_strlen_witness :
  ty_board_serial_write (Sample.board 8 None) [104; 105; 0; 33] 0
  = (2, [CallSerialWrite 7 [104; 105; 0; 33] 2]).
Proof.
  exact (serial_write_size_zero_uses_strlen
           (Sample.board 8 None) [104; 105; 0; 33]
           (Sample.interface 8 None) eq_refl).
Defined.

(** A non-zero [size] is passed on as it is. *)
Lemma serial_write_size_given board buf size iface :
  ty_board_get_interface board TY_BOARD_CAPABILITY_SERIAL = Some iface ->
  size <> 0 ->
  ty_board_serial_write board buf size
  = (vt_serial_write (iface_vtable_of iface) buf size,
     [CallSerialWrite (dev_addr (iface_dev iface)) buf size]).
Proof.
  intros H Hs. unfold ty_board_serial_write. rewrite H.
  destruct (Z.eqb_spec size 0); [contradiction | reflexivity].
Qed.

Lemma serial_write_no_interface board buf size :
  ty_board_get_interface board TY_BOARD_CAPABILITY_SERIAL = None ->
  ty_board_serial_write board buf size = (ty_error TY_ERROR_MODE, []).
Proof. intros H. unfold ty_board_serial_write. now rewrite H. Qed.

(** C6, counterexample: a board whose model object has no code size (an
    unidentified model) and a one-byte firmware.  The size exceeds the
    code size, yet the result is the mode error of the model check that
    precedes the size check, not a range error. *)
Lemma upload_unknown_model_is_mode_error :
  let board := Sample.board 1 (Some Sample.unknown_model) in
  let f := {| image := [0] |} in
  ty_board_get_interface board TY_BOARD_CAPABILITY_UPLOAD
  = Some (Sample.interface 1 (Some Sample.unknown_model))
  /\ code_size Sample.unknown_model < size f
  /\ ty_board_upload Sample.registry board f 0 = (ty_error TY_ERROR_MODE, [])
  /\ ty_error TY_ERROR_MODE <> ty_error TY_ERROR_RANGE
  /\ ~ oversize_gives_range.
Proof.
  cbv zeta. repeat split; try discriminate.
  intros H.
  specialize (H Sample.registry (Sample.board 1 (Some Sample.unknown_model))
                {| image := [0] |} 0
                (Sample.interface 1 (Some Sample.unknown_model))
                Sample.unknown_model eq_refl eq_refl eq_refl).
  discriminate H.
Qed.

(** C6, amended: [ty_board_upload] goes through its checks in this order
    and delegates to the interface only when all pass: mode error without
    the upload capability; mode error when the board's model is not valid
    (null or without code size); range error when the firmware is larger
    than the valid model's code size; unless [nocheck] is set, firmware
    error when [ty_board_test_firmware] finds no model or one that is not
    the board's.  Every refusal leaves the vtable untouched. *)
Theorem upload_checks R board f flags :
  (ty_board_get_interface board TY_BOARD_CAPABILITY_UPLOAD = None ->
   ty_board_upload R board f flags = (ty_error TY_ERROR_MODE, []))
  /\ (forall iface,
      ty_board_get_interface board TY_BOARD_CAPABILITY_UPLOAD = Some iface ->
      (model_is_valid (model board) = false ->
       ty_board_upload R board f flags = (ty_error TY_ERROR_MODE, []))
      /\ (forall md,
          model board = Some md -> code_size md <> 0 ->
          (code_size md < size f ->
           ty_board_upload R board f flags = (ty_error TY_ERROR_RANGE, []))
          /\ (size f <= code_size md ->
              Z.land flags TY_BOARD_UPLOAD_NOCHECK = 0 ->
              ty_board_test_firmware R f = None ->
              ty_board_upload R board f flags
              = (ty_error TY_ERROR_FIRMWARE, []))
          /\ (forall guess,
              size f <= code_size md ->
              Z.land flags TY_BOARD_UPLOAD_NOCHECK = 0 ->
              ty_board_test_firmware R f = Some guess ->
              model_addr guess <> model_addr md ->
              ty_board_upload R board f flags
              = (ty_error TY_ERROR_FIRMWARE, []))
          /\ (size f <= code_size md ->
              Z.land flags TY_BOARD_UPLOAD_NOCHECK <> 0
              \/ (exists guess, ty_board_test_firmware R f = Some guess
                                /\ model_addr guess = model_addr md) ->
              ty_board_upload R board f flags = delegated iface f flags)))
  /\ (snd (ty_board_upload R board f flags) <> [] ->
      exists iface md,
        ty_board_get_interface board TY_BOARD_CAPABILITY_UPLOAD = Some iface
        /\ model board = Some md /\ code_size md <> 0
        /\ size f <= code_size md
        /\ (Z.land flags TY_BOARD_UPLOAD_NOCHECK <> 0
            \/ exists guess, ty_board_test_firmware R f = Some guess
                             /\ model_addr guess = model_addr md)
        /\ ty_board_upload R board f flags = delegated iface f flags).
Proof.
  unfold ty_board_upload, delegated.
  destruct (ty_board_get_interface board TY_BOARD_CAPABILITY_UPLOAD)
    as [iface|] eqn:Hi.
  2:{ repeat split; try discriminate. simpl. congruence. }
  split; [discriminate |]. split.
  - intros iface' [= <-]. split.
    + intros ->. reflexivity.
    + intros md Hmd Hcs. rewrite Hmd. simpl.
      destruct (Z.eqb_spec (code_size md) 0); [contradiction |]. simpl.
      repeat split.
      * intros Hlt. destruct (Z.ltb_spec (code_size md) (size f)); [easy | lia].
      * intros Hle Hfl Hg.
        destruct (Z.ltb_spec (code_size md) (size f)); [lia |].
        rewrite Hfl, Hg. reflexivity.
      * intros guess Hle Hfl Hg Hne.
        destruct (Z.ltb_spec (code_size md) (size f)); [lia |].
        rewrite Hfl, Hg. simpl.
        destruct (N.eqb_spec (model_addr guess) (model_addr md));
          [contradiction | reflexivity].
      * intros Hle Hok.
        destruct (Z.ltb_spec (code_size md) (size f)); [lia |].
        destruct (Z.eqb_spec (Z.land flags TY_BOARD_UPLOAD_NOCHECK) 0)
          as [Hz|Hz]; [| reflexivity].
        destruct Hok as [Hnz | (guess & Hg & Ha)]; [contradiction |].
        rewrite Hg. simpl. rewrite Ha, N.eqb_refl. reflexivity.
  - destruct (model board) as [md|] eqn:Hmd; simpl; [| congruence].
    destruct (Z.eqb_spec (code_size md) 0); simpl; [congruence |].
    destruct (Z.ltb_spec (code_size md) (size f)); simpl; [congruence |].
    destruct (Z.eqb_spec (Z.land flags TY_BOARD_UPLOAD_NOCHECK) 0)
      as [Hz|Hz].
    + destruct (ty_board_test_firmware R f) as [guess|] eqn:Hg;
        simpl; [| congruence].
      destruct (N.eqb_spec (model_addr guess) (model_addr md));
        simpl; [| congruence].
      intros _. exists iface, md. repeat split; try assumption.
      right. exists guess. split; [reflexivity | assumption].
    + intros _. exists iface, md. repeat split; try assumption.
      left. assumption.
Qed.

(** Scenario of the specification: an image carrying the Teensy 2.0
    signature at offset 12 is refused by a Teensy 3.1 board with the
    firmware error, and nothing is transferred. *)
Lemma upload_checks_witness :
  ty_board_upload Sample.registry
    (Sample.board 1 (Some (_ty_teensy_31_model Sample.registry)))
    {| image := replicate 12 0xFF ++ Sample.teensy_20_magic ++ [0xFF] |} 0
  = (ty_error TY_ERROR_FIRMWARE, []).
Proof.
  destruct (upload_checks Sample.registry
              (Sample.board 1 (Some (_ty_teensy_31_model Sample.registry)))
              {| image := replicate 12 0xFF ++ Sample.teensy_20_magic
                          ++ [0xFF] |} 0) as (_ & H & _).
  destruct (H (Sample.interface 1 (Some (_ty_teensy_31_model Sample.registry)))
              eq_refl) as (_ & H2).
  destruct (H2 (_ty_teensy_31_model Sample.registry) eq_refl)
    as (_ & _ & H3 & _); [discriminate |].
  apply (H3 (_ty_teensy_20_model Sample.registry));
    [discriminate | reflexivity | reflexivity | discriminate].
Defined.

End FacadeFacts.

(** ** Callback delivery *)

Module CallbackFacts.
Import Board Statements.

(** Registration appends with the next identifier, so list order is
    registration order. *)
Lemma register_callback_appends m fn :
  ty_board_manager_register_callback m fn
  = (callback_id m,
     set_callbacks
       {| callbacks := callbacks m; callback_id := callback_id m + 1;
          boards := boards m; missing_boards := missing_boards m;
          interfaces_table := interfaces_table m; timer := timer m;
          next_board := next_board m |}
       (callbacks m ++ [{| cb_id := callback_id m; cb_f := fn |}])).
Proof. reflexivity. Qed.

Lemma trigger_loop_all_nonnegative board event cbs :
  Forall (fun c => 0 <= cb_f c board event) cbs ->
  trigger_loop cbs board event
  = (0, returned_zero board event cbs, map (call_of board event) cbs).
Proof.
  induction 1 as [|c cbs Hc _ IH]; simpl; [reflexivity |].
  destruct (Z.ltb_spec (cb_f c board event) 0); [lia |].
  rewrite IH. unfold call_of at 2.
  destruct (cb_f c board event =? 0); reflexivity.
Qed.

Lemma trigger_loop_first_negative board event pre cb post :
  Forall (fun c => 0 <= cb_f c board event) pre ->
  cb_f cb board event < 0 ->
  trigger_loop (pre ++ cb :: post) board event
  = (cb_f cb board event,
     returned_zero board event pre ++ cb :: post,
     map (call_of board event) (pre ++ [cb])).
Proof.
  intros Hpre Hneg. induction Hpre as [|c pre Hc _ IH]; simpl.
  - destruct (Z.ltb_spec (cb_f cb board event) 0); [reflexivity | lia].
  - destruct (Z.ltb_spec (cb_f c board event) 0); [lia |].
    rewrite IH. unfold call_of at 2.
    destruct (cb_f c board event =? 0); reflexivity.
Qed.

(** C3, counterexample: a single registered callback that returns -1.
    It returns a non-zero value and is still registered afterwards: the
    negative result leaves the loop before the removal. *)
Lemma negative_return_keeps_callback :
  let m := Sample.manager_with [Sample.cb_fail 0] in
  let board := Sample.board 8 None in
  trigger_callbacks m board TY_BOARD_EVENT_CHANGED
  = (-1, m, [call_of board TY_BOARD_EVENT_CHANGED (Sample.cb_fail 0)])
  /\ ~ nonzero_return_removed.
Proof.
  cbv zeta. split; [reflexivity |].
  intros H.
  apply (H (Sample.manager_with [Sample.cb_fail 0]) (Sample.board 8 None)
           TY_BOARD_EVENT_CHANGED (Sample.cb_fail 0)).
  - left. reflexivity.
  - left. reflexivity.
  - discriminate.
  - left. reflexivity.
Qed.

(** C3, amended: callbacks are invoked in list (registration) order.  As
    long as the results are not negative, delivery goes on, and at the
    end exactly the callbacks that returned a positive value have been
    removed, with result 0.  The first negative result ends the delivery
    with that value: the callbacks after it are not invoked, and it stays
    registered, as do they; callbacks before it that returned a positive
    value are removed. *)
Theorem trigger_callbacks_delivery m board event :
  (Forall (fun c => 0 <= cb_f c board event) (callbacks m) ->
   trigger_callbacks m board event
   = (0, set_callbacks m (returned_zero board event (callbacks m)),
      map (call_of board event) (callbacks m)))
  /\ (forall pre cb post,
      callbacks m = pre ++ cb :: post ->
      Forall (fun c => 0 <= cb_f c board event) pre ->
      cb_f cb board event < 0 ->
      trigger_callbacks m board event
      = (cb_f cb board event,
         set_callbacks m (returned_zero board event pre ++ cb :: post),
         map (call_of board event) (pre ++ [cb]))).
Proof.
  unfold trigger_callbacks. split.
  - intros H. rewrite (trigger_loop_all_nonnegative _ _ _ H). reflexivity.
  - intros pre cb post -> Hpre Hneg.
    rewrite (trigger_loop_first_negative _ _ _ _ _ Hpre Hneg). reflexivity.
Qed.

(** Four callbacks, the third of which fails: the second is removed, the
    third and fourth stay, the fourth is not called. *)
Lemma trigger_callbacks_delivery_witness :
  let cbs := [Sample.cb_stay 0; Sample.cb_once 1; Sample.cb_fail 2;
              Sample.cb_once 3] in
  let board := Sample.board 8 None in
  trigger_callbacks (Sample.manager_with cbs) board TY_BOARD_EVENT_ADDED
  = (-1,
     set_callbacks (Sample.manager_with cbs)
       [Sample.cb_stay 0; Sample.cb_fail 2; Sample.cb_once 3],
     map (call_of board TY_BOARD_EVENT_ADDED)
         [Sample.cb_stay 0; Sample.cb_once 1; Sample.cb_fail 2]).
Proof.
  cbv zeta.
  refine (proj2 (trigger_callbacks_delivery
                   (Sample.manager_with
                      [Sample.cb_stay 0; Sample.cb_once 1; Sample.cb_fail 2;
                       Sample.cb_once 3])
                   (Sample.board 8 None) TY_BOARD_EVENT_ADDED)
                [Sample.cb_stay 0; Sample.cb_once 1] (Sample.cb_fail 2)
                [Sample.cb_once 3] eq_refl _ _).
  - repeat constructor; simpl; lia.
  - simpl. lia.
Defined.

End CallbackFacts.

(** ** Identity matching *)

Module IdentityFacts.
Import CLib Board Statements.

Lemma strchr_append loc c text :
  strchr loc c = None -> strchr (loc +:+ String c text) c = Some (String.length loc).
Proof.
  induction loc as [|a loc IH]; simpl.
  - intros _. now rewrite Ascii.eqb_refl.
  - destruct (Ascii.eqb a c); [discriminate |].
    destruct (strchr loc c) eqn:E; [discriminate |].
    intros _. rewrite IH by reflexivity. reflexivity.
Qed.

Lemma strchr_none_append_none a b c :
  strchr a c = None -> strchr b c = None -> strchr (a +:+ b) c = None.
Proof.
  induction a as [|x a IH]; simpl; [easy |].
  destruct (Ascii.eqb x c); [discriminate |].
  destruct (strchr a c) eqn:E; [discriminate |].
  intros _ Hb. now rewrite IH.
Qed.

Lemma substring_prefix loc rest :
  substring 0 (String.length loc) (loc +:+ rest) = loc.
Proof.
  induction loc as [|a loc IH]; simpl.
  - destruct rest; reflexivity.
  - now rewrite IH.
Qed.

Lemma substring_all s : substring 0 (String.length s) s = s.
Proof. induction s; simpl; congruence. Qed.

Lemma substring_after loc c text :
  substring (S (String.length loc))
            (String.length (loc +:+ String c text) - S (String.length loc))
            (loc +:+ String c text) = text.
Proof.
  induction loc as [|a loc IH]; simpl.
  - rewrite Nat.sub_0_r. apply substring_all.
  - simpl in IH. exact IH.
Qed.

Lemma parse_identity_no_hash loc :
  strchr loc "#" = None -> parse_identity loc = inr (Some loc, 0).
Proof. intros H. unfold parse_identity. rewrite H. reflexivity. Qed.

Lemma parse_identity_hash loc text :
  strchr loc "#" = None ->
  parse_identity (loc +:+ String "#" text)
  = if bool_decide (snd (strtoull text) = O)
       || negb (bool_decide (snd (strtoull text) = String.length text))
    then inl TY_ERROR_PARAM
    else inr (if bool_decide (loc = "") then None else Some loc,
              fst (strtoull text)).
Proof.
  intros H. unfold parse_identity.
  rewrite (strchr_append _ _ text H), substring_after.
  destruct (strtoull text) as [v n]. simpl.
  destruct (bool_decide (n = O) || negb (bool_decide (n = String.length text)));
    [reflexivity |].
  destruct loc as [|a loc]; [reflexivity |].
  rewrite bool_decide_eq_false_2 by discriminate.
  change (S (String.length loc)) with (String.length (String a loc)).
  rewrite substring_prefix. reflexivity.
Qed.

Lemma digit_not_space c : is_Some (digit_value c) -> isspace c = false.
Proof.
  unfold digit_value, isspace. intros [d H].
  destruct (Z.leb_spec 48 (Z.of_nat (nat_of_ascii c)));
    destruct (Z.leb_spec (Z.of_nat (nat_of_ascii c)) 57);
    simpl in H; try discriminate.
  destruct (Nat.eqb_spec (nat_of_ascii c) 32); [lia |].
  destruct (Nat.leb_spec 9 (nat_of_ascii c));
    destruct (Nat.leb_spec (nat_of_ascii c) 13); simpl; try reflexivity; lia.
Qed.

Lemma digit_value_range c d : digit_value c = Some d -> 0 <= d <= 9.
Proof.
  unfold digit_value.
  destruct (Z.leb_spec 48 (Z.of_nat (nat_of_ascii c)));
    destruct (Z.leb_spec (Z.of_nat (nat_of_ascii c)) 57);
    simpl; intros [= <-]; lia.
Qed.

Lemma strip_sign_digit c r :
  is_Some (digit_value c) -> strip_sign (String c r) = (false, O, String c r).
Proof.
  intros [d H].
  destruct c as [[] [] [] [] [] [] [] []]; try reflexivity;
    vm_compute in H; discriminate.
Qed.

Lemma fold_digits_ge l : forall acc,
  0 <= acc -> Forall (fun c => is_Some (digit_value c)) l ->
  acc <= fold_left digit_step l acc.
Proof.
  induction l as [|c l IH]; simpl; intros acc Hacc Hl; [lia |].
  inversion Hl as [|? ? [d Hd] Hl']; subst.
  pose proof (digit_value_range _ _ Hd).
  etransitivity; [| apply IH; [| assumption]];
    unfold digit_step; rewrite Hd; simpl; lia.
Qed.

Lemma scan_digits_saturated s : forall n,
  all_digits s ->
  scan_digits s ULLONG_MAX true n = (ULLONG_MAX, true, (n + String.length s)%nat).
Proof.
  unfold all_digits.
  induction s as [|c s IH]; simpl; intros n Hs.
  - f_equal. lia.
  - inversion Hs as [|? ? [d Hd] Hs']; subst. rewrite Hd.
    pose proof (digit_value_range _ _ Hd).
    destruct (Z.ltb_spec ULLONG_MAX (ULLONG_MAX * 10 + d)).
    + rewrite IH by assumption. f_equal. lia.
    + unfold ULLONG_MAX in *. lia.
Qed.

Lemma scan_digits_all s : forall acc n,
  all_digits s -> 0 <= acc <= ULLONG_MAX ->
  scan_digits s acc false n
  = (Z.min (fold_left digit_step (list_ascii_of_string s) acc) ULLONG_MAX,
     ULLONG_MAX <? fold_left digit_step (list_ascii_of_string s) acc,
     (n + String.length s)%nat).
Proof.
  unfold all_digits.
  induction s as [|c s IH]; simpl; intros acc n Hs Hacc.
  - destruct (Z.ltb_spec ULLONG_MAX acc); [lia |].
    rewrite Z.min_l by lia. f_equal. lia.
  - inversion Hs as [|? ? [d Hd] Hs']; subst. rewrite Hd.
    pose proof (digit_value_range _ _ Hd).
    assert (Hstep : digit_step acc c = acc * 10 + d)
      by (unfold digit_step; now rewrite Hd).
    rewrite Hstep.
    destruct (Z.ltb_spec ULLONG_MAX (acc * 10 + d)) as [Hov|Hok].
    + rewrite scan_digits_saturated by assumption.
      pose proof (fold_digits_ge (list_ascii_of_string s) (acc * 10 + d)
                    ltac:(lia) Hs').
      rewrite Z.min_r by lia.
      destruct (Z.ltb_spec ULLONG_MAX
                  (fold_left digit_step (list_ascii_of_string s) (acc * 10 + d)));
        [| lia].
      f_equal. lia.
    + rewrite IH by (try assumption; lia). f_equal. lia.
Qed.

(** On a non-empty string of digits [strtoull] reads all of it and
    returns its value, or [ULLONG_MAX] when the value is larger. *)
Lemma strtoull_digits s :
  all_digits s -> s <> "" ->
  strtoull s = (Z.min (decimal_value s) ULLONG_MAX, String.length s).
Proof.
  intros Hs Hne. destruct s as [|c s]; [contradiction |].
  assert (Hc : is_Some (digit_value c)) by (inversion Hs; assumption).
  unfold strtoull.
  cbn [skip_spaces]. rewrite (digit_not_space _ Hc).
  rewrite (strip_sign_digit _ _ Hc).
  rewrite (scan_digits_all (String c s) 0 0 Hs) by (unfold ULLONG_MAX; lia).
  change (0 + String.length (String c s))%nat with (S (String.length s)).
  cbv iota beta.
  fold digit_step. unfold decimal_value. fold digit_step.
  destruct (Z.ltb_spec ULLONG_MAX
              (fold_left digit_step (list_ascii_of_string (String c s)) 0)).
  - rewrite Z.min_r by lia. reflexivity.
  - reflexivity.
Qed.

Lemma empty_serial_rejected : ~ serial_accepted "".
Proof. intros [H _]. apply H. reflexivity. Qed.

Lemma digits_serial_accepted s :
  all_digits s -> s <> "" ->
  serial_accepted s /\ fst (strtoull s) = Z.min (decimal_value s) ULLONG_MAX.
Proof.
  intros Hs Hne. unfold serial_accepted. rewrite (strtoull_digits s Hs Hne).
  simpl. repeat split. destruct s; [contradiction | discriminate].
Qed.

Lemma serial_accepted_dec text :
  serial_accepted text <->
  (bool_decide (snd (strtoull text) = O)
   || negb (bool_decide (snd (strtoull text) = String.length text))) = false.
Proof.
  unfold serial_accepted. rewrite orb_false_iff, negb_false_iff.
  rewrite bool_decide_eq_false, bool_decide_eq_true. reflexivity.
Qed.

(** [ty_board_matches_identity] in terms of what [strtoull] returns for
    the text after the ['#']. *)
Lemma matches_identity_by_strtoull board :
  ty_board_matches_identity board None = 1
  /\ ty_board_matches_identity board (Some "") = 1
  /\ (forall loc,
      loc <> "" -> strchr loc "#" = None ->
      (loc = location board ->
       ty_board_matches_identity board (Some loc) = 1)
      /\ (loc <> location board ->
          ty_board_matches_identity board (Some loc) = 0))
  /\ (forall loc text,
      strchr loc "#" = None ->
      (~ serial_accepted text ->
       ty_board_matches_identity board (Some (loc +:+ String "#" text))
       = ty_error TY_ERROR_PARAM)
      /\ (serial_accepted text ->
          ((loc = "" \/ loc = location board)
           /\ (fst (strtoull text) = 0
               \/ fst (strtoull text) = serial board) ->
           ty_board_matches_identity board (Some (loc +:+ String "#" text))
           = 1)
          /\ (~ ((loc = "" \/ loc = location board)
                 /\ (fst (strtoull text) = 0
                     \/ fst (strtoull text) = serial board)) ->
              ty_board_matches_identity board
                (Some (loc +:+ String "#" text)) = 0))).
Proof.
  split; [reflexivity |]. split; [reflexivity |]. split.
  - intros loc Hne Hhash.
    assert (E : ty_board_matches_identity board (Some loc)
                = if String.eqb loc (location board) then 1 else 0).
    { unfold ty_board_matches_identity.
      destruct loc as [|a loc]; [contradiction |].
      rewrite (parse_identity_no_hash _ Hhash).
      destruct (String.eqb (String a loc) (location board)); reflexivity. }
    rewrite E. split; intros H.
    + subst. now rewrite String.eqb_refl.
    + apply String.eqb_neq in H. now rewrite H.
  - intros loc text Hhash.
    assert (E : ty_board_matches_identity board
                  (Some (loc +:+ String "#" text))
                = match parse_identity (loc +:+ String "#" text) with
                  | inl e => ty_error e
                  | inr (l, ser) =>
                      if match l with
                         | Some l => negb (String.eqb l (location board))
                         | None => false
                         end
                      then 0
                      else if negb (ser =? 0) && negb (ser =? serial board)
                           then 0 else 1
                  end).
    { unfold ty_board_matches_identity.
      destruct loc; reflexivity. }
    rewrite E, (parse_identity_hash _ _ Hhash). clear E.
    split.
    + intros Hbad. rewrite serial_accepted_dec in Hbad.
      apply not_false_is_true in Hbad. rewrite Hbad. reflexivity.
    + intros Hok. apply serial_accepted_dec in Hok. rewrite Hok.
      set (v := fst (strtoull text)).
      split.
      * intros [[-> | ->] Hv].
        -- simpl.
           destruct Hv as [-> | ->]; simpl; [reflexivity |].
           rewrite Z.eqb_refl. now rewrite andb_false_r.
        -- destruct (bool_decide (location board = "")); simpl;
             rewrite ?String.eqb_refl; simpl;
             (destruct Hv as [-> | ->]; simpl; [reflexivity |];
              rewrite Z.eqb_refl; now rewrite andb_false_r).
      * intros Hno.
        destruct (bool_decide (loc = "")) eqn:Hl.
        -- apply bool_decide_eq_true in Hl.
           destruct (Z.eqb_spec v 0); [tauto |].
           destruct (Z.eqb_spec v (serial board)); [tauto |]. reflexivity.
        -- destruct (String.eqb_spec loc (location board)); simpl;
             [| reflexivity].
           destruct (Z.eqb_spec v 0); [tauto |].
           destruct (Z.eqb_spec v (serial board)); [tauto |]. reflexivity.
Qed.

Lemma length_append (a b : string) :
  String.length (a +:+ b) = (String.length a + String.length b)%nat.
Proof.
  induction a as [|c a IH]; [reflexivity |].
  change (S (String.length (a +:+ b))
          = S (String.length a + String.length b)).
  now rewrite IH.
Qed.

Lemma append_nil_r (a : string) : a +:+ "" = a.
Proof.
  induction a as [|c a IH]; [reflexivity |].
  change (String c (a +:+ "") = String c a). now rewrite IH.
Qed.

Lemma length_zero_empty (a : string) : String.length a = O -> a = "".
Proof. destruct a; [reflexivity | discriminate]. Qed.

(** [skip_spaces] takes a prefix of white space off. *)
Lemma skip_spaces_spec s :
  exists sp,
    s = sp +:+ snd (skip_spaces s) /\ all_spaces sp
    /\ fst (skip_spaces s) = String.length sp.
Proof.
  induction s as [|c s (sp & Hs & Hsp & Hn)].
  - exists "". repeat split. constructor.
  - cbn [skip_spaces]. destruct (isspace c) eqn:Hc.
    + destruct (skip_spaces s) as [n r]. cbn [fst snd] in *.
      exists (String c sp). split.
      * change (String c s = String c (sp +:+ r)). now rewrite <- Hs.
      * split; [now constructor |].
        change (S n = S (String.length sp)). now rewrite Hn.
    + exists "". repeat split. constructor.
Qed.

Lemma skip_spaces_app sp rest :
  all_spaces sp ->
  (forall c r, rest = String c r -> isspace c = false) ->
  skip_spaces (sp +:+ rest) = (String.length sp, rest).
Proof.
  unfold all_spaces. intros Hsp Hrest.
  induction sp as [|c sp IH].
  - change ("" +:+ rest) with rest.
    destruct rest as [|c r]; [reflexivity |].
    cbn [skip_spaces]. now rewrite (Hrest c r eq_refl).
  - apply Forall_cons in Hsp as [Hc Hsp].
    change (String c sp +:+ rest) with (String c (sp +:+ rest)).
    cbn [skip_spaces]. rewrite Hc, (IH Hsp). reflexivity.
Qed.

(** [strip_sign] takes an optional sign off. *)
Lemma strip_sign_spec s :
  exists sg,
    s = sign_text sg +:+ snd (strip_sign s)
    /\ snd (fst (strip_sign s)) = String.length (sign_text sg)
    /\ fst (fst (strip_sign s)) = match sg with Minus => true | _ => false end.
Proof.
  destruct s as [|c s]; [exists NoSign; repeat split |].
  destruct c as [[] [] [] [] [] [] [] []];
    try (exists NoSign; repeat split; fail).
  - exists Plus. repeat split.
  - exists Minus. repeat split.
Qed.

(** [scan_digits] reads a prefix of digits. *)
Lemma scan_digits_spec s : forall acc ovf n,
  exists ds rest,
    s = ds +:+ rest /\ all_digits ds
    /\ snd (scan_digits s acc ovf n) = (n + String.length ds)%nat.
Proof.
  induction s as [|c s IH]; intros acc ovf n.
  - exists "", "". repeat split; [constructor | cbn; lia].
  - cbn [scan_digits]. destruct (digit_value c) as [d|] eqn:Hd.
    + destruct (ULLONG_MAX <? acc * 10 + d);
        match goal with |- context [scan_digits s ?a ?o ?m] =>
          destruct (IH a o m) as (ds & rest & Hs & Hds & Hn) end;
        exists (String c ds), rest;
        (split; [change (String c s = String c (ds +:+ rest));
                 now rewrite <- Hs |]);
        (split; [constructor; [now exists d | exact Hds] |]);
        rewrite Hn; cbn [String.length]; lia.
    + exists "", (String c s). repeat split; [constructor | cbn; lia].
Qed.

(** A text that [strtoull] reads to its end is white space, an optional
    sign and digits. *)
Lemma serial_accepted_syntax text :
  serial_accepted text -> exists sp sg ds, serial_syntax text sp sg ds.
Proof.
  unfold serial_accepted, strtoull.
  destruct (skip_spaces_spec text) as (sp & Htext & Hsp & Hnsp).
  destruct (skip_spaces text) as [nsp s1]. cbn [fst snd] in Htext, Hnsp.
  destruct (strip_sign_spec s1) as (sg & Hs1 & Hnsign & _).
  destruct (strip_sign s1) as [[neg nsign] s2]. cbn [fst snd] in Hs1, Hnsign.
  destruct (scan_digits_spec s2 0 false 0) as (ds & rest & Hs2 & Hds & Hnd).
  destruct (scan_digits s2 0 false 0) as [[v ovf] nd]. cbn [snd] in Hnd.
  destruct nd as [|nd]; cbn [snd]; intros [Hne Hall]; [contradiction |].
  assert (Hlen : String.length text
                 = (String.length sp + String.length (sign_text sg)
                    + (String.length ds + String.length rest))%nat).
  { rewrite Htext, Hs1, Hs2, !length_append. lia. }
  assert (Hrest : rest = "") by (apply length_zero_empty; lia).
  subst rest. rewrite append_nil_r in Hs2. subst s2 s1.
  exists sp, sg, ds. split; [exact Htext |]. split; [exact Hsp |].
  split; [exact Hds |]. intros ->. cbn in Hnd. lia.
Qed.

Lemma sign_not_space sg c r :
  sign_text sg = String c r -> isspace c = false.
Proof. destruct sg; cbn; intros [= <- <-]; reflexivity. Qed.

(** On such a text [strtoull] returns the serial it stands for and
    reads all of it. *)
Lemma strtoull_syntax text sp sg ds :
  serial_syntax text sp sg ds ->
  strtoull text = (serial_value sg ds, String.length text).
Proof.
  intros (-> & Hsp & Hds & Hne).
  destruct ds as [|c ds]; [contradiction |].
  assert (Hc : is_Some (digit_value c)) by (inversion Hds; assumption).
  unfold strtoull.
  rewrite (skip_spaces_app sp (sign_text sg +:+ String c ds) Hsp).
  2:{ intros c' r'. destruct sg; cbn.
      - intros [= <- <-]. now apply digit_not_space.
      - intros [= <- <-]. reflexivity.
      - intros [= <- <-]. reflexivity. }
  assert (Hsign : strip_sign (sign_text sg +:+ String c ds)
                  = (match sg with Minus => true | _ => false end,
                     String.length (sign_text sg), String c ds)).
  { destruct sg; cbn [sign_text String.append]; try reflexivity.
    change ("" +:+ String c ds) with (String c ds).
    now apply strip_sign_digit. }
  rewrite Hsign.
  rewrite (scan_digits_all (String c ds) 0 0 Hds) by (unfold ULLONG_MAX; lia).
  change (0 + String.length (String c ds))%nat
    with (S (String.length ds)).
  cbv iota beta. fold digit_step.
  change (fold_left digit_step (list_ascii_of_string (String c ds)) 0)
    with (decimal_value (String c ds)).
  unfold serial_value. rewrite !length_append.
  change (String.length (String c ds)) with (S (String.length ds)).
  f_equal; [| lia].
  destruct (Z.ltb_spec ULLONG_MAX (decimal_value (String c ds)));
    [reflexivity |].
  rewrite Z.min_l by lia. destruct sg; reflexivity.
Qed.

Lemma syntax_accepted text sp sg ds :
  serial_syntax text sp sg ds -> serial_accepted text.
Proof.
  intros H. pose proof H as (Ht & _ & _ & Hne).
  unfold serial_accepted. rewrite (strtoull_syntax _ _ _ _ H). cbn [snd].
  split; [| reflexivity]. rewrite Ht, !length_append.
  destruct ds; [contradiction | cbn; lia].
Qed.

(** C9, amended: [ty_board_matches_identity] reads its argument as
    [[location][#serial]].  A null or empty argument matches every board.
    Without ['#'], the argument is a location and matches exactly the
    boards at that location.  With ['#'], the text after it is a serial
    when it is made of white space (possibly none), an optional sign and
    one decimal digit or more, and nothing else; it stands for the
    number the digits write, negated modulo 2^64 after a minus sign, and
    for 2^64 - 1 when the digits write a larger number.  The board then
    matches exactly when the location part is empty or equal to the
    board's location and that value is zero or equal to the board's
    serial.  Every other text after the ['#'] gives the parameter
    error. *)
Theorem matches_identity_spec board :
  ty_board_matches_identity board None = 1
  /\ ty_board_matches_identity board (Some "") = 1
  /\ (forall loc,
      loc <> "" -> strchr loc "#" = None ->
      (loc = location board ->
       ty_board_matches_identity board (Some loc) = 1)
      /\ (loc <> location board ->
          ty_board_matches_identity board (Some loc) = 0))
  /\ (forall loc text,
      strchr loc "#" = None ->
      (forall sp sg ds,
         serial_syntax text sp sg ds ->
         ((loc = "" \/ loc = location board)
          /\ (serial_value sg ds = 0 \/ serial_value sg ds = serial board) ->
          ty_board_matches_identity board (Some (loc +:+ String "#" text))
          = 1)
         /\ (~ ((loc = "" \/ loc = location board)
                /\ (serial_value sg ds = 0
                    \/ serial_value sg ds = serial board)) ->
             ty_board_matches_identity board
               (Some (loc +:+ String "#" text)) = 0))
      /\ ((forall sp sg ds, ~ serial_syntax text sp sg ds) ->
          ty_board_matches_identity board (Some (loc +:+ String "#" text))
          = ty_error TY_ERROR_PARAM)).
Proof.
  destruct (matches_identity_by_strtoull board) as (H1 & H2 & H3 & H4).
  split; [exact H1 |]. split; [exact H2 |]. split; [exact H3 |].
  intros loc text Hhash. destruct (H4 loc text Hhash) as [Hbad Hok]. split.
  - intros sp sg ds Hsyn.
    specialize (Hok (syntax_accepted _ _ _ _ Hsyn)).
    rewrite (strtoull_syntax _ _ _ _ Hsyn) in Hok. exact Hok.
  - intros Hno. apply Hbad. intros Hacc.
    destruct (serial_accepted_syntax text Hacc) as (sp & sg & ds & Hsyn).
    exact (Hno sp sg ds Hsyn).
Qed.

(** "usb-1-2#1234" matches the board at usb-1-2 with serial 1234. *)
Lemma matches_identity_spec_witness :
  ty_board_matches_identity Sample.board_1234 (Some "usb-1-2#1234") = 1.
Proof.
  destruct (matches_identity_spec Sample.board_1234) as (_ & _ & _ & H).
  destruct (H "usb-1-2" "1234" eq_refl) as (H2 & _).
  refine (proj1 (H2 "" NoSign "1234" _) _).
  - split; [reflexivity |]. split; [constructor |].
    split; [| discriminate].
    repeat (constructor; [eexists; reflexivity |]). constructor.
  - split; [right; reflexivity | right; reflexivity].
Defined.

(** C9, counterexample: the text after the ['#'] is handed to [strtoull],
    which accepts white space and a sign before the digits and wraps a
    negated number around 2^64.  The board with serial 1234 is matched
    by a serial part that writes -18446744073709550382, and by one that
    starts with a space. *)
Lemma serial_part_is_read_by_strtoull :
  ty_board_matches_identity Sample.board_1234
    (Some "usb-1-2#-18446744073709550382") = 1
  /\ ty_board_matches_identity Sample.board_1234 (Some "usb-1-2# 1234") = 1
  /\ ~ serial_matches_by_numeric_equality.
Proof.
  split; [vm_compute; reflexivity |]. split; [vm_compute; reflexivity |].
  intros H.
  destruct (H Sample.board_1234 "usb-1-2" "-18446744073709550382" eq_refl
              ltac:(vm_compute; reflexivity))
    as (sg & ds & Ht & Hds & _ & Hv).
  destruct sg.
  - change (sign_text NoSign +:+ ds) with ds in Ht. subst ds.
    apply Forall_cons in Hds as [[d Hd] _]. discriminate Hd.
  - change (sign_text Plus +:+ ds) with (String "+" ds) in Ht.
    discriminate Ht.
  - change (sign_text Minus +:+ ds) with (String "-" ds) in Ht.
    injection Ht as <-. vm_compute in Hv. destruct Hv; discriminate.
Qed.

Example matches_identity_examples :
  ty_board_matches_identity Sample.board_1234 (Some "#1234") = 1
  /\ ty_board_matches_identity Sample.board_1234 (Some "usb-1-2#0") = 1
  /\ ty_board_matches_identity Sample.board_1234 (Some "usb-1-2") = 1
  /\ ty_board_matches_identity Sample.board_1234 (Some "usb-1-3") = 0
  /\ ty_board_matches_identity Sample.board_1234 (Some "usb-1-2#77") = 0
  /\ ty_board_matches_identity Sample.board_1234 (Some "usb-1-2#")
     = ty_error TY_ERROR_PARAM
  /\ ty_board_matches_identity Sample.board_1234 (Some "usb-1-2#12x")
     = ty_error TY_ERROR_PARAM
  /\ ty_board_matches_identity Sample.board_1234 (Some "a#1#2")
     = ty_error TY_ERROR_PARAM.
Proof. repeat split. Qed.

End IdentityFacts.

(** ** The board manager *)

Module ManagerFacts.
Import CLib Board Statements.

Lemma trigger_callbacks_frame m board event :
  exists r kept calls,
    trigger_callbacks m board event = (r, set_callbacks m kept, calls).
Proof.
  unfold trigger_callbacks.
  destruct (trigger_loop (callbacks m) board event) as [[r kept] calls].
  eauto.
Qed.

Lemma store_board_next m b : next_board (store_board m b) = next_board m.
Proof. reflexivity. Qed.

Lemma store_board_idmap m b :
  consistent (idmap m) b -> idmap (store_board m b) = idmap m.
Proof.
  unfold consistent, idmap, store_board. simpl.
  induction (boards m) as [|x l IH]; simpl; intros H; [reflexivity |].
  rewrite IH by (intros p Hp; apply H; now right). f_equal.
  destruct (Nat.eqb_spec (board_id x) (board_id b)) as [E|E]; [| reflexivity].
  f_equal; [congruence |].
  symmetry. apply (H (board_id x, identity x)); [now left | exact E].
Qed.

Lemma found_consistent m b :
  List.NoDup (map fst (idmap m)) -> In b (boards m) -> consistent (idmap m) b.
Proof.
  unfold consistent, idmap. intros Hnd Hin [i s] Hp Hi. simpl in *. subst i.
  induction (boards m) as [|x l IH]; simpl in *; [contradiction |].
  inversion Hnd as [|? ? Hnotin Hnd']; subst.
  destruct Hp as [Hp | Hp], Hin as [Hin | Hin].
  - subst. now inversion Hp.
  - inversion Hp as [[E1 E2]]. exfalso. apply Hnotin.
    rewrite map_map. simpl. rewrite E1.
    exact (in_map board_id _ _ Hin).
  - subst. exfalso. apply Hnotin.
    exact (in_map fst _ _ Hp).
  - now apply IH.
Qed.

Lemma find_board_In m loc b : find_board m loc = Some b -> In b (boards m).
Proof. unfold find_board. intros H. now apply find_some in H. Qed.

Lemma filter_idmap (l : list ty_board) i :
  map (fun b => (board_id b, identity b))
      (filter (fun b => board_id b ≠ i) l)
  = filter (fun p => fst p ≠ i) (map (fun b => (board_id b, identity b)) l).
Proof.
  induction l as [|x l IH]; [reflexivity |].
  rewrite filter_cons. simpl. rewrite filter_cons. simpl.
  destruct (decide (board_id x ≠ i)); simpl; now rewrite IH.
Qed.

Lemma drop_board_idmap m b :
  idmap (fst (fst (drop_board m b)))
  = filter (fun p => fst p ≠ board_id b) (idmap m)
  /\ next_board (fst (fst (drop_board m b))) = next_board m.
Proof.
  unfold drop_board.
  match goal with |- context [trigger_callbacks ?m1 ?b1 ?e] =>
    destruct (trigger_callbacks_frame m1 b1 e) as (r & kept & calls & E);
    rewrite E end.
  unfold idmap. simpl. split; [apply filter_idmap | reflexivity].
Qed.

Lemma close_board_idmap m b :
  consistent (idmap m) b ->
  idmap (fst (fst (close_board m b))) = idmap m
  /\ next_board (fst (fst (close_board m b))) = next_board m
  /\ board_id (snd (fst (close_board m b))) = board_id b
  /\ identity (snd (fst (close_board m b))) = identity b.
Proof.
  intros Hc. unfold close_board.
  match goal with |- context [trigger_callbacks ?m1 ?b1 ?e] =>
    destruct (trigger_callbacks_frame m1 b1 e) as (r & kept & calls & E);
    rewrite E end.
  simpl. split; [| repeat split].
  match goal with |- idmap (store_board ?m2 ?b') = _ =>
    change (idmap m) with (idmap m2); apply store_board_idmap end.
  exact Hc.
Qed.

Lemma add_board_idmap m iface :
  idmap (fst (add_board m iface))
  = idmap m ++ [(next_board m,
                 dev_location (iface_dev iface) +:+ "#"
                 +:+ fmt_u64 (iface_serial iface))]
  /\ next_board (fst (add_board m iface)) = S (next_board m)
  /\ board_id (snd (add_board m iface)) = next_board m
  /\ identity (snd (add_board m iface))
     = dev_location (iface_dev iface) +:+ "#" +:+ fmt_u64 (iface_serial iface)
  /\ serial (snd (add_board m iface)) = iface_serial iface
  /\ location (snd (add_board m iface)) = dev_location (iface_dev iface).
Proof.
  unfold add_board, idmap. simpl. rewrite map_app. repeat split.
Qed.

Lemma consistent_fresh l b n :
  Forall (fun p => (fst p < n)%nat) l -> board_id b = n ->
  forall s, identity b = s -> consistent (l ++ [(n, s)]) b.
Proof.
  intros Hl Hid s Hs [i s'] Hp Hi. simpl in *.
  apply in_app_or in Hp. destruct Hp as [Hp | [Hp | []]].
  - rewrite Forall_forall in Hl. apply list_elem_of_In in Hp.
    specialize (Hl _ Hp). simpl in Hl. lia.
  - inversion Hp. congruence.
Qed.

Lemma Forall_filter_lt (l : list (nat * string)) n i :
  Forall (fun p => (fst p < n)%nat) l ->
  Forall (fun p => (fst p < n)%nat) (filter (fun p => fst p ≠ i) l).
Proof.
  intros H. apply Forall_forall. intros p Hp.
  apply list_elem_of_filter in Hp. destruct Hp as [_ Hp].
  rewrite Forall_forall in H. now apply H.
Qed.

Lemma consistent_ext l b b' :
  board_id b' = board_id b -> identity b' = identity b ->
  consistent l b -> consistent l b'.
Proof. unfold consistent. intros -> -> H. exact H. Qed.

Lemma summary_stored m m0 b kept :
  consistent (idmap m0) b -> summary m0 = summary m ->
  boards m0 = boards m ->
  summary (set_callbacks (store_board m b) kept) = summary m0.
Proof.
  intros Hc Hs Hb. unfold summary in *.
  change (idmap (set_callbacks (store_board m b) kept))
    with (idmap (store_board m b)).
  rewrite store_board_idmap.
  - change (next_board (set_callbacks (store_board m b) kept))
      with (next_board m). congruence.
  - unfold idmap in *. rewrite <- Hb. exact Hc.
Qed.

Ltac frame_trigger :=
  match goal with |- context [trigger_callbacks ?m1 ?b1 ?e] =>
    let r := fresh "r" in let kept := fresh "kept" in
    let calls := fresh "calls" in let E := fresh "E" in
    destruct (trigger_callbacks_frame m1 b1 e) as (r & kept & calls & E);
    rewrite E
  end.

Lemma add_interface_summary vendors m dev :
  ids_ok m ->
  summary (snd (fst (add_interface vendors m dev)))
  = idmap_after_add vendors m dev.
Proof.
  intros [Hnd Hlt]. unfold add_interface, idmap_after_add.
  destruct (open_interface vendors dev) as [r [iface|]]; [| reflexivity].
  destruct (find_board m (dev_location dev)) as [b|] eqn:Hfind.
  - pose proof (found_consistent m b Hnd (find_board_In _ _ _ Hfind)) as Hc.
    destruct (board_replaced iface b).
    + pose proof (drop_board_idmap m b) as [Hd Hn].
      destruct (drop_board m b) as [[m' bd] calls]. simpl in Hd, Hn.
      pose proof (add_board_idmap m' iface) as (Ha & Hn' & Hid & Hident & _).
      destruct (add_board m' iface) as [m'' nb].
      simpl in Ha, Hn', Hid, Hident.
      frame_trigger. cbn [fst snd].
      rewrite (summary_stored _ m''); [| | reflexivity | reflexivity].
      * unfold summary. rewrite Ha, Hn', Hd, Hn. reflexivity.
      * apply (consistent_ext _ nb); [reflexivity | reflexivity |].
        rewrite Ha. apply consistent_fresh; try assumption.
        rewrite Hd, Hn. now apply Forall_filter_lt.
    + destruct (negb (vid b =? dev_vid dev) || negb (pid b =? dev_pid dev)).
      * pose proof (close_board_idmap m b Hc) as (Hcl & Hn & Hid & Hident).
        destruct (close_board m b) as [[m' b'] calls].
        simpl in Hcl, Hn, Hid, Hident.
        frame_trigger. cbn [fst snd].
        rewrite (summary_stored _ m'); [| | reflexivity | reflexivity].
        -- unfold summary. now rewrite Hcl, Hn.
        -- apply (consistent_ext _ b); [exact Hid | exact Hident |].
           rewrite Hcl. exact Hc.
      * frame_trigger. cbn [fst snd].
        rewrite (summary_stored _ m); [| | reflexivity | reflexivity].
        -- reflexivity.
        -- apply (consistent_ext _ b); [reflexivity | reflexivity | exact Hc].
  - pose proof (add_board_idmap m iface) as (Ha & Hn' & Hid & Hident & _).
    destruct (add_board m iface) as [m'' nb]. simpl in Ha, Hn', Hid, Hident.
    frame_trigger. cbn [fst snd].
    rewrite (summary_stored _ m''); [| | reflexivity | reflexivity].
    + unfold summary. now rewrite Ha, Hn'.
    + apply (consistent_ext _ nb); [reflexivity | reflexivity |].
      rewrite Ha. apply consistent_fresh; assumption.
Qed.

Lemma remove_interface_summary m dev now :
  ids_ok m ->
  summary (snd (fst (remove_interface m dev now))) = summary m.
Proof.
  intros [Hnd Hlt]. unfold remove_interface.
  destruct (find_interface m dev) as [iface|]; [| reflexivity].
  destruct (find _ (boards m)) as [b|] eqn:Hfind; [| reflexivity].
  apply find_some in Hfind. destruct Hfind as [Hin _].
  pose proof (found_consistent m b Hnd Hin) as Hc.
  destruct (unlink_interface _ (interfaces b)) as [|i0 rest0].
  - match goal with |- context [close_board ?m1 ?b1] =>
      pose proof (close_board_idmap m1 b1) as Hcl;
      destruct (close_board m1 b1) as [[m2 b2] calls] end.
    destruct Hcl as (Hcl & Hn & Hid & Hident); [exact Hc |].
    simpl in Hcl, Hn, Hid, Hident.
    unfold add_missing_board. cbn [fst snd]. unfold summary.
    match goal with |- (idmap (set_timer (set_missing_boards (store_board ?a ?x) _) _), _) = _ =>
      change ((idmap (store_board a x), next_board a) = (idmap m, next_board m)) end.
    rewrite store_board_idmap.
    + rewrite Hcl, Hn. reflexivity.
    + apply (consistent_ext _ b); [exact Hid | exact Hident |].
      rewrite Hcl. exact Hc.
  - frame_trigger. cbn [fst snd].
    match goal with |- summary (set_callbacks (store_board ?a ?x) _) = _ =>
      rewrite (summary_stored a a) end; try reflexivity.
    apply (consistent_ext _ b); [reflexivity | reflexivity | exact Hc].
Qed.

Lemma after_add_old_or_new vendors m dev p :
  In p (fst (idmap_after_add vendors m dev)) ->
  In p (idmap m) \/ fst p = next_board m.
Proof.
  unfold idmap_after_add.
  destruct (open_interface vendors dev) as [r [iface|]]; [| now left].
  destruct (find_board m (dev_location dev)) as [b|].
  - destruct (board_replaced iface b); [| now left].
    simpl. intros H. apply in_app_or in H. destruct H as [H | [<- | []]].
    + left. apply list_elem_of_In in H. apply list_elem_of_filter in H.
      apply list_elem_of_In. tauto.
    + now right.
  - simpl. intros H. apply in_app_or in H. destruct H as [H | [<- | []]].
    + now left.
    + now right.
Qed.

Lemma NoDup_fst_snoc (l : list (nat * string)) n s :
  List.NoDup (map fst l) -> Forall (fun p => (fst p < n)%nat) l ->
  List.NoDup (map fst (l ++ [(n, s)])).
Proof.
  induction l as [|x l IH]; simpl; intros Hnd Hlt.
  - constructor; [easy | constructor].
  - inversion Hnd as [|? ? Hnotin Hnd']; subst.
    inversion Hlt as [|? ? Hx Hlt']; subst.
    constructor; [| now apply IH].
    rewrite map_app, in_app_iff. simpl. intros [H | [H | []]];
      [contradiction | lia].
Qed.

Lemma NoDup_fst_filter (l : list (nat * string)) i :
  List.NoDup (map fst l) ->
  List.NoDup (map fst (filter (fun p => fst p ≠ i) l)).
Proof.
  induction l as [|x l IH]; simpl; intros Hnd; [constructor |].
  inversion Hnd as [|? ? Hnotin Hnd']; subst.
  rewrite filter_cons. destruct (decide (fst x ≠ i)); [| now apply IH].
  simpl. constructor; [| now apply IH].
  intros H. apply Hnotin. apply in_map_iff in H.
  destruct H as (p & Hp & Hin). apply in_map_iff. exists p. split; [easy |].
  apply list_elem_of_In in Hin. apply list_elem_of_filter in Hin.
  apply list_elem_of_In. tauto.
Qed.

Lemma Forall_lt_snoc (l : list (nat * string)) n s :
  Forall (fun p => (fst p < n)%nat) l ->
  Forall (fun p => (fst p < S n)%nat) (l ++ [(n, s)]).
Proof.
  intros H. apply Forall_app. split.
  - eapply Forall_impl; [exact H |]. simpl. intros; lia.
  - constructor; [simpl; lia | constructor].
Qed.

Lemma ids_ok_of_summary m l n :
  summary m = (l, n) -> List.NoDup (map fst l) ->
  Forall (fun p => (fst p < n)%nat) l -> ids_ok m.
Proof. unfold summary. intros [= <- <-]. now split. Qed.

Lemma empty_manager_ids_ok : ids_ok Sample.empty_manager.
Proof. split; constructor. Qed.

Lemma add_interface_ids_ok vendors m dev :
  ids_ok m -> ids_ok (snd (fst (add_interface vendors m dev))).
Proof.
  intros Hok. pose proof (add_interface_summary vendors m dev Hok) as Hs.
  destruct Hok as [Hnd Hlt]. unfold idmap_after_add in Hs.
  destruct (open_interface vendors dev) as [r [iface|]];
    [| now apply (ids_ok_of_summary _ _ _ Hs)].
  destruct (find_board m (dev_location dev)) as [b|].
  - destruct (board_replaced iface b);
      [| now apply (ids_ok_of_summary _ _ _ Hs)].
    apply (ids_ok_of_summary _ _ _ Hs).
    + apply NoDup_fst_snoc; [now apply NoDup_fst_filter |].
      now apply Forall_filter_lt.
    + apply Forall_lt_snoc. now apply Forall_filter_lt.
  - apply (ids_ok_of_summary _ _ _ Hs).
    + now apply NoDup_fst_snoc.
    + now apply Forall_lt_snoc.
Qed.

Lemma remove_interface_ids_ok m dev now :
  ids_ok m -> ids_ok (snd (fst (remove_interface m dev now))).
Proof.
  intros Hok. pose proof (remove_interface_summary m dev now Hok) as Hs.
  destruct Hok. now apply (ids_ok_of_summary _ _ _ Hs).
Qed.

Lemma linked_identity_stable m (l : list (nat * string)) b b' :
  ids_ok m -> In b (boards m) ->
  (forall p, In p l -> In p (idmap m) \/ fst p = next_board m) ->
  In (board_id b', identity b') l ->
  board_id b' = board_id b -> identity b' = identity b.
Proof.
  intros [Hnd Hlt] Hin Hl Hp Hid.
  destruct (Hl _ Hp) as [Hold | Hnew]; simpl in *.
  - exact (found_consistent m b Hnd Hin _ Hold Hid).
  - rewrite Forall_forall in Hlt.
    assert (Hb : In (board_id b, identity b) (idmap m))
      by (unfold idmap; exact (in_map (fun x => (board_id x, identity x)) _ _ Hin)).
    apply list_elem_of_In in Hb. specialize (Hlt _ Hb). simpl in Hlt. lia.
Qed.

(** C5, amended: [add_board] prints the identity as the location, ['#']
    and the serial in decimal, whatever the serial (a zero serial gives
    the suffix "#0"); and the identity of a board does not change while
    the board is linked: a board present before and after
    [add_interface] or [remove_interface] has the identity it had. *)
Theorem identity_assigned_once vendors m dev now :
  (forall iface,
     identity (snd (add_board m iface))
     = dev_location (iface_dev iface) +:+ "#"
       +:+ fmt_u64 (iface_serial iface))
  /\ (ids_ok m ->
      forall b b',
        In b (boards m) ->
        In b' (boards (snd (fst (add_interface vendors m dev)))) ->
        board_id b' = board_id b -> identity b' = identity b)
  /\ (ids_ok m ->
      forall b b',
        In b (boards m) ->
        In b' (boards (snd (fst (remove_interface m dev now)))) ->
        board_id b' = board_id b -> identity b' = identity b).
Proof.
  split; [reflexivity |]. split; intros Hok b b' Hin Hin' Hid.
  - pose proof (add_interface_summary vendors m dev Hok) as Hs.
    apply (linked_identity_stable m (fst (idmap_after_add vendors m dev)) b b');
      try assumption.
    + intros p. apply after_add_old_or_new.
    + rewrite <- Hs. simpl.
      exact (in_map (fun x => (board_id x, identity x)) _ _ Hin').
  - pose proof (remove_interface_summary m dev now Hok) as Hs.
    apply (linked_identity_stable m (idmap m) b b'); try assumption.
    + intros p Hp. now left.
    + change (idmap m) with (fst (summary m)). rewrite <- Hs. simpl.
      exact (in_map (fun x => (board_id x, identity x)) _ _ Hin').
Qed.

(** The same board as it leaves [close_board] and [drop_board]. *)
Lemma close_and_drop_keep_identity m b :
  identity (snd (fst (close_board m b))) = identity b
  /\ identity (snd (fst (drop_board m b))) = identity b.
Proof.
  unfold close_board, drop_board. split; frame_trigger; reflexivity.
Qed.

(** C5, counterexample: the board created for a device without serial
    number is called "usb-1-2#0", not "usb-1-2". *)
Lemma zero_serial_identity_has_suffix :
  linked Sample.manager_serial0 = [(O, 0, "usb-1-2#0")]
  /\ ~ suffix_omitted_for_zero_serial.
Proof.
  split; [reflexivity |].
  intros H.
  specialize (H Sample.empty_manager (Sample.interface 8 None) eq_refl).
  discriminate H.
Qed.

(** A second interface of the same device joins the board of
    [Sample.manager_serial0]; the board keeps its identity. *)
Lemma identity_assigned_once_witness :
  identity
    (hd Sample.board_1234
        (boards (snd (fst (add_interface [Sample.vendor_teensy31 1]
                             Sample.manager_serial0
                             (Sample.device 8 0x16C0 0x483 None))))))
  = identity (hd Sample.board_1234 (boards Sample.manager_serial0)).
Proof.
  apply (proj1 (proj2 (identity_assigned_once [Sample.vendor_teensy31 1]
                         Sample.manager_serial0
                         (Sample.device 8 0x16C0 0x483 None) 0))).
  - apply add_interface_ids_ok. exact empty_manager_ids_ok.
  - vm_compute. left. reflexivity.
  - vm_compute. left. reflexivity.
  - reflexivity.
Defined.

(** *** Replacement of a board by [add_interface] *)

Lemma board_replaced_iff iface board :
  board_replaced iface board = true <->
  (model_is_valid (iface_model iface) = true
   /\ model_is_valid (model board) = true
   /\ model_ptr_eqb (iface_model iface) (model board) = false)
  \/ iface_serial iface <> serial board.
Proof.
  unfold board_replaced.
  rewrite orb_true_iff, !andb_true_iff, !negb_true_iff, Z.eqb_neq. tauto.
Qed.

(** Any difference of the serials replaces the board, a zero on either
    side included. *)
Lemma board_replaced_serial_differs iface board :
  iface_serial iface <> serial board -> board_replaced iface board = true.
Proof. intros H. apply board_replaced_iff. now right. Qed.

(** A replaced board is unlinked, a board that is not replaced stays. *)
Lemma add_interface_replaces vendors m dev r iface b :
  ids_ok m ->
  open_interface vendors dev = (r, Some iface) ->
  find_board m (dev_location dev) = Some b ->
  (board_replaced iface b = true ->
   ~ In (board_id b)
        (map fst (idmap (snd (fst (add_interface vendors m dev))))))
  /\ (board_replaced iface b = false ->
      idmap (snd (fst (add_interface vendors m dev))) = idmap m).
Proof.
  intros Hok Ho Hf.
  pose proof (add_interface_summary vendors m dev Hok) as Hs.
  unfold idmap_after_add in Hs. rewrite Ho, Hf in Hs.
  unfold summary in Hs. split; intros Hr; rewrite Hr in Hs.
  - injection Hs as Hi _. rewrite Hi, map_app, in_app_iff. simpl.
    intros [H | [H | []]].
    + apply in_map_iff in H. destruct H as (p & Hp & Hin).
      apply list_elem_of_In, list_elem_of_filter in Hin. tauto.
    + destruct Hok as [_ Hlt]. rewrite Forall_forall in Hlt.
      apply find_board_In in Hf.
      assert (Hb : In (board_id b, identity b) (idmap m))
        by exact (in_map (fun x => (board_id x, identity x)) _ _ Hf).
      apply list_elem_of_In in Hb. specialize (Hlt _ Hb). simpl in Hlt. lia.
  - now injection Hs.
Qed.

(** C1: a board whose serial is not known (0) and a new interface at the
    same location, with the same valid model and the same (vid, pid),
    that reports the serial 1234.  The board is not retained: the
    replacement test compares the serials without asking whether they are
    non-zero, so the board at address 0 is dropped ([DROPPED] is fired)
    and a new board at address 1 is created ([ADDED], not [CHANGED]). *)
Theorem add_interface_drops_board_with_zero_serial :
  linked Sample.manager_serial0 = [(O, 0, "usb-1-2#0")]
  /\ fst (fst (add_interface [Sample.vendor_teensy31 1]
                 Sample.manager_serial0
                 (Sample.device 8 0x16C0 0x483 (Some "1234")))) = 0
  /\ events (snd (add_interface [Sample.vendor_teensy31 1]
                    Sample.manager_serial0
                    (Sample.device 8 0x16C0 0x483 (Some "1234"))))
     = [(O, TY_BOARD_EVENT_DROPPED); (1%nat, TY_BOARD_EVENT_ADDED)]
  /\ linked (snd (fst (add_interface [Sample.vendor_teensy31 1]
                         Sample.manager_serial0
                         (Sample.device 8 0x16C0 0x483 (Some "1234")))))
     = [(1%nat, 1234, "usb-1-2#1234")]
  /\ ~ zero_serial_retains.
Proof.
  repeat split.
  intros H.
  specialize (H (Sample.interface 1 None) Sample.board_1234
                (or_introl eq_refl) eq_refl).
  discriminate H.
Qed.

(** The same interface without a serial of its own joins the board:
    [CHANGED] is fired and the board stays. *)
Example add_interface_same_serial_retains :
  events (snd (add_interface [Sample.vendor_teensy31 1]
                 Sample.manager_serial0
                 (Sample.device 8 0x16C0 0x483 None)))
  = [(O, TY_BOARD_EVENT_CHANGED)]
  /\ linked (snd (fst (add_interface [Sample.vendor_teensy31 1]
                         Sample.manager_serial0
                         (Sample.device 8 0x16C0 0x483 None))))
     = [(O, 0, "usb-1-2#0")].
Proof. split; reflexivity. Qed.

(** A change of (vid, pid) with equal serials closes the board first:
    [DISAPPEARED], then [CHANGED], and the board stays. *)
Example add_interface_vid_pid_change_closes :
  events (snd (add_interface [Sample.vendor_teensy31 1]
                 Sample.manager_serial0
                 (Sample.device 8 0x16C0 0x478 None)))
  = [(O, TY_BOARD_EVENT_DISAPPEARED); (O, TY_BOARD_EVENT_CHANGED)]
  /\ linked (snd (fst (add_interface [Sample.vendor_teensy31 1]
                         Sample.manager_serial0
                         (Sample.device 8 0x16C0 0x478 None))))
     = [(O, 0, "usb-1-2#0")].
Proof. split; reflexivity. Qed.

End ManagerFacts.

(** ** Tasks and the worker pool *)

Module TaskFacts.
Import Task TaskStatements.

Lemma tasks_set_task w t x : tasks (set_task w t x) = <[t := x]> (tasks w).
Proof. reflexivity. Qed.
Lemma tasks_emit w evs : tasks (emit w evs) = tasks w.
Proof. reflexivity. Qed.
Lemma tasks_set_current w c : tasks (set_current w c) = tasks w.
Proof. reflexivity. Qed.
Lemma tasks_set_pool w p : tasks (set_pool w p) = tasks w.
Proof. reflexivity. Qed.

Lemma change_status_eq w t s x :
  tasks w !! t = Some x ->
  change_status w t s
  = Some (emit (set_task w t (with_status x s)) [EvStore t s; EvMessage t s]).
Proof. intros Hx. unfold change_status. now rewrite Hx. Qed.

Lemma world_eq w1 w2 :
  tasks w1 = tasks w2 -> pool w1 = pool w2 -> held w1 = held w2 ->
  current_task w1 = current_task w2 -> next_task w1 = next_task w2 ->
  log w1 = log w2 -> w1 = w2.
Proof.
  destruct w1, w2. cbn [tasks pool held current_task next_task log].
  congruence.
Qed.

Lemma run_task_body_eq w t x :
  tasks w !! t = Some x ->
  run_task_body w t
  = Some {| tasks := <[t := finished x]> (tasks w); pool := pool w;
            held := held w;
            current_task := current_task w; next_task := next_task w;
            log := log w ++ run_events t x |}.
Proof.
  intros Hx. unfold run_task_body.
  rewrite (change_status_eq _ t _ x) by exact Hx.
  cbn [mbind option_bind].
  rewrite tasks_emit, tasks_set_task, lookup_insert_eq.
  cbn [mbind option_bind].
  rewrite tasks_emit, tasks_set_task, lookup_insert_eq.
  cbn [mbind option_bind task_finalize with_status].
  unfold run_events.
  destruct (task_finalize x) eqn:Hf.
  - erewrite change_status_eq
      by (rewrite tasks_emit, tasks_set_task; apply lookup_insert_eq).
    cbn [mbind option_bind]. f_equal. apply world_eq;
      cbn [tasks pool held current_task next_task log set_current emit
           set_task]; try reflexivity.
    + rewrite !insert_insert_eq. unfold finished, with_status.
      cbn [name status ret task_run task_finalize result_cleanup
           user_cleanup refcount]. reflexivity.
    + now rewrite <- !app_assoc.
  - erewrite change_status_eq
      by (rewrite tasks_emit, tasks_set_task; apply lookup_insert_eq).
    cbn [mbind option_bind]. f_equal. apply world_eq;
      cbn [tasks pool held current_task next_task log set_current emit
           set_task]; try reflexivity.
    + rewrite !insert_insert_eq. unfold finished, with_status.
      cbn [name status ret task_run task_finalize result_cleanup
           user_cleanup refcount]. reflexivity.
    + now rewrite <- !app_assoc.
Qed.

Lemma run_task_eq w t x :
  tasks w !! t = Some x ->
  rank (status x) <= rank TY_TASK_STATUS_PENDING ->
  run_task w t
  = Some {| tasks := <[t := finished x]> (tasks w); pool := pool w;
            held := held w;
            current_task := current_task w; next_task := next_task w;
            log := log w ++ run_events t x |}.
Proof.
  intros Hx Hr. unfold run_task. rewrite Hx. cbn [mbind option_bind].
  destruct (Z.leb_spec (rank (status x)) (rank TY_TASK_STATUS_PENDING));
    [| lia].
  cbn [negb]. exact (run_task_body_eq w t x Hx).
Qed.


Lemma ty_task_unref_eq w t x :
  tasks w !! t = Some x ->
  ty_task_unref w t
  = Some (if negb (refcount x - 1 =? 0)
          then set_task w t (with_refcount x (refcount x - 1))
          else {| tasks := delete t (tasks w); pool := pool w;
                  held := held w;
                  current_task := current_task w; next_task := next_task w;
                  log := log w ++ unref_events t x |}).
Proof.
  intros Hx. unfold ty_task_unref. rewrite Hx. simpl.
  destruct (negb (refcount x - 1 =? 0)); reflexivity.
Qed.










































(** The loop of [ty_pool_set_max_threads] when the attempt number [k]
    is the first to fail: the threads started before it stay, and the
    limit has not been written. *)
Lemma set_max_loop_fails cur max : forall p spawns k r,
  spawns !! k = Some r -> r < 0 ->
  (forall i s, (i < k)%nat -> spawns !! i = Some s -> 0 <= s) ->
  (k < length cur)%nat ->
  started p + Z.of_nat k < max ->
  set_max_loop cur max p spawns
  = (Some (if started p + Z.of_nat k =? 0 then r else 0),
     {| unused_timeout := unused_timeout p; max_threads := max_threads p;
        started := started p + Z.of_nat k; busy := busy p + Z.of_nat k;
        pending_tasks := pending_tasks p; init := init p |}).
Proof.
  induction cur as [|t cur IH]; intros p spawns k r Hk Hr Hbefore Hlen Hmax;
    [cbn in Hlen; lia |].
  cbn [set_max_loop].
  destruct (Z.leb_spec max (started p)); [lia |].
  destruct k as [|k].
  - destruct spawns as [|s0 spawns]; [discriminate |].
    cbn in Hk. injection Hk as ->.
    unfold start_thread. cbn [hd].
    destruct (Z.ltb_spec r 0); [| lia].
    destruct (Z.ltb_spec r 0); [| lia].
    cbn [Z.of_nat]. rewrite !Z.add_0_r. destruct p; reflexivity.
  - destruct spawns as [|s0 spawns]; [discriminate |].
    cbn in Hk.
    assert (Hs0 : 0 <= s0) by (apply (Hbefore 0%nat); [lia | reflexivity]).
    unfold start_thread. cbn [hd tl].
    destruct (Z.ltb_spec s0 0); [lia |].
    destruct (Z.ltb_spec 0 0); [lia |].
    rewrite (IH _ spawns k r Hk Hr).
    + cbn [unused_timeout max_threads started busy pending_tasks init].
      rewrite Nat2Z.inj_succ.
      replace (started p + 1 + Z.of_nat k) with (started p + Z.succ (Z.of_nat k))
        by lia.
      replace (busy p + 1 + Z.of_nat k) with (busy p + Z.succ (Z.of_nat k))
        by lia.
      reflexivity.
    + intros i s Hi Hs. apply (Hbefore (S i)); [lia | exact Hs].
    + cbn in Hlen. lia.
    + cbn [started]. lia.
Qed.

(** A worker that comes to the queue of a pool above its limit leaves,
    and the queue is not touched. *)
Lemma scan_above_limit w timed_out :
  busy (pool w) < started (pool w) ->
  max_threads (pool w) < started (pool w) ->
  exists w',
    task_thread_scan w timed_out = Some (None, w')
    /\ started (pool w') = started (pool w) - 1
    /\ pending_tasks (pool w') = pending_tasks (pool w)
    /\ tasks w' = tasks w /\ log w' = log w /\ held w' = held w.
Proof.
  intros Hb Hm. unfold task_thread_scan.
  destruct (Z.leb_spec (started (pool w) - busy (pool w)) 0); [lia |].
  destruct (Z.ltb_spec (max_threads (pool w)) (started (pool w))); [| lia].
  eexists. split; [reflexivity |]. repeat split.
Qed.

(** A worker that comes to the queue of a pool within its limit takes
    the first pending task. *)
Lemma scan_within_limit w timed_out t rest :
  busy (pool w) < started (pool w) ->
  started (pool w) <= max_threads (pool w) ->
  pending_tasks (pool w) = t :: rest ->
  exists w',
    task_thread_scan w timed_out = Some (Some t, w')
    /\ started (pool w') = started (pool w)
    /\ busy (pool w') = busy (pool w) + 1
    /\ pending_tasks (pool w') = rest
    /\ tasks w' = tasks w /\ log w' = log w /\ held w' = t :: held w.
Proof.
  intros Hb Hm Hp. unfold task_thread_scan.
  destruct (Z.leb_spec (started (pool w) - busy (pool w)) 0); [lia |].
  destruct (Z.ltb_spec (max_threads (pool w)) (started (pool w))); [lia |].
  rewrite Hp. eexists. split; [reflexivity |]. repeat split.
Qed.

(** [ty_task_start] hands the error of a failed spawn to its caller and
    changes nothing: the task stays ready and unqueued. *)
Lemma ty_task_start_spawn_failure w t x spawn :
  tasks w !! t = Some x -> status x = TY_TASK_STATUS_READY ->
  busy (pool w) = started (pool w) ->
  started (pool w) < max_threads (pool w) ->
  spawn < 0 ->
  ty_task_start w t spawn = Some (spawn, w).
Proof.
  intros Hx Hst Hb Hm Hneg. unfold ty_task_start. rewrite Hx. simpl.
  rewrite Hst. simpl. rewrite Hb, Z.eqb_refl.
  destruct (Z.ltb_spec (started (pool w)) (max_threads (pool w))); [| lia].
  simpl. unfold start_thread.
  destruct (Z.ltb_spec spawn 0); [| lia].
  destruct (Z.ltb_spec spawn 0); [| lia].
  destruct w as [ts p h c n l]. reflexivity.
Qed.

(** C7, amended.  In [ty_pool_set_max_threads], when the attempt number
    [k] to start a thread is the first to fail, the call ends there: it
    returns zero if a thread is started by then (those started by the
    call itself included) and the error otherwise; the limit keeps its
    old value, the [k] threads started before stay, the pending tasks
    stay queued, and tasks and log are untouched.  What becomes of the
    pending tasks then depends on the old limit: a worker that comes to
    the queue leaves while more threads are started than the old limit
    allows, and the tasks stay queued; otherwise it takes the first
    pending task.  In [ty_task_start] a failed spawn is returned to the
    caller whatever the number of started threads, and nothing is
    changed. *)
Theorem spawn_failure_outcome :
  (forall w max spawns k r,
     max_threads (pool w) < max ->
     spawns !! k = Some r -> r < 0 ->
     (forall i s, (i < k)%nat -> spawns !! i = Some s -> 0 <= s) ->
     (k < length (pending_tasks (pool w)))%nat ->
     started (pool w) + Z.of_nat k < max ->
     fst (ty_pool_set_max_threads w max spawns)
     = (if started (pool w) + Z.of_nat k =? 0 then r else 0)
     /\ max_threads (pool (snd (ty_pool_set_max_threads w max spawns)))
        = max_threads (pool w)
     /\ started (pool (snd (ty_pool_set_max_threads w max spawns)))
        = started (pool w) + Z.of_nat k
     /\ busy (pool (snd (ty_pool_set_max_threads w max spawns)))
        = busy (pool w) + Z.of_nat k
     /\ pending_tasks (pool (snd (ty_pool_set_max_threads w max spawns)))
        = pending_tasks (pool w)
     /\ tasks (snd (ty_pool_set_max_threads w max spawns)) = tasks w
     /\ log (snd (ty_pool_set_max_threads w max spawns)) = log w
     /\ held (snd (ty_pool_set_max_threads w max spawns)) = held w)
  /\ (forall w timed_out,
        busy (pool w) < started (pool w) ->
        (max_threads (pool w) < started (pool w) ->
         exists w',
           task_thread_scan w timed_out = Some (None, w')
           /\ started (pool w') = started (pool w) - 1
           /\ pending_tasks (pool w') = pending_tasks (pool w)
           /\ tasks w' = tasks w /\ log w' = log w /\ held w' = held w)
        /\ (started (pool w) <= max_threads (pool w) ->
            forall t rest,
              pending_tasks (pool w) = t :: rest ->
              exists w',
                task_thread_scan w timed_out = Some (Some t, w')
                /\ pending_tasks (pool w') = rest
                /\ held w' = t :: held w))
  /\ (forall w t x spawn,
        tasks w !! t = Some x -> status x = TY_TASK_STATUS_READY ->
        busy (pool w) = started (pool w) ->
        started (pool w) < max_threads (pool w) ->
        spawn < 0 ->
        ty_task_start w t spawn = Some (spawn, w)).
Proof.
  split; [| split].
  - intros w max spawns k r Hmax Hk Hr Hbefore Hlen Hroom.
    unfold ty_pool_set_max_threads.
    destruct (Z.ltb_spec (max_threads (pool w)) max); [| lia].
    rewrite (set_max_loop_fails _ max (pool w) spawns k r Hk Hr Hbefore Hlen
               Hroom).
    cbn [fst snd pool set_pool max_threads started busy pending_tasks tasks
         log held].
    repeat split.
  - intros w timed_out Hb. split.
    + intros Hm. exact (scan_above_limit w timed_out Hb Hm).
    + intros Hm t rest Hp.
      destruct (scan_within_limit w timed_out t rest Hb Hm Hp)
        as (w' & E & _ & _ & Hq & _ & _ & Hh).
      exists w'. auto.
  - exact ty_task_start_spawn_failure.
Qed.

(** C7, counterexample: the only worker is busy with a first task when a
    second one is started and the spawn of a second worker fails.
    [ty_task_start] returns the error, and the second task is not
    queued. *)
Lemma start_propagates_spawn_failure :
  started (pool (run_of acts_busy)) = 1
  /\ busy (pool (run_of acts_busy)) = 1
  /\ (fst <$> ty_task_start (run_of acts_busy) 1 (-1)) = Some (-1)
  /\ ((fun rw => pending_tasks (pool (snd rw)))
        <$> ty_task_start (run_of acts_busy) 1 (-1)) = Some [0%nat]
  /\ ~ start_recovers_from_spawn_failure.
Proof.
  repeat split; try (vm_compute; reflexivity).
  intros H.
  assert (E : ty_task_start (run_of acts_busy) 1 (-1)
              = Some (-1, run_of acts_busy)).
  { apply (ty_task_start_spawn_failure _ _
             {| name := "second"; status := TY_TASK_STATUS_READY; ret := 0;
                task_run := 0; task_finalize := true;
                result_cleanup := false; user_cleanup := false;
                refcount := 1 |});
      vm_compute; reflexivity. }
  assert (Hs : 0 < started (pool (run_of acts_busy)))
    by (vm_compute; reflexivity).
  destruct (H (run_of acts_busy) 1%nat (-1) (-1) (run_of acts_busy)
              Hs ltac:(lia) E) as [H0 _].
  discriminate H0.
Qed.

(** The pool of the counterexample, when the limit is raised to 32 and
    the first spawn fails: success is reported, the limit is still 16 and
    the first task is still queued. *)
Lemma spawn_failure_outcome_witness :
  fst (ty_pool_set_max_threads (run_of acts_busy) 32 [-1]) = 0
  /\ max_threads
       (pool (snd (ty_pool_set_max_threads (run_of acts_busy) 32 [-1])))
     = 16
  /\ pending_tasks
       (pool (snd (ty_pool_set_max_threads (run_of acts_busy) 32 [-1])))
     = [0%nat].
Proof.
  destruct (proj1 spawn_failure_outcome (run_of acts_busy) 32 [-1] 0%nat (-1))
    as (H1 & H2 & _ & _ & H5 & _).
  - vm_compute. reflexivity.
  - reflexivity.
  - lia.
  - intros i s Hi. lia.
  - vm_compute. lia.
  - vm_compute. reflexivity.
  - split; [exact H1 |]. split; [exact H2 | exact H5].
Defined.

(** When the limit had been lowered to zero, the call that fails to
    raise it reports success all the same; the only worker then leaves
    and the task stays queued in a pool without thread. *)
Example recovered_failure_strands_task :
  fst (ty_pool_set_max_threads
         (run_of [ANew "upload" 0 true false false; AStart 0 0; AWorkerEnter;
                  ASetMaxThreads 0 []]) 32 [-1]) = 0
  /\ max_threads (pool (run_of acts_limit_kept)) = 0
  /\ (exists w',
        task_thread_scan (run_of acts_limit_kept) false = Some (None, w')
        /\ started (pool w') = 0
        /\ pending_tasks (pool w') = [0%nat]).
Proof.
  split; [vm_compute; reflexivity |]. split; [vm_compute; reflexivity |].
  eexists. split; [vm_compute; reflexivity |]. split; reflexivity.
Qed.

(** A waiter leaves the wait loop with 1 exactly when the status has
    reached its target, and otherwise only by timing out, with 0. *)
Lemma wait_leave_result w t x s timed_out :
  tasks w !! t = Some x ->
  (rank s <= rank (status x) ->
   ty_task_wait_leave w t s timed_out = Some 1)
  /\ (rank (status x) < rank s ->
      ty_task_wait_leave w t s timed_out
      = if timed_out then Some 0 else None).
Proof.
  intros Hx. unfold ty_task_wait_leave. rewrite Hx. cbn [mbind option_bind].
  destruct (Z.leb_spec (rank s) (rank (status x))); split; intros; try lia;
    reflexivity.
Qed.











Lemma history_store_other t s u (l : list event) :
  t <> u -> history (EvStore t s :: l) u = history l u.
Proof.
  intros Hne. cbn [history]. destruct (Nat.eqb_spec t u); [congruence |].
  reflexivity.
Qed.






(** The wait overtakes the worker: the task has run once, in the waiter;
    the worker still holds it and its [run_task] fails the assertion;
    without the assertion the worker would store [RUNNING] over
    [FINISHED] and run the task again. *)
Example worker_overtaken_by_wait :
  exec initial_world acts_overtaken = Some (run_of acts_overtaken)
  /\ held (run_of acts_overtaken) = [0%nat]
  /\ history (log (run_of acts_overtaken)) 0
     = [TY_TASK_STATUS_READY; TY_TASK_STATUS_PENDING; TY_TASK_STATUS_READY;
        TY_TASK_STATUS_RUNNING; TY_TASK_STATUS_FINISHED]
  /\ step (run_of acts_overtaken) (AWorkerRun 0) = None
  /\ ((fun w => history (log w) 0)
        <$> run_task_body (run_of acts_overtaken) 0)
     = Some [TY_TASK_STATUS_READY; TY_TASK_STATUS_PENDING;
             TY_TASK_STATUS_READY; TY_TASK_STATUS_RUNNING;
             TY_TASK_STATUS_FINISHED; TY_TASK_STATUS_RUNNING;
             TY_TASK_STATUS_FINISHED].
Proof.
  split; [vm_compute; reflexivity |]. split; [vm_compute; reflexivity |].
  split; [vm_compute; reflexivity |]. split; vm_compute; reflexivity.
Qed.



(** A worker takes the task, runs it and drops the queue's reference;
    the submitter's release then finds finalize cleared. *)
Example finalize_once_on_worker :
  log (run_of [ANew "upload" 0 true false false; AStart 0 0; AWorkerEnter;
               AWorkerScan false; AWorkerRun 0; AUnref 0])
  = [EvNew 0 true; EvStore 0 TY_TASK_STATUS_READY;
     EvStore 0 TY_TASK_STATUS_PENDING; EvMessage 0 TY_TASK_STATUS_PENDING;
     EvStore 0 TY_TASK_STATUS_RUNNING; EvMessage 0 TY_TASK_STATUS_RUNNING;
     EvRun 0; EvFinalize 0;
     EvStore 0 TY_TASK_STATUS_FINISHED; EvMessage 0 TY_TASK_STATUS_FINISHED;
     EvFree 0].
Proof. vm_compute. reflexivity. Qed.

End TaskFacts.
(* ===================================================================== *)
(** * Part III: further properties                                        *)
(* ===================================================================== *)

(** ** The model table and the signature scan *)

Module RegistryFacts.
Import CLib Board Statements BoardStatements.

Lemma find_key_distinct l md nm :
  keys_distinct l -> In md l -> nm = name md \/ nm = mcu md ->
  find (model_key nm) l = Some md.
Proof.
  induction l as [|a l IH]; simpl; [contradiction |].
  intros [Ha Hl] [-> | Hin] Hnm.
  - unfold model_key.
    destruct Hnm as [-> | ->]; rewrite String.eqb_refl;
      [reflexivity | now rewrite orb_true_r].
  - rewrite Forall_forall in Ha.
    apply list_elem_of_In in Hin as Hin'.
    destruct (Ha md Hin') as (H1 & H2 & H3 & H4).
    unfold model_key at 1.
    destruct Hnm as [-> | ->].
    + apply String.eqb_neq in H1, H3. rewrite H1, H3. simpl. now apply IH; [| | left].
    + apply String.eqb_neq in H2, H4. rewrite H2, H4. simpl. now apply IH; [| | right].
Qed.

(** X1: when no two models of the table share a name or a
    microcontroller, [ty_board_find_model] finds every model of the table
    under its name and under its microcontroller. *)
Theorem find_model_finds_registered R md :
  keys_distinct (ty_board_models R) -> In md (ty_board_models R) ->
  ty_board_find_model R (name md) = Some md
  /\ ty_board_find_model R (mcu md) = Some md.
Proof.
  intros Hk Hin. unfold ty_board_find_model.
  split; apply (find_key_distinct _ md); auto.
Qed.

Lemma find_model_finds_registered_witness :
  ty_board_find_model Sample.registry "teensy31"
  = Some (_ty_teensy_31_model Sample.registry)
  /\ ty_board_find_model Sample.registry "mk20dx256"
     = Some (_ty_teensy_31_model Sample.registry).
Proof.
  apply (find_model_finds_registered Sample.registry
           (_ty_teensy_31_model Sample.registry)).
  - simpl. repeat split; repeat constructor; simpl; try discriminate.
  - simpl. tauto.
Defined.

(** X2: the model [ty_board_find_model] returns is a model of the table
    whose name or microcontroller is the text asked for, and it returns
    none only when no model of the table has that name or that
    microcontroller. *)
Theorem find_model_result R nm :
  match ty_board_find_model R nm with
  | Some md => In md (ty_board_models R) /\ (name md = nm \/ mcu md = nm)
  | None => forall md, In md (ty_board_models R) ->
                       name md <> nm /\ mcu md <> nm
  end.
Proof.
  unfold ty_board_find_model.
  destruct (find _ (ty_board_models R)) as [md|] eqn:E.
  - apply find_some in E. destruct E as [Hin Hk]. split; [exact Hin |].
    apply orb_true_iff in Hk. destruct Hk as [Hk | Hk];
      apply String.eqb_eq in Hk; auto.
  - intros md Hin. pose proof (find_none _ _ E md Hin) as Hk. simpl in Hk.
    apply orb_false_iff in Hk. destruct Hk as [H1 H2].
    apply String.eqb_neq in H1, H2. now split.
Qed.

Lemma match_signature_gen sigs w md :
  Forall (fun s => length (magic s) = 8%nat) sigs ->
  List.NoDup (map magic sigs) ->
  match_signature w sigs = Some md <->
  exists sig, In sig sigs /\ take 8 w = magic sig /\ sig_model sig = md.
Proof.
  induction sigs as [|s rest IH]; simpl; intros Hlen Hnd.
  - split; [discriminate | intros (? & [] & _)].
  - inversion Hlen as [|? ? Hs Hrest]; subst.
    inversion Hnd as [|? ? Hnotin Hnd']; subst.
    unfold memcmp_eq. change (Z.to_nat magic_size) with 8%nat.
    rewrite (take_ge (magic s)) by lia.
    case_bool_decide as Hd.
    + split.
      * intros [= <-]. exists s. auto.
      * intros (sig & [<- | Hin] & Hw & <-); [reflexivity |].
        exfalso. apply Hnotin. rewrite <- Hd, Hw. now apply in_map.
    + rewrite (IH Hrest Hnd'). split.
      * intros (sig & Hin & Hw & Hmd). exists sig. auto.
      * intros (sig & [<- | Hin] & Hw & Hmd); [contradiction |].
        exists sig. auto.
Qed.

Lemma signatures_wf R :
  Forall (fun s => length (magic s) = 8%nat) (signatures R)
  /\ List.NoDup (map magic (signatures R)).
Proof.
  split.
  - unfold signatures. repeat constructor.
  - unfold signatures. simpl.
    repeat (constructor; [simpl; intros H;
      repeat (destruct H as [H | H]; [discriminate H |]); exact H |]).
    constructor.
Qed.

Lemma match_signature_spec R w md :
  match_signature w (signatures R) = Some md <->
  exists sig, In sig (signatures R) /\ take 8 w = magic sig
              /\ sig_model sig = md.
Proof.
  destruct (signatures_wf R) as [Hlen Hnd].
  now apply match_signature_gen.
Qed.

Lemma match_signature_none R w :
  match_signature w (signatures R) = None <->
  forall sig, In sig (signatures R) -> take 8 w <> magic sig.
Proof.
  split.
  - intros Hn sig Hin Hw.
    assert (match_signature w (signatures R) = Some (sig_model sig))
      by (apply match_signature_spec; eauto).
    congruence.
  - intros H. destruct (match_signature w (signatures R)) as [md|] eqn:E;
      [| reflexivity].
    apply match_signature_spec in E. destruct E as (sig & Hin & Hw & _).
    exfalso. exact (H sig Hin Hw).
Qed.

Lemma scan_image_hit sigs img steps : forall i m,
  scan_image sigs img i steps = Some m <->
  exists k, (k < steps)%nat
            /\ match_signature (drop (i + k) img) sigs = Some m
            /\ forall j, (j < k)%nat ->
                 match_signature (drop (i + j) img) sigs = None.
Proof.
  induction steps as [|n IH]; intros i m; simpl.
  - split; [discriminate | intros (k & Hk & _); lia].
  - destruct (match_signature (drop i img) sigs) as [m0|] eqn:E.
    + split.
      * intros [= <-]. exists O. rewrite Nat.add_0_r.
        repeat split; [lia | assumption | intros j Hj; lia].
      * intros (k & Hk & Hm & Hfirst). destruct k as [|k].
        -- rewrite Nat.add_0_r in Hm. congruence.
        -- specialize (Hfirst O ltac:(lia)). rewrite Nat.add_0_r in Hfirst.
           congruence.
    + rewrite IH. split.
      * intros (k & Hk & Hm & Hfirst). exists (S k).
        replace (i + S k)%nat with (S i + k)%nat by lia.
        repeat split; [lia | assumption |].
        intros [|j] Hj.
        -- rewrite Nat.add_0_r. assumption.
        -- replace (i + S j)%nat with (S i + j)%nat by lia.
           apply Hfirst. lia.
      * intros (k & Hk & Hm & Hfirst). destruct k as [|k].
        -- rewrite Nat.add_0_r in Hm. congruence.
        -- exists k. replace (S i + k)%nat with (i + S k)%nat by lia.
           repeat split; [lia | assumption |].
           intros j Hj. replace (S i + j)%nat with (i + S j)%nat by lia.
           apply Hfirst. lia.
Qed.

(** X3: [ty_board_test_firmware] returns the model [md] exactly when a
    signature of [md] stands at an offset [k] with [k + 8] below the size
    of the image and no signature of the table stands at an earlier
    offset.  The offset of the last window, [size - 8], is not looked
    at. *)
Theorem test_firmware_first_hit R f md :
  ty_board_test_firmware R f = Some md <->
  exists k sig,
    (k + 8 < length (image f))%nat
    /\ matches_at R f k sig /\ sig_model sig = md
    /\ forall j sig', (j < k)%nat -> ~ matches_at R f j sig'.
Proof.
  unfold ty_board_test_firmware, size, magic_size.
  destruct (Z.ltb_spec (Z.of_nat (length (image f))) 8) as [Hs | Hs].
  - split; [discriminate |]. intros (k & _ & Hk & _). lia.
  - rewrite scan_image_hit. cbn [Nat.add]. split.
    + intros (k & Hk & Hm & Hfirst).
      apply match_signature_spec in Hm. destruct Hm as (sig & Hin & Hw & Hmd).
      exists k, sig. repeat split; try assumption; [lia |].
      intros j sig' Hj [Hin' Hw'].
      specialize (Hfirst j Hj).
      rewrite match_signature_none in Hfirst. exact (Hfirst sig' Hin' Hw').
    + intros (k & sig & Hk & [Hin Hw] & Hmd & Hfirst).
      exists k. repeat split; [lia | |].
      * apply match_signature_spec. eauto.
      * intros j Hj. apply match_signature_none. intros sig' Hin' Hw'.
        exact (Hfirst j sig' Hj (conj Hin' Hw')).
Qed.

End RegistryFacts.

(** ** The callback registry *)

Module ListenerFacts.
Import Board Statements BoardStatements.

Lemma deregister_loop_filter cbs i :
  List.NoDup (map cb_id cbs) ->
  deregister_loop cbs i = List.filter (fun cb => negb (cb_id cb =? i)) cbs.
Proof.
  induction cbs as [|cb cbs IH]; simpl; intros Hnd; [reflexivity |].
  inversion Hnd as [|? ? Hnotin Hnd']; subst.
  destruct (Z.eqb_spec (cb_id cb) i) as [<- | Hne]; simpl.
  - symmetry. apply forallb_filter_id. apply forallb_forall.
    intros x Hx. apply negb_true_iff, Z.eqb_neq. intros Heq.
    apply Hnotin. rewrite <- Heq. now apply in_map.
  - now rewrite IH.
Qed.

Lemma trigger_loop_kept cbs board event :
  forall cb, In cb (snd (fst (trigger_loop cbs board event))) -> In cb cbs.
Proof.
  induction cbs as [|c cbs IH]; simpl; [easy |].
  destruct (cb_f c board event <? 0); [easy |].
  destruct (trigger_loop cbs board event) as [[r kept] calls]. simpl in *.
  intros cb. destruct (cb_f c board event =? 0); simpl; intuition.
Qed.

Lemma trigger_loop_kept_nodup cbs board event :
  List.NoDup (map cb_id cbs) ->
  List.NoDup (map cb_id (snd (fst (trigger_loop cbs board event)))).
Proof.
  induction cbs as [|c cbs IH]; simpl; intros Hnd; [constructor |].
  destruct (cb_f c board event <? 0); [exact Hnd |].
  inversion Hnd as [|? ? Hnotin Hnd']; subst.
  pose proof (trigger_loop_kept cbs board event) as Hsub.
  destruct (trigger_loop cbs board event) as [[r kept] calls]. simpl in *.
  destruct (cb_f c board event =? 0); simpl; [| now apply IH].
  constructor; [| now apply IH].
  intros Hin. apply Hnotin. apply in_map_iff in Hin.
  destruct Hin as (x & Hx & Hin). apply in_map_iff. exists x.
  split; [exact Hx | now apply Hsub].
Qed.

(** X4: as long as the id counter has not reached [INT_MAX],
    registering, deregistering and delivering an event keep the ids of
    the registered callbacks distinct and below the next id, and the
    counter stays an [int]. *)
Theorem callback_ids_stay_fresh m fn i board event :
  callbacks_ok m ->
  callback_id m < CLib.INT_MAX ->
  callbacks_ok (snd (ty_board_manager_register_callback m fn))
  /\ callback_id (snd (ty_board_manager_register_callback m fn))
     <= CLib.INT_MAX
  /\ callbacks_ok (ty_board_manager_deregister_callback m i)
  /\ callbacks_ok (snd (fst (trigger_callbacks m board event))).
Proof.
  intros [Hlt Hnd] Hmax. split; [| split; [| split]].
  2:{ cbn [ty_board_manager_register_callback snd callback_id]. lia. }
  - unfold ty_board_manager_register_callback, callbacks_ok. simpl. split.
    + apply Forall_app. split.
      * eapply Forall_impl; [exact Hlt |]. simpl. intros; lia.
      * constructor; [simpl; lia | constructor].
    + rewrite map_app. simpl.
      apply NoDup_ListNoDup. apply NoDup_app. repeat split.
      * now apply NoDup_ListNoDup.
      * intros x Hx Hx'. apply list_elem_of_In in Hx.
        apply in_map_iff in Hx. destruct Hx as (cb & <- & Hin).
        rewrite Forall_forall in Hlt. apply list_elem_of_In in Hin.
        specialize (Hlt cb Hin). simpl in Hlt.
        apply list_elem_of_In in Hx'. destruct Hx' as [Hx' | []]. lia.
      * apply NoDup_ListNoDup. constructor; [easy | constructor].
  - unfold ty_board_manager_deregister_callback, callbacks_ok. simpl.
    rewrite (deregister_loop_filter _ _ Hnd). split.
    + apply Forall_forall. intros cb Hin. apply list_elem_of_In in Hin.
      apply filter_In in Hin. rewrite Forall_forall in Hlt.
      apply Hlt. apply list_elem_of_In. tauto.
    + clear Hlt. induction (callbacks m) as [|c l IH]; simpl;
        [constructor |].
      inversion Hnd as [|? ? Hnotin Hnd']; subst.
      destruct (negb (cb_id c =? i)); simpl; [| now apply IH].
      constructor; [| now apply IH].
      intros Hin. apply Hnotin. apply in_map_iff in Hin.
      destruct Hin as (x & Hx & Hin). apply filter_In in Hin.
      apply in_map_iff. exists x. tauto.
  - unfold trigger_callbacks, callbacks_ok.
    pose proof (trigger_loop_kept (callbacks m) board event) as Hsub.
    pose proof (trigger_loop_kept_nodup (callbacks m) board event Hnd) as Hnd'.
    destruct (trigger_loop (callbacks m) board event) as [[r kept] calls].
    simpl in *. split; [| exact Hnd'].
    apply Forall_forall. intros cb Hin. rewrite Forall_forall in Hlt.
    apply Hlt. apply list_elem_of_In. apply Hsub. now apply list_elem_of_In.
Qed.

Lemma callback_ids_stay_fresh_witness :
  callbacks_ok
    (snd (ty_board_manager_register_callback
            (Sample.manager_with [Sample.cb_stay 0; Sample.cb_once 1])
            (fun _ _ => 0)))
  /\ callbacks_ok
       (snd (fst (trigger_callbacks
                    (Sample.manager_with [Sample.cb_stay 0; Sample.cb_once 1])
                    Sample.board_1234 TY_BOARD_EVENT_ADDED))).
Proof.
  destruct (callback_ids_stay_fresh
              (Sample.manager_with [Sample.cb_stay 0; Sample.cb_once 1])
              (fun _ _ => 0) 0 Sample.board_1234 TY_BOARD_EVENT_ADDED)
    as (H1 & _ & _ & H3).
  - split.
    + repeat constructor.
    + repeat constructor; simpl; intuition discriminate.
  - reflexivity.
  - split; assumption.
Defined.

(** X5: deregistering the id [ty_board_manager_register_callback]
    returned gives back the callback list as it was before the
    registration. *)
Theorem register_then_deregister m fn :
  callbacks_ok m ->
  callbacks
    (ty_board_manager_deregister_callback
       (snd (ty_board_manager_register_callback m fn))
       (fst (ty_board_manager_register_callback m fn)))
  = callbacks m.
Proof.
  intros [Hlt _]. unfold ty_board_manager_register_callback,
    ty_board_manager_deregister_callback. simpl.
  induction (callbacks m) as [|c l IH]; simpl.
  - now rewrite Z.eqb_refl.
  - inversion Hlt as [|? ? Hc Hl]; subst.
    destruct (Z.eqb_spec (cb_id c) (callback_id m)); [lia |].
    now rewrite IH.
Qed.

Lemma register_then_deregister_witness :
  callbacks
    (ty_board_manager_deregister_callback
       (snd (ty_board_manager_register_callback
               (Sample.manager_with [Sample.cb_stay 0; Sample.cb_once 1])
               (fun _ _ => 0)))
       (fst (ty_board_manager_register_callback
               (Sample.manager_with [Sample.cb_stay 0; Sample.cb_once 1])
               (fun _ _ => 0))))
  = [Sample.cb_stay 0; Sample.cb_once 1].
Proof.
  apply (register_then_deregister
           (Sample.manager_with [Sample.cb_stay 0; Sample.cb_once 1])).
  split.
  - repeat constructor.
  - repeat constructor; simpl; intuition discriminate.
Defined.

(** X6: with distinct ids, [ty_board_manager_deregister_callback] removes
    the callback registered under the id and no other; an id that is not
    registered leaves the list as it is. *)
Theorem deregister_removes_that_callback m i :
  callbacks_ok m ->
  callbacks (ty_board_manager_deregister_callback m i)
  = List.filter (fun cb => negb (cb_id cb =? i)) (callbacks m).
Proof.
  intros [_ Hnd]. unfold ty_board_manager_deregister_callback. simpl.
  now apply deregister_loop_filter.
Qed.

Lemma deregister_removes_that_callback_witness :
  callbacks
    (ty_board_manager_deregister_callback
       (Sample.manager_with [Sample.cb_stay 0; Sample.cb_once 1]) 0)
  = [Sample.cb_once 1]
  /\ callbacks
       (ty_board_manager_deregister_callback
          (Sample.manager_with [Sample.cb_stay 0; Sample.cb_once 1]) 5)
     = [Sample.cb_stay 0; Sample.cb_once 1].
Proof.
  assert (Hok : callbacks_ok
                  (Sample.manager_with [Sample.cb_stay 0; Sample.cb_once 1])).
  { split.
    - repeat constructor.
    - repeat constructor; simpl; intuition discriminate. }
  split.
  - rewrite (deregister_removes_that_callback _ 0 Hok). reflexivity.
  - rewrite (deregister_removes_that_callback _ 5 Hok). reflexivity.
Defined.

End ListenerFacts.

(** ** Enumeration of boards and interfaces *)

Module EnumerationFacts.
Import Board Statements BoardStatements.

Lemma list_boards_loop_all bs fn :
  Forall (fun b => fn b TY_BOARD_EVENT_ADDED = 0) (List.filter is_online bs) ->
  list_boards_loop bs fn = (0, List.filter is_online bs).
Proof.
  induction bs as [|b bs IH]; cbn [list_boards_loop List.filter];
    [reflexivity |].
  destruct (state b) eqn:E;
    first [ assert (Ho : is_online b = false)
              by (unfold is_online; now rewrite E)
          | assert (Ho : is_online b = true)
              by (unfold is_online; now rewrite E) ];
    rewrite Ho; auto.
  intros H. inversion H as [|? ? Hb Hrest]; subst.
  rewrite Hb. simpl. now rewrite (IH Hrest).
Qed.

Lemma list_boards_loop_stop bs fn : forall pre b post,
  List.filter is_online bs = pre ++ b :: post ->
  Forall (fun b => fn b TY_BOARD_EVENT_ADDED = 0) pre ->
  fn b TY_BOARD_EVENT_ADDED <> 0 ->
  list_boards_loop bs fn = (fn b TY_BOARD_EVENT_ADDED, pre ++ [b]).
Proof.
  induction bs as [|c bs IH]; cbn [list_boards_loop List.filter];
    intros pre b post Hf Hpre Hb.
  - destruct pre; discriminate.
  - destruct (state c) eqn:E;
      first [ assert (Ho : is_online c = false)
              by (unfold is_online; now rewrite E)
          | assert (Ho : is_online c = true)
              by (unfold is_online; now rewrite E) ];
      rewrite Ho in Hf; try (now apply (IH pre b post)).
    destruct pre as [|p pre]; simpl in Hf; injection Hf as -> Hf.
    + apply Z.eqb_neq in Hb. now rewrite Hb.
    + inversion Hpre as [|? ? Hc Hrest]; subst. rewrite Hc. simpl.
      now rewrite (IH pre b post Hf Hrest Hb).
Qed.

(** X7: when the function returns zero for every online board,
    [ty_board_manager_list] calls it on the online boards, in list
    order, and on no other board, and returns zero. *)
Theorem manager_list_visits_online_boards m fn :
  Forall (fun b => fn b TY_BOARD_EVENT_ADDED = 0) (online m) ->
  ty_board_manager_list m fn = (0, online m).
Proof. apply list_boards_loop_all. Qed.

Lemma manager_list_visits_online_boards_witness :
  ty_board_manager_list two_boards (fun _ _ => 0)
  = (0, [Sample.board 8 None]).
Proof.
  apply (manager_list_visits_online_boards two_boards (fun _ _ => 0)).
  repeat constructor.
Defined.

(** X8: [ty_board_manager_list] stops at the first online board for
    which the function returns non-zero and returns that value; the
    boards after it are not visited. *)
Theorem manager_list_stops_at_first_nonzero m fn pre b post :
  online m = pre ++ b :: post ->
  Forall (fun b => fn b TY_BOARD_EVENT_ADDED = 0) pre ->
  fn b TY_BOARD_EVENT_ADDED <> 0 ->
  ty_board_manager_list m fn = (fn b TY_BOARD_EVENT_ADDED, pre ++ [b]).
Proof. apply list_boards_loop_stop. Qed.

Lemma manager_list_stops_at_first_nonzero_witness :
  ty_board_manager_list
    (set_boards Sample.empty_manager
                [Sample.board_1234; Sample.board 8 None; Sample.board 1 None])
    (fun b _ => capabilities b - 1)
  = (7, [Sample.board 8 None]).
Proof.
  apply (manager_list_stops_at_first_nonzero
           (set_boards Sample.empty_manager
              [Sample.board_1234; Sample.board 8 None; Sample.board 1 None])
           (fun b _ => capabilities b - 1)
           [] (Sample.board 8 None) [Sample.board 1 None]).
  - reflexivity.
  - constructor.
  - discriminate.
Defined.

(** X9: [ty_board_list_interfaces] calls the function on the
    interfaces of the board in list order; it goes through all of them
    and returns zero when every call returns zero, and stops at the
    first call that returns non-zero, returning that value. *)
Theorem list_interfaces_stops_at_first_nonzero board fn :
  (Forall (fun i => fn i = 0) (interfaces board) ->
   ty_board_list_interfaces board fn = (0, interfaces board))
  /\ (forall pre i post,
        interfaces board = pre ++ i :: post ->
        Forall (fun i => fn i = 0) pre -> fn i <> 0 ->
        ty_board_list_interfaces board fn = (fn i, pre ++ [i])).
Proof.
  unfold ty_board_list_interfaces. split.
  - induction (interfaces board) as [|i l IH]; simpl; [reflexivity |].
    intros H. inversion H as [|? ? Hi Hl]; subst. rewrite Hi. simpl.
    now rewrite (IH Hl).
  - induction (interfaces board) as [|c l IH]; simpl; intros pre i post He Hpre Hi.
    + destruct pre; discriminate.
    + destruct pre as [|p pre]; simpl in He; injection He as -> He.
      * apply Z.eqb_neq in Hi. now rewrite Hi.
      * apply Forall_cons in Hpre as [Hc Hrest]. rewrite Hc. simpl.
        now rewrite (IH pre i post He Hrest Hi).
Qed.

End EnumerationFacts.

(** ** Device events *)

Module HotplugFacts.
Import CLib Board Statements BoardStatements IdentityFacts ManagerFacts.

Lemma open_with_vendors_declined vendors : forall iface,
  Forall declines vendors ->
  open_with_vendors vendors iface = (0, None).
Proof.
  induction vendors as [|v rest IH]; simpl; intros iface H; [reflexivity |].
  inversion H as [|? ? Hv Hrest]; subst.
  specialize (Hv iface). destruct (v iface) as [r i']. simpl in Hv. subst r.
  simpl. now apply IH.
Qed.

Lemma open_with_vendors_error pre v post r : forall iface,
  Forall declines pre ->
  (forall i, fst (v i) = r) -> r < 0 -> r <> ty_error TY_ERROR_NOT_FOUND ->
  open_with_vendors (pre ++ v :: post) iface = (r, None).
Proof.
  induction pre as [|p pre IH]; cbn [app open_with_vendors];
    intros iface Hpre Hv Hneg Hnf.
  - specialize (Hv iface). destruct (v iface) as [r' i']. simpl in Hv. subst r'.
    destruct (Z.ltb_spec r 0); [| lia].
    destruct (Z.eqb_spec r (ty_error TY_ERROR_NOT_FOUND)); [contradiction |].
    reflexivity.
  - inversion Hpre as [|? ? Hp Hrest]; subst.
    specialize (Hp iface). destruct (p iface) as [r' i']. simpl in Hp. subst r'.
    simpl. now apply IH.
Qed.

(** X10: a device that no vendor driver recognises is ignored by
    [add_interface]: it returns zero, the manager is unchanged and no
    callback is called. *)
Theorem add_interface_ignores_unclaimed_device vendors m dev :
  Forall declines vendors ->
  add_interface vendors m dev = (0, m, []).
Proof.
  intros H. unfold add_interface, open_interface.
  now rewrite open_with_vendors_declined.
Qed.

Lemma add_interface_ignores_unclaimed_device_witness :
  add_interface [fun i => (0, i); fun i => (0, i)] Sample.manager_serial0
                (Sample.device 8 0x16C0 0x483 None)
  = (0, Sample.manager_serial0, []).
Proof.
  apply add_interface_ignores_unclaimed_device.
  repeat constructor.
Defined.

(** X11: when a vendor driver fails with an error other than
    [TY_ERROR_NOT_FOUND], after the drivers before it have declined,
    [add_interface] returns that error and leaves the manager unchanged;
    the drivers after it are not asked. *)
Theorem add_interface_returns_vendor_error pre v post r m dev :
  Forall declines pre ->
  (forall i, fst (v i) = r) -> r < 0 -> r <> ty_error TY_ERROR_NOT_FOUND ->
  add_interface (pre ++ v :: post) m dev = (r, m, []).
Proof.
  intros Hpre Hv Hneg Hnf. unfold add_interface, open_interface.
  now rewrite (open_with_vendors_error pre v post r).
Qed.

Lemma add_interface_returns_vendor_error_witness :
  add_interface [fun i => (0, i); fun i => (ty_error TY_ERROR_IO, i);
                 Sample.vendor_teensy31 8]
                Sample.empty_manager (Sample.device 8 0x16C0 0x483 None)
  = (ty_error TY_ERROR_IO, Sample.empty_manager, []).
Proof.
  apply (add_interface_returns_vendor_error
           [fun i => (0, i)] (fun i => (ty_error TY_ERROR_IO, i))
           [Sample.vendor_teensy31 8]).
  - repeat constructor.
  - reflexivity.
  - reflexivity.
  - discriminate.
Defined.

Lemma boards_trigger m board event :
  boards (snd (fst (trigger_callbacks m board event))) = boards m.
Proof.
  destruct (trigger_callbacks_frame m board event) as (r & kept & calls & E).
  now rewrite E.
Qed.

Lemma In_store_board m b x :
  In x (boards (store_board m b)) ->
  x = b \/ (In x (boards m) /\ board_id x <> board_id b).
Proof.
  unfold store_board. cbn [boards set_boards]. intros H.
  apply in_map_iff in H. destruct H as (y & Hy & Hin).
  destruct (Nat.eqb_spec (board_id y) (board_id b)); subst; auto.
Qed.

Lemma In_drop_board m b x :
  In x (boards (fst (fst (drop_board m b)))) ->
  In x (boards m) /\ board_id x <> board_id b.
Proof.
  unfold drop_board. frame_trigger. cbn [fst boards set_boards set_callbacks
    set_missing_boards]. intros H. apply list_elem_of_In in H.
  apply list_elem_of_filter in H. destruct H as [Hne H].
  split; [now apply list_elem_of_In | exact Hne].
Qed.

Lemma close_board_result m b :
  snd (fst (close_board m b)) = close_of b
  /\ forall x, In x (boards (fst (fst (close_board m b)))) ->
       x = close_of b \/ (In x (boards m) /\ board_id x <> board_id b).
Proof.
  unfold close_board. frame_trigger. cbn [fst snd]. split; [reflexivity |].
  intros x H. apply In_store_board in H. exact H.
Qed.

Lemma add_interface_boards vendors m dev b' :
  In b' (boards (snd (fst (add_interface vendors m dev)))) ->
  In b' (boards m)
  \/ exists r iface, open_interface vendors dev = (r, Some iface)
                     /\ attached_to m dev iface b'.
Proof.
  unfold add_interface.
  destruct (open_interface vendors dev) as [r [iface|]] eqn:Hopen;
    [| now left].
  intros H.
  assert (Hgen : In b' (boards m) \/ attached_to m dev iface b');
    [| destruct Hgen; [now left | right; eauto]].
  revert H.
  destruct (find_board m (dev_location dev)) as [b|] eqn:Hfind.
  - pose proof (find_board_In _ _ _ Hfind) as Hin.
    destruct (board_replaced iface b) eqn:Hrep.
    + destruct (drop_board m b) as [[m' bd] calls] eqn:Hdrop.
      pose proof (In_drop_board m b) as Hd. rewrite Hdrop in Hd. cbn [fst] in Hd.
      cbn [add_board fst snd]. frame_trigger. cbn [fst snd].
      intros H. apply In_store_board in H. destruct H as [-> | [H Hne]].
      * right. left. exists m'. reflexivity.
      * cbn [boards set_missing_boards set_interfaces_table] in H.
        apply in_app_or in H. destruct H as [H | [<- | []]].
        -- left. now apply Hd.
        -- exfalso. apply Hne. reflexivity.
    + destruct (negb (vid b =? dev_vid dev) || negb (pid b =? dev_pid dev)).
      * destruct (close_board m b) as [[m' bc] calls] eqn:Hclose.
        pose proof (close_board_result m b) as [Hbc Hc].
        rewrite Hclose in Hbc, Hc. cbn [fst snd] in Hbc, Hc. subst bc.
        frame_trigger. cbn [fst snd].
        intros H. apply In_store_board in H. destruct H as [-> | [H Hne]].
        -- right. right. exists b. repeat split; auto.
        -- cbn [boards set_missing_boards set_interfaces_table] in H.
           apply Hc in H. destruct H as [-> | [H _]].
           ++ exfalso. apply Hne. reflexivity.
           ++ now left.
      * frame_trigger. cbn [fst snd].
        intros H. apply In_store_board in H. destruct H as [-> | [H Hne]].
        -- right. right. exists b. repeat split; auto.
        -- now left.
  - cbn [add_board fst snd]. frame_trigger. cbn [fst snd].
    intros H. apply In_store_board in H. destruct H as [-> | [H Hne]].
    + right. left. exists m. reflexivity.
    + cbn [boards set_missing_boards set_interfaces_table] in H.
      apply in_app_or in H. destruct H as [H | [<- | []]].
      * now left.
      * exfalso. apply Hne. reflexivity.
Qed.

Lemma remove_interface_boards m dev now b' :
  In b' (boards (snd (fst (remove_interface m dev now)))) ->
  In b' (boards m)
  \/ exists iface b, find_interface m dev = Some iface /\ In b (boards m)
                     /\ iface_board iface = Some (board_id b)
                     /\ detached_from now iface b b'.
Proof.
  unfold remove_interface.
  destruct (find_interface m dev) as [iface|] eqn:Hfi; [| now left].
  destruct (find _ (boards m)) as [b|] eqn:Hfind; [| now left].
  apply find_some in Hfind. destruct Hfind as [Hin Hid].
  apply bool_decide_eq_true in Hid.
  intros H.
  assert (Hgen : In b' (boards m) \/ detached_from now iface b b');
    [| destruct Hgen; [now left | right; exists iface, b; auto]].
  revert H. unfold detached_from. cbn [detach_of interfaces].
  destruct (unlink_interface iface (interfaces b)) as [|i0 rest0] eqn:Hrest.
  - match goal with |- context [close_board ?m1 ?b1] =>
      pose proof (close_board_result m1 b1) as [Hbc Hc];
      destruct (close_board m1 b1) as [[m2 board2] calls] end.
    cbn [fst snd] in Hbc, Hc. subst board2.
    unfold add_missing_board. cbn [fst snd boards set_timer set_missing_boards].
    intros H. apply In_store_board in H. destruct H as [-> | [H Hne]].
    + right. reflexivity.
    + apply Hc in H. destruct H as [-> | [H _]].
      * exfalso. apply Hne. reflexivity.
      * now left.
  - frame_trigger. cbn [fst snd boards set_callbacks].
    intros H. apply In_store_board in H. destruct H as [-> | [H Hne]].
    + right. unfold detach_of. rewrite Hrest. reflexivity.
    + now left.
Qed.

Lemma retain_of_serial iface b :
  board_replaced iface b = false -> serial (retain_of iface b) = serial b.
Proof.
  unfold board_replaced. rewrite orb_false_iff, negb_false_iff.
  intros [_ H]. apply Z.eqb_eq in H. cbn [retain_of serial].
  destruct (iface_serial iface =? 0); congruence.
Qed.

Lemma identity_wf_attached m dev iface b' :
  Forall identity_wf (boards m) -> attached_to m dev iface b' -> identity_wf b'.
Proof.
  intros Hall [[m1 ->] | (b & Hin & Hrep & Hb')].
  - reflexivity.
  - rewrite Forall_forall in Hall. apply list_elem_of_In in Hin.
    specialize (Hall b Hin). unfold identity_wf in *.
    destruct Hb' as [-> | ->].
    + change (identity b = location b +:+ "#"
                           +:+ fmt_u64 (serial (retain_of iface b))).
      now rewrite retain_of_serial.
    + change (identity b = location b +:+ "#"
                           +:+ fmt_u64 (serial (retain_of iface b))).
      now rewrite retain_of_serial.
Qed.

Lemma identity_wf_detached now iface b b' :
  identity_wf b -> detached_from now iface b b' -> identity_wf b'.
Proof.
  unfold detached_from. intros Hb.
  destruct (interfaces (detach_of iface b)); intros ->; exact Hb.
Qed.

(** X12: a device event keeps the identity of every linked board equal
    to its location, ['#'] and its serial number in decimal. *)
Theorem identity_names_location_and_serial vendors m dev event now :
  Forall identity_wf (boards m) ->
  Forall identity_wf
         (boards (snd (fst (device_callback vendors m dev event now)))).
Proof.
  intros Hall. apply Forall_forall. intros b' Hin.
  apply list_elem_of_In in Hin. destruct event; cbn [device_callback] in Hin.
  - apply add_interface_boards in Hin.
    destruct Hin as [Hin | (r & iface & _ & Hatt)].
    + rewrite Forall_forall in Hall. apply Hall. now apply list_elem_of_In.
    + exact (identity_wf_attached _ _ _ _ Hall Hatt).
  - apply remove_interface_boards in Hin.
    destruct Hin as [Hin | (iface & b & _ & Hb & _ & Hdet)].
    + rewrite Forall_forall in Hall. apply Hall. now apply list_elem_of_In.
    + rewrite Forall_forall in Hall. apply list_elem_of_In in Hb.
      exact (identity_wf_detached _ _ _ _ (Hall b Hb) Hdet).
Qed.

Lemma identity_names_location_and_serial_witness :
  Forall identity_wf
         (boards (snd (fst (device_callback [Sample.vendor_teensy31 1]
                              Sample.manager_serial0
                              (Sample.device 8 0x16C0 0x483 None)
                              TY_DEVICE_EVENT_ADDED 0)))).
Proof.
  apply identity_names_location_and_serial.
  repeat constructor.
Defined.

Lemma manager_serial0_single_entry :
  single_entry Sample.manager_serial0 (Sample.device 7 0x16C0 0x483 None).
Proof.
  split.
  - cbn. constructor; [intros [] | constructor].
  - intros iface H. vm_compute in H. injection H as <-.
    split; [reflexivity |].
    eexists. split; [left; reflexivity |]. split; reflexivity.
Qed.

Lemma state_ok_attached m dev iface b' :
  attached_to m dev iface b' -> state_ok b'.
Proof.
  intros [[m1 ->] | (b & _ & _ & [-> | ->])]; unfold state_ok;
    cbn [attach_of state interfaces]; intros H;
    (destruct (interfaces _); discriminate H) || idtac.
  all: try (now destruct (interfaces b)).
  all: discriminate H.
Qed.

Lemma state_ok_detached now iface b b' :
  state_ok b -> detached_from now iface b b' -> state_ok b'.
Proof.
  unfold detached_from, state_ok. intros Hb.
  destruct (interfaces (detach_of iface b)) as [|i l] eqn:E; intros ->.
  - cbn. auto.
  - cbn [detach_of state interfaces] in *. rewrite E.
    destruct (state b); [exact Hb | | discriminate].
    destruct Hb as [Hb _]. rewrite Hb in E. discriminate E.
Qed.

(** X13: a device event keeps every linked board either online with at
    least one interface, or missing with no interface and no
    capability; no linked board is in the dropped state.  For the
    removal of a device, the device has one entry in the device table,
    for an interface of a linked board. *)
Theorem linked_boards_online_or_missing vendors m dev event now :
  Forall state_ok (boards m) ->
  (event = TY_DEVICE_EVENT_REMOVED -> single_entry m dev) ->
  Forall state_ok
         (boards (snd (fst (device_callback vendors m dev event now)))).
Proof.
  intros Hall _. apply Forall_forall. intros b' Hin.
  apply list_elem_of_In in Hin. destruct event; cbn [device_callback] in Hin.
  - apply add_interface_boards in Hin.
    destruct Hin as [Hin | (r & iface & _ & Hatt)].
    + rewrite Forall_forall in Hall. apply Hall. now apply list_elem_of_In.
    + exact (state_ok_attached _ _ _ _ Hatt).
  - apply remove_interface_boards in Hin.
    destruct Hin as [Hin | (iface & b & _ & Hb & _ & Hdet)].
    + rewrite Forall_forall in Hall. apply Hall. now apply list_elem_of_In.
    + rewrite Forall_forall in Hall. apply list_elem_of_In in Hb.
      exact (state_ok_detached _ _ _ _ (Hall b Hb) Hdet).
Qed.

Lemma linked_boards_online_or_missing_witness :
  Forall state_ok
         (boards (snd (fst (device_callback [Sample.vendor_teensy31 1]
                              Sample.manager_serial0
                              (Sample.device 7 0x16C0 0x483 None)
                              TY_DEVICE_EVENT_REMOVED 0)))).
Proof.
  apply linked_boards_online_or_missing.
  - repeat constructor. discriminate.
  - intros _. exact manager_serial0_single_entry.
Defined.

Lemma has_cap_lor a b c : has_cap (Z.lor a b) c = has_cap a c || has_cap b c.
Proof.
  unfold has_cap. rewrite Z.land_lor_distr_l.
  destruct (Z.eqb_spec (Z.land a (1 ≪ Z.of_nat c)) 0) as [Ea | Ea];
    destruct (Z.eqb_spec (Z.land b (1 ≪ Z.of_nat c)) 0) as [Eb | Eb];
    cbn [negb orb];
    destruct (Z.eqb_spec (Z.lor (Z.land a (1 ≪ Z.of_nat c))
                                (Z.land b (1 ≪ Z.of_nat c))) 0) as [E | E];
    try reflexivity; exfalso.
  - apply E. apply Z.lor_eq_0_iff. auto.
  - apply Z.lor_eq_0_iff in E. tauto.
  - apply Z.lor_eq_0_iff in E. tauto.
  - apply Z.lor_eq_0_iff in E. tauto.
Qed.

Lemma has_cap_0 c : has_cap 0 c = false.
Proof. unfold has_cap. now rewrite Z.land_0_l. Qed.

Lemma route_step_length iface acc i :
  length (route_step iface acc i) = length acc.
Proof.
  unfold route_step. destruct (_ =? 0); [reflexivity | apply length_insert].
Qed.

Lemma route_fold_length iface l : forall acc,
  length (foldl (route_step iface) acc l) = length acc.
Proof.
  induction l as [|i l IH]; intros acc; simpl; [reflexivity |].
  now rewrite IH, route_step_length.
Qed.

Lemma route_step_lookup iface acc i c :
  (c < length acc)%nat ->
  route_step iface acc i !! c
  = if bool_decide (c = i) && has_cap (iface_capabilities iface) c
    then Some (Some iface) else acc !! c.
Proof.
  intros Hc. unfold route_step, has_cap.
  destruct (decide (c = i)) as [-> | Hne].
  - rewrite bool_decide_eq_true_2 by reflexivity. cbn [andb].
    destruct (Z.land (iface_capabilities iface) (1 ≪ Z.of_nat i) =? 0);
      cbn [negb]; [reflexivity |].
    now apply list_lookup_insert_eq.
  - rewrite bool_decide_eq_false_2 by assumption. cbn [andb].
    destruct (Z.land (iface_capabilities iface) (1 ≪ Z.of_nat i) =? 0);
      [reflexivity |].
    apply list_lookup_insert_ne. congruence.
Qed.

Lemma route_fold_lookup iface l c : forall acc,
  (c < length acc)%nat ->
  foldl (route_step iface) acc l !! c
  = if bool_decide (c ∈ l) && has_cap (iface_capabilities iface) c
    then Some (Some iface) else acc !! c.
Proof.
  induction l as [|i l IH]; intros acc Hc; cbn [foldl].
  - rewrite bool_decide_eq_false_2 by (apply not_elem_of_nil). reflexivity.
  - rewrite IH by (now rewrite route_step_length).
    rewrite route_step_lookup by exact Hc.
    destruct (has_cap (iface_capabilities iface) c);
      rewrite ?andb_false_r, ?andb_true_r; [| reflexivity].
    destruct (decide (c ∈ l)) as [Hl | Hl].
    + rewrite !bool_decide_eq_true_2 by (try right; assumption). reflexivity.
    + rewrite (bool_decide_eq_false_2 (c ∈ l)) by assumption.
      destruct (decide (c = i)) as [-> | Hne].
      * rewrite !bool_decide_eq_true_2 by (try left; reflexivity). reflexivity.
      * rewrite !bool_decide_eq_false_2;
          [reflexivity | intros H; apply elem_of_cons in H; tauto | assumption].
Qed.

Lemma route_capabilities_lookup c2i iface c :
  length c2i = TY_BOARD_CAPABILITY_COUNT ->
  (c < TY_BOARD_CAPABILITY_COUNT)%nat ->
  route_capabilities c2i iface !! c
  = if has_cap (iface_capabilities iface) c then Some (Some iface)
    else c2i !! c.
Proof.
  intros Hlen Hc. unfold route_capabilities.
  change (foldl (route_step iface) c2i (seq 0 TY_BOARD_CAPABILITY_COUNT) !! c
          = if has_cap (iface_capabilities iface) c then Some (Some iface)
            else c2i !! c).
  rewrite route_fold_lookup by lia.
  rewrite bool_decide_eq_true_2; [reflexivity |].
  apply elem_of_seq. lia.
Qed.

Lemma route_capabilities_length c2i iface :
  length (route_capabilities c2i iface) = length c2i.
Proof. apply (route_fold_length iface). Qed.

Lemma last_with_snoc c l i :
  last_with c (l ++ [i])
  = if has_cap (iface_capabilities i) c then Some i else last_with c l.
Proof. unfold last_with. rewrite rev_app_distr. reflexivity. Qed.

Lemma routed_list (l : list ty_board_interface) :
  (forall c, has_cap (foldl (fun c i => Z.lor c (iface_capabilities i)) 0 l) c
             = existsb (fun i => has_cap (iface_capabilities i) c) l)
  /\ length (foldl route_capabilities
                   (replicate TY_BOARD_CAPABILITY_COUNT None) l)
     = TY_BOARD_CAPABILITY_COUNT
  /\ forall c, (c < TY_BOARD_CAPABILITY_COUNT)%nat ->
       foldl route_capabilities
             (replicate TY_BOARD_CAPABILITY_COUNT None) l !! c
       = Some (last_with c l).
Proof.
  induction l as [|i l (IHc & IHl & IHr)] using rev_ind.
  - split; [| split].
    + intros c. apply has_cap_0.
    + reflexivity.
    + intros c Hc. cbn [foldl]. rewrite lookup_replicate_2 by exact Hc.
      reflexivity.
  - rewrite !foldl_app. cbn [foldl]. split; [| split].
    + intros c. rewrite has_cap_lor, IHc, existsb_app. cbn [existsb].
      now rewrite orb_false_r.
    + now rewrite route_capabilities_length.
    + intros c Hc. rewrite route_capabilities_lookup by assumption.
      rewrite last_with_snoc. rewrite (IHr c Hc).
      now destruct (has_cap (iface_capabilities i) c).
Qed.

Lemma routing_ok_close b : routing_ok (close_of b).
Proof. exact (routed_list []). Qed.

Lemma routing_ok_attach iface b :
  routing_ok b -> routing_ok (attach_of iface b).
Proof.
  intros (Hc & Hl & Hr). unfold routing_ok.
  cbn [attach_of capabilities interfaces cap2iface]. split; [| split].
  - intros c. rewrite has_cap_lor, Hc, existsb_app. cbn [existsb].
    now rewrite orb_false_r.
  - now rewrite route_capabilities_length.
  - intros c Hlt. rewrite route_capabilities_lookup by assumption.
    rewrite last_with_snoc, (Hr c Hlt).
    now destruct (has_cap _ c).
Qed.

Lemma routing_ok_attached m dev iface b' :
  Forall routing_ok (boards m) -> attached_to m dev iface b' -> routing_ok b'.
Proof.
  intros Hall [[m1 ->] | (b & Hin & _ & Hb')].
  - apply routing_ok_attach. exact (routed_list []).
  - rewrite Forall_forall in Hall. apply list_elem_of_In in Hin.
    specialize (Hall b Hin).
    destruct Hb' as [-> | ->]; apply routing_ok_attach.
    + exact Hall.
    + exact (routed_list []).
Qed.

Lemma routing_ok_detached now iface b b' :
  detached_from now iface b b' -> routing_ok b'.
Proof.
  unfold detached_from.
  destruct (interfaces (detach_of iface b)) as [|i l] eqn:E; intros ->.
  - exact (routed_list []).
  - exact (routed_list (unlink_interface iface (interfaces b))).
Qed.

(** X14: a device event keeps, for every linked board, the capability
    mask equal to the union of the masks of its interfaces, and every
    capability routed to the interface attached last among those that
    have it.  For the removal of a device, the device has one entry in
    the device table, for an interface of a linked board. *)
Theorem capabilities_routed_to_last_interface vendors m dev event now :
  Forall routing_ok (boards m) ->
  (event = TY_DEVICE_EVENT_REMOVED -> single_entry m dev) ->
  Forall routing_ok
         (boards (snd (fst (device_callback vendors m dev event now)))).
Proof.
  intros Hall _. apply Forall_forall. intros b' Hin.
  apply list_elem_of_In in Hin. destruct event; cbn [device_callback] in Hin.
  - apply add_interface_boards in Hin.
    destruct Hin as [Hin | (r & iface & _ & Hatt)].
    + rewrite Forall_forall in Hall. apply Hall. now apply list_elem_of_In.
    + exact (routing_ok_attached _ _ _ _ Hall Hatt).
  - apply remove_interface_boards in Hin.
    destruct Hin as [Hin | (iface & b & _ & Hb & _ & Hdet)].
    + rewrite Forall_forall in Hall. apply Hall. now apply list_elem_of_In.
    + exact (routing_ok_detached _ _ _ _ Hdet).
Qed.

Lemma capabilities_routed_to_last_interface_witness :
  Forall routing_ok
         (boards (snd (fst (device_callback [Sample.vendor_teensy31 9]
                              Sample.empty_manager
                              (Sample.device 7 0x16C0 0x483 None)
                              TY_DEVICE_EVENT_ADDED 0)))).
Proof.
  apply capabilities_routed_to_last_interface.
  - constructor.
  - discriminate.
Defined.

(** X15: on a board whose routing is in order, the interface
    [ty_board_get_interface] returns for a capability is an interface of
    the board that has the capability, and it returns none only when no
    interface of the board has it. *)
Theorem get_interface_finds_capable_interface b cap :
  routing_ok b ->
  match ty_board_get_interface b cap with
  | Some i => In i (interfaces b)
              /\ has_cap (iface_capabilities i) (cap_index cap) = true
  | None => forall i, In i (interfaces b) ->
              has_cap (iface_capabilities i) (cap_index cap) = false
  end.
Proof.
  intros (_ & _ & Hr). unfold ty_board_get_interface.
  rewrite (Hr (cap_index cap)) by (destruct cap; unfold TY_BOARD_CAPABILITY_COUNT; simpl; lia).
  cbn [mjoin option_join]. unfold last_with.
  destruct (find _ (rev (interfaces b))) as [i|] eqn:E.
  - apply find_some in E. destruct E as [Hin Hcap].
    split; [| exact Hcap]. now apply in_rev.
  - intros i Hin. apply in_rev in Hin.
    apply (find_none _ _ E) in Hin. exact Hin.
Qed.

Lemma get_interface_finds_capable_interface_witness :
  match
    ty_board_get_interface
      (plugged Sample.empty_manager (Sample.interface 9 None))
      TY_BOARD_CAPABILITY_SERIAL
  with
  | Some i =>
      In i (interfaces (plugged Sample.empty_manager
                                (Sample.interface 9 None)))
      /\ has_cap (iface_capabilities i)
                 (cap_index TY_BOARD_CAPABILITY_SERIAL) = true
  | None =>
      forall i,
        In i (interfaces (plugged Sample.empty_manager
                                  (Sample.interface 9 None))) ->
        has_cap (iface_capabilities i)
                (cap_index TY_BOARD_CAPABILITY_SERIAL) = false
  end.
Proof.
  apply get_interface_finds_capable_interface.
  apply routing_ok_attach. exact (routed_list []).
Defined.

(** X16: a board without interface whose routing is in order, such as
    a board that went missing, rejects an upload and a serial write with
    a mode error, and no operation of an interface is called. *)
Theorem missing_board_rejects_io R b f flags buf size :
  routing_ok b -> interfaces b = [] ->
  ty_board_upload R b f flags = (ty_error TY_ERROR_MODE, [])
  /\ ty_board_serial_write b buf size = (ty_error TY_ERROR_MODE, []).
Proof.
  intros (_ & _ & Hr) Hnone.
  assert (Hget : forall cap, ty_board_get_interface b cap = None).
  { intros cap. unfold ty_board_get_interface.
    rewrite (Hr (cap_index cap))
      by (destruct cap; unfold TY_BOARD_CAPABILITY_COUNT; simpl; lia).
    now rewrite Hnone. }
  unfold ty_board_upload, ty_board_serial_write. now rewrite !Hget.
Qed.

Lemma missing_board_rejects_io_witness :
  ty_board_upload Sample.registry (close_of (Sample.board 9 None))
                  {| image := Sample.teensy_20_magic |} 0
  = (ty_error TY_ERROR_MODE, [])
  /\ ty_board_serial_write (close_of (Sample.board 9 None)) [104; 105; 0] 0
     = (ty_error TY_ERROR_MODE, []).
Proof.
  apply missing_board_rejects_io.
  - apply routing_ok_close.
  - reflexivity.
Defined.

Lemma trigger_loop_calls cbs board event :
  Forall (fun c => call_board c = board /\ call_event c = event)
         (snd (trigger_loop cbs board event)).
Proof.
  induction cbs as [|cb cbs IH]; cbn [trigger_loop]; [constructor |].
  destruct (cb_f cb board event <? 0); [repeat constructor |].
  destruct (trigger_loop cbs board event) as [[r kept] calls].
  constructor; [split; reflexivity | exact IH].
Qed.

Lemma trigger_callbacks_calls m board event :
  Forall (fun c => call_board c = board /\ call_event c = event)
         (snd (trigger_callbacks m board event)).
Proof.
  unfold trigger_callbacks.
  pose proof (trigger_loop_calls (callbacks m) board event) as H.
  destruct (trigger_loop (callbacks m) board event) as [[r kept] calls].
  exact H.
Qed.

Lemma store_fresh (l : list ty_board) n b :
  Forall (fun x => board_id x <> n) l ->
  map (fun x => if (board_id x =? n)%nat then b else x) l = l.
Proof.
  induction 1 as [|x l Hx Hl IH]; cbn [map]; [reflexivity |].
  rewrite IH. destruct (Nat.eqb_spec (board_id x) n); congruence.
Qed.

Lemma ids_below m :
  ids_ok m -> Forall (fun x => (board_id x < next_board m)%nat) (boards m).
Proof.
  intros [_ H]. unfold idmap in H. rewrite Forall_map in H. exact H.
Qed.

Lemma add_interface_new_location vendors m dev r iface :
  ids_ok m ->
  open_interface vendors dev = (r, Some iface) ->
  find_board m (dev_location dev) = None ->
  exists r1 kept calls,
    add_interface vendors m dev
    = (r1,
       {| callbacks := kept; callback_id := callback_id m;
          boards := boards m ++ [plugged m iface];
          missing_boards :=
            filter (fun i => i ≠ next_board m) (missing_boards m);
          interfaces_table :=
            interfaces_table m ++ [with_board iface (next_board m)];
          timer := timer m; next_board := S (next_board m) |},
       calls)
    /\ Forall (fun c => call_board c = plugged m iface
                        /\ call_event c = TY_BOARD_EVENT_ADDED) calls.
Proof.
  intros Hok Hopen Hfind. unfold add_interface. rewrite Hopen, Hfind.
  cbn [add_board fst snd].
  match goal with |- context [trigger_callbacks ?m1 ?b1 ?e] =>
    pose proof (trigger_callbacks_calls m1 b1 e) as Hcalls;
    destruct (trigger_callbacks_frame m1 b1 e) as (r1 & kept & calls & E);
    rewrite E in Hcalls |- * end.
  exists r1, kept, calls. split; [| exact Hcalls].
  cbn [app]. f_equal. f_equal.
  unfold set_callbacks, store_board, set_boards, set_missing_boards,
    set_interfaces_table. cbn. f_equal.
  rewrite map_app. cbn [map]. rewrite Nat.eqb_refl.
  rewrite store_fresh; [reflexivity |].
  eapply Forall_impl; [exact (ids_below m Hok) |]. cbn. intros; lia.
Qed.

Lemma find_snoc_none {A} (f : A -> bool) l x :
  find f l = None -> find f (l ++ [x]) = if f x then Some x else None.
Proof.
  induction l as [|y l IH]; cbn [find app]; [reflexivity |].
  destruct (f y); [discriminate | exact IH].
Qed.

Lemma find_none_all {A} (f : A -> bool) l :
  (forall x, In x l -> f x = false) -> find f l = None.
Proof.
  induction l as [|y l IH]; cbn [find]; intros H; [reflexivity |].
  rewrite (H y) by now left. apply IH. intros x Hx. apply H. now right.
Qed.

Lemma filter_no_device (l : list ty_board_interface) :
  filter (fun i => ¬ existsb (same_device i) []) l = l.
Proof.
  induction l as [|i l IH]; [reflexivity |].
  rewrite filter_cons_True by (intros H; exact H). now rewrite IH.
Qed.

Lemma unlink_other_devices (l : list ty_board_interface) i' :
  find (fun i => (dev_addr (iface_dev i) =? dev_addr (iface_dev i'))%N) l
  = None ->
  unlink_interface i' (l ++ [i']) = l.
Proof.
  intros Hnone. induction l as [|y l IH]; cbn [app unlink_interface].
  - unfold same_device. now rewrite N.eqb_refl.
  - cbn [find] in Hnone. unfold same_device at 1.
    destruct (dev_addr (iface_dev y) =? dev_addr (iface_dev i'))%N eqn:E;
      [discriminate |].
    now rewrite IH.
Qed.

Lemma unlink_self i : unlink_interface i [i] = [].
Proof. cbn [unlink_interface]. unfold same_device. now rewrite N.eqb_refl. Qed.

(** X17: a device that appears at a location without a board, and is
    removed again: [remove_interface] returns zero; the board made for
    the device stays at the tail of the list, missing, without interface
    and stamped with the time of the removal; the table of interfaces is
    as it was before the device appeared; the board is at the tail of
    the missing list and the timer is set; and the callbacks called on
    the removal get [DISAPPEARED] for that board. *)
Theorem plug_then_unplug vendors m dev now r iface :
  ids_ok m ->
  open_interface vendors dev = (r, Some iface) ->
  iface_dev iface = dev ->
  find_board m (dev_location dev) = None ->
  find_interface m dev = None ->
  let res :=
    remove_interface (snd (fst (add_interface vendors m dev))) dev now in
  fst (fst res) = 0
  /\ boards (snd (fst res))
     = boards m ++ [missing_at now (close_of (plugged m iface))]
  /\ interfaces_table (snd (fst res)) = interfaces_table m
  /\ missing_boards (snd (fst res))
     = filter (fun i => i ≠ next_board m) (missing_boards m)
       ++ [next_board m]
  /\ is_Some (timer (snd (fst res)))
  /\ Forall (fun c => call_board c = close_of (plugged m iface)
                      /\ call_event c = TY_BOARD_EVENT_DISAPPEARED)
            (snd res).
Proof.
  intros Hok Hopen Hdev Hfind Hfi.
  destruct (add_interface_new_location vendors m dev r iface Hok Hopen Hfind)
    as (r1 & kept & calls & E & _).
  rewrite E. cbn [fst snd]. clear E.
  assert (Hbelow := ids_below m Hok).
  unfold remove_interface, find_interface in *.
  cbn [interfaces_table boards].
  rewrite (find_snoc_none _ _ _ Hfi).
  cbn [with_board iface_dev]. rewrite Hdev, N.eqb_refl.
  cbn [iface_board].
  rewrite find_snoc_none.
  2:{ apply find_none_all. intros b Hb. apply bool_decide_eq_false.
      intros [= Hid]. rewrite Forall_forall in Hbelow.
      apply list_elem_of_In in Hb. specialize (Hbelow b Hb). cbn in Hbelow. lia. }
  rewrite bool_decide_eq_true_2 by reflexivity.
  cbn [plugged attach_of add_board snd interfaces app board_id].
  rewrite unlink_other_devices
    by (cbn [with_board iface_dev]; now rewrite Hdev).
  rewrite !unlink_self.
  unfold close_board.
  match goal with |- context [trigger_callbacks ?m1 ?b1 ?e] =>
    pose proof (trigger_callbacks_calls m1 b1 e) as Hcalls;
    destruct (trigger_callbacks_frame m1 b1 e) as (r2 & kept2 & calls2 & E2);
    rewrite E2 in Hcalls |- * end.
  cbn [fst snd] in Hcalls |- *.
  unfold add_missing_board. cbn [fst snd].
  split; [reflexivity |]. split; [| split; [| split; [| split]]].
  - cbn [boards set_timer set_missing_boards store_board set_boards
         set_callbacks set_interfaces_table board_id].
    rewrite map_map, map_app. cbn [map board_id]. rewrite !Nat.eqb_refl.
    f_equal. etransitivity; [| apply (store_fresh _ (next_board m)
      (missing_at now (close_of (plugged m iface))))].
    + apply map_ext_in. intros b Hb. rewrite Forall_forall in Hbelow.
      apply list_elem_of_In in Hb. specialize (Hbelow b Hb). cbn in Hbelow.
      destruct (Nat.eqb_spec (board_id b) (next_board m)); [lia |].
      destruct (Nat.eqb_spec (board_id b) (next_board m)); [lia |].
      reflexivity.
    + eapply Forall_impl; [exact Hbelow |]. cbn. intros; lia.
  - cbn [interfaces_table set_timer set_missing_boards store_board
         set_boards set_callbacks set_interfaces_table interfaces existsb].
    apply filter_no_device.
  - cbn [missing_boards set_timer set_missing_boards store_board set_boards
         set_callbacks set_interfaces_table board_id].
    f_equal. apply list_filter_filter_l. auto.
  - cbn [timer set_timer]. eauto.
  - exact Hcalls.
Qed.

Lemma plug_then_unplug_witness :
  fst (fst (remove_interface
              (snd (fst (add_interface [Sample.vendor_teensy31 9]
                           Sample.empty_manager
                           (Sample.device 7 0x16C0 0x483 None))))
              (Sample.device 7 0x16C0 0x483 None) 100)) = 0
  /\ interfaces_table
       (snd (fst (remove_interface
                    (snd (fst (add_interface [Sample.vendor_teensy31 9]
                                 Sample.empty_manager
                                 (Sample.device 7 0x16C0 0x483 None))))
                    (Sample.device 7 0x16C0 0x483 None) 100))) = [].
Proof.
  destruct (plug_then_unplug [Sample.vendor_teensy31 9] Sample.empty_manager
              (Sample.device 7 0x16C0 0x483 None) 100 1
              (snd (Sample.vendor_teensy31 9
                      {| iface_dev := Sample.device 7 0x16C0 0x483 None;
                         iface_model := None; iface_serial := 0;
                         iface_capabilities := 0;
                         iface_vtable_of := null_vtable;
                         iface_board := None |})))
    as (H1 & _ & H3 & _).
  - exact empty_manager_ids_ok.
  - reflexivity.
  - reflexivity.
  - reflexivity.
  - reflexivity.
  - split; assumption.
Defined.

Lemma plugged_routes m iface cap :
  ty_board_get_interface (plugged m iface) cap
  = if has_cap (iface_capabilities iface) (cap_index cap)
    then Some (with_board iface (next_board m)) else None.
Proof.
  unfold ty_board_get_interface, plugged.
  cbn [attach_of add_board snd cap2iface board_id].
  rewrite route_capabilities_lookup;
    [| reflexivity
     | destruct cap; unfold TY_BOARD_CAPABILITY_COUNT; simpl; lia].
  cbn [with_board iface_capabilities].
  destruct (has_cap (iface_capabilities iface) (cap_index cap));
    [reflexivity |].
  rewrite lookup_replicate_2
    by (destruct cap; unfold TY_BOARD_CAPABILITY_COUNT; simpl; lia).
  reflexivity.
Qed.

(** X18: the board [add_interface] makes for a device at a location
    without a board is linked at the tail of the list, online, with the
    interface of the device as its only interface, and routes to it
    exactly the capabilities the interface has. *)
Theorem new_board_routes_to_its_interface vendors m dev r iface cap :
  ids_ok m ->
  open_interface vendors dev = (r, Some iface) ->
  find_board m (dev_location dev) = None ->
  exists b,
    last (boards (snd (fst (add_interface vendors m dev)))) = Some b
    /\ state b = TY_BOARD_STATE_ONLINE
    /\ interfaces b = [with_board iface (next_board m)]
    /\ ty_board_get_interface b cap
       = if has_cap (iface_capabilities iface) (cap_index cap)
         then Some (with_board iface (next_board m)) else None.
Proof.
  intros Hok Hopen Hfind.
  destruct (add_interface_new_location vendors m dev r iface Hok Hopen Hfind)
    as (r1 & kept & calls & E & _).
  rewrite E. cbn [fst snd boards]. exists (plugged m iface).
  split; [apply last_snoc |]. split; [reflexivity |]. split; [reflexivity |].
  apply plugged_routes.
Qed.

Lemma new_board_routes_to_its_interface_witness :
  exists b,
    last (boards (snd (fst (add_interface [Sample.vendor_teensy31 9]
                              Sample.empty_manager
                              (Sample.device 7 0x16C0 0x483 None)))))
    = Some b
    /\ state b = TY_BOARD_STATE_ONLINE
    /\ is_Some (ty_board_get_interface b TY_BOARD_CAPABILITY_UPLOAD)
    /\ ty_board_get_interface b TY_BOARD_CAPABILITY_RESET = None.
Proof.
  destruct (new_board_routes_to_its_interface [Sample.vendor_teensy31 9]
              Sample.empty_manager (Sample.device 7 0x16C0 0x483 None) 1
              (snd (Sample.vendor_teensy31 9
                      {| iface_dev := Sample.device 7 0x16C0 0x483 None;
                         iface_model := None; iface_serial := 0;
                         iface_capabilities := 0;
                         iface_vtable_of := null_vtable;
                         iface_board := None |}))
              TY_BOARD_CAPABILITY_UPLOAD)
    as (b & Hlast & Hst & _ & Hup).
  - exact empty_manager_ids_ok.
  - reflexivity.
  - reflexivity.
  - exists b. split; [exact Hlast |]. split; [exact Hst |].
    split; [rewrite Hup; eexists; reflexivity |].
    assert (Hb : b = plugged Sample.empty_manager
                       (snd (Sample.vendor_teensy31 9
                               {| iface_dev :=
                                    Sample.device 7 0x16C0 0x483 None;
                                  iface_model := None; iface_serial := 0;
                                  iface_capabilities := 0;
                                  iface_vtable_of := null_vtable;
                                  iface_board := None |})))
      by (vm_compute in Hlast; injection Hlast as <-; reflexivity).
    rewrite Hb. apply plugged_routes.
Defined.

Lemma stored_stored i fb fb' l :
  board_id fb = i -> stored i fb' (stored i fb l) = stored i fb' l.
Proof.
  intros Hid. unfold stored. rewrite map_map. apply map_ext. intros x.
  destruct (Nat.eqb_spec (board_id x) i) as [E | E].
  - rewrite Hid, Nat.eqb_refl. reflexivity.
  - destruct (Nat.eqb_spec (board_id x) i); [contradiction | reflexivity].
Qed.

Lemma In_stored i fb l x :
  board_id fb = i ->
  In x (stored i fb l)
  <-> (x = fb /\ exists y, In y l /\ board_id y = i)
      \/ (In x l /\ board_id x <> i).
Proof.
  intros Hid. unfold stored. rewrite in_map_iff. split.
  - intros (y & Hy & Hin).
    destruct (Nat.eqb_spec (board_id y) i); subst; eauto.
  - intros [[-> (y & Hin & Hy)] | [Hin Hne]].
    + exists y. rewrite Hy, Nat.eqb_refl. auto.
    + exists x. destruct (Nat.eqb_spec (board_id x) i); [contradiction | auto].
Qed.

Lemma In_filter_ne (l : list nat) t u :
  In u (filter (fun v => v ≠ t) l) <-> In u l /\ u <> t.
Proof.
  rewrite <- !list_elem_of_In, list_elem_of_filter. tauto.
Qed.

Lemma In_filter_board (l : list ty_board) i x :
  In x (filter (fun b => board_id b ≠ i) l) <-> In x l /\ board_id x <> i.
Proof.
  rewrite <- !list_elem_of_In, list_elem_of_filter. tauto.
Qed.

Lemma add_interface_shape vendors m dev r iface :
  ids_ok m ->
  open_interface vendors dev = (r, Some iface) ->
  match find_board m (dev_location dev) with
  | Some b =>
      if board_replaced iface b then
        boards (snd (fst (add_interface vendors m dev)))
        = filter (fun x => board_id x ≠ board_id b) (boards m)
          ++ [plugged m iface]
        /\ missing_boards (snd (fst (add_interface vendors m dev)))
           = filter (fun i => i ≠ next_board m)
                    (filter (fun i => i ≠ board_id b) (missing_boards m))
      else
        exists fb,
          board_id fb = board_id b /\ state fb = TY_BOARD_STATE_ONLINE
          /\ boards (snd (fst (add_interface vendors m dev)))
             = stored (board_id b) fb (boards m)
          /\ missing_boards (snd (fst (add_interface vendors m dev)))
             = filter (fun i => i ≠ board_id b) (missing_boards m)
  | None =>
      boards (snd (fst (add_interface vendors m dev)))
      = boards m ++ [plugged m iface]
      /\ missing_boards (snd (fst (add_interface vendors m dev)))
         = filter (fun i => i ≠ next_board m) (missing_boards m)
  end.
Proof.
  intros Hok Hopen.
  assert (Hbelow := ids_below m Hok).
  destruct (find_board m (dev_location dev)) as [b|] eqn:Hfind.
  - unfold add_interface. rewrite Hopen, Hfind.
    destruct (board_replaced iface b) eqn:Hrep.
    + unfold drop_board. frame_trigger. cbn [add_board fst snd].
      frame_trigger. cbn [fst snd]. split.
      * cbn [boards store_board set_boards set_callbacks set_missing_boards
             set_interfaces_table board_id next_board].
        rewrite map_app. cbn [map board_id]. rewrite Nat.eqb_refl.
        f_equal. apply store_fresh. apply Forall_forall. intros x Hx.
        apply list_elem_of_In, In_filter_board in Hx. destruct Hx as [Hx _].
        rewrite Forall_forall in Hbelow. apply list_elem_of_In in Hx.
        specialize (Hbelow x Hx). cbn in Hbelow. lia.
      * reflexivity.
    + destruct (negb (vid b =? dev_vid dev) || negb (pid b =? dev_pid dev)).
      * unfold close_board. frame_trigger. cbn [fst snd]. frame_trigger.
        cbn [fst snd].
        exists (attach_of iface
                  (retain_of iface
                     (with_ids (close_of b) (dev_vid dev) (dev_pid dev)))).
        split; [reflexivity |]. split; [reflexivity |]. split.
        -- cbn [boards store_board set_boards set_callbacks
                set_missing_boards set_interfaces_table board_id].
           apply (stored_stored (board_id b)). reflexivity.
        -- reflexivity.
      * frame_trigger. cbn [fst snd].
        exists (attach_of iface (retain_of iface b)).
        split; [reflexivity |]. split; [reflexivity |]. split; reflexivity.
  - destruct (add_interface_new_location vendors m dev r iface Hok Hopen Hfind)
      as (r1 & kept & calls & E & _).
    rewrite E. split; reflexivity.
Qed.

Lemma remove_interface_shape m dev now iface b :
  find_interface m dev = Some iface ->
  find (fun b => bool_decide (Some (board_id b) = iface_board iface))
       (boards m) = Some b ->
  exists fb,
    board_id fb = board_id b
    /\ boards (snd (fst (remove_interface m dev now)))
       = stored (board_id b) fb (boards m)
    /\ ((state fb = TY_BOARD_STATE_MISSING
         /\ missing_boards (snd (fst (remove_interface m dev now)))
            = filter (fun i => i ≠ board_id b) (missing_boards m)
              ++ [board_id b])
        \/ (state fb = state b /\ interfaces fb <> []
            /\ missing_boards (snd (fst (remove_interface m dev now)))
               = missing_boards m)).
Proof.
  intros Hfi Hfb. unfold remove_interface. rewrite Hfi, Hfb.
  destruct (unlink_interface iface (interfaces b)) as [|i0 rest0] eqn:Hrest.
  - unfold close_board. frame_trigger. cbn [fst snd].
    unfold add_missing_board. cbn [fst snd].
    eexists. split; [| split; [| left; split]].
    2:{ cbn [boards set_timer set_missing_boards store_board set_boards
             set_callbacks set_interfaces_table board_id].
        apply (stored_stored (board_id b)). reflexivity. }
    + reflexivity.
    + reflexivity.
    + reflexivity.
  - frame_trigger. cbn [fst snd].
    eexists. split; [| split; [| right; split; [| split]]].
    2:{ cbn [boards store_board set_boards set_callbacks
             set_interfaces_table board_id]. reflexivity. }
    + reflexivity.
    + reflexivity.
    + cbn [interfaces]. discriminate.
    + reflexivity.
Qed.

Lemma unique_board m b b' :
  ids_ok m -> In b (boards m) -> In b' (boards m) ->
  board_id b' = board_id b -> b' = b.
Proof.
  intros [Hnd _] Hb Hb' Hid. unfold idmap in Hnd. rewrite map_map in Hnd.
  cbn [fst] in Hnd.
  induction (boards m) as [|x l IH]; [contradiction |].
  cbn [map] in Hnd. inversion Hnd as [|? ? Hnotin Hnd']; subst.
  destruct Hb as [-> | Hb], Hb' as [-> | Hb'].
  - reflexivity.
  - exfalso. apply Hnotin. rewrite <- Hid. now apply in_map.
  - exfalso. apply Hnotin. rewrite Hid. now apply in_map.
  - now apply IH.
Qed.

Lemma drop_board_missing_ok m b :
  missing_ok m -> missing_ok (fst (fst (drop_board m b))).
Proof.
  intros Hm. unfold drop_board. frame_trigger. cbn [fst]. intros i.
  cbn [boards missing_boards set_boards set_callbacks set_missing_boards].
  rewrite In_filter_ne, (Hm i). split.
  - intros [(b0 & Hin & Hi & Hs0) Hne]. exists b0. split; [| auto].
    apply In_filter_board. split; [exact Hin | congruence].
  - intros (b0 & Hin & Hi & Hs0). apply In_filter_board in Hin.
    destruct Hin as [Hin Hne]. split; [eauto | congruence].
Qed.

Lemma drop_expired_missing_ok l : forall m now,
  missing_ok m -> missing_ok (fst (drop_expired m l now)).
Proof.
  induction l as [|i rest IH]; intros m now Hm; cbn [drop_expired];
    [exact Hm |].
  destruct (find _ (boards m)) as [board|]; [| now apply IH].
  destruct (_ =? 0); [| exact Hm].
  pose proof (drop_board_missing_ok m board Hm) as Hd.
  destruct (drop_board m board) as [[m1 bd] calls]. cbn [fst] in Hd.
  specialize (IH m1 now Hd).
  destruct (drop_expired m1 rest now) as [m2 calls']. exact IH.
Qed.

(** X19: when the addresses of the linked boards are distinct and the
    missing list holds exactly the linked boards that are missing, it
    still does after a device event and after the pass of
    [ty_board_manager_refresh] over the missing boards.  For the removal
    of a device, the device has one entry in the device table, for an
    interface of a linked board. *)
Theorem missing_list_names_missing_boards vendors m dev event now l :
  ids_ok m -> missing_ok m ->
  (event = TY_DEVICE_EVENT_REMOVED -> single_entry m dev) ->
  missing_ok (snd (fst (device_callback vendors m dev event now)))
  /\ missing_ok (fst (drop_expired m l now)).
Proof.
  intros Hok Hm _. split; [| now apply drop_expired_missing_ok].
  assert (Hbelow := ids_below m Hok).
  rewrite Forall_forall in Hbelow.
  destruct event; cbn [device_callback].
  - destruct (open_interface vendors dev) as [r [iface|]] eqn:Hopen.
    2:{ unfold add_interface. rewrite Hopen. exact Hm. }
    pose proof (add_interface_shape vendors m dev r iface Hok Hopen) as Hs.
    destruct (find_board m (dev_location dev)) as [b|] eqn:Hfind.
    + destruct (board_replaced iface b).
      * destruct Hs as [Hb Hmiss]. intros i. rewrite Hb, Hmiss.
        rewrite !In_filter_ne, (Hm i). split.
        -- intros [[(b0 & Hin & Hid & Hst) Hne] Hnew].
           exists b0. split; [| auto]. apply in_or_app. left.
           apply In_filter_board. split; [exact Hin | congruence].
        -- intros (b0 & Hin & Hid & Hst).
           apply in_app_or in Hin. destruct Hin as [Hin | [<- | []]];
             [| discriminate Hst].
           apply In_filter_board in Hin. destruct Hin as [Hin Hne].
           split; [split; [eauto | congruence] |].
           apply list_elem_of_In in Hin. specialize (Hbelow b0 Hin).
           cbn in Hbelow. lia.
      * destruct Hs as (fb & Hid & Hst & Hb & Hmiss). intros i.
        rewrite Hb, Hmiss, In_filter_ne, (Hm i). split.
        -- intros [(b0 & Hin & Hi & Hs0) Hne]. exists b0.
           split; [| auto]. apply (In_stored _ _ _ _ Hid). right.
           split; [exact Hin | congruence].
        -- intros (b0 & Hin & Hi & Hs0).
           apply (In_stored _ _ _ _ Hid) in Hin.
           destruct Hin as [[-> _] | [Hin Hne]]; [congruence |].
           split; [eauto | congruence].
    + destruct Hs as [Hb Hmiss]. intros i. rewrite Hb, Hmiss.
      rewrite In_filter_ne, (Hm i). split.
      * intros [(b0 & Hin & Hid & Hst) Hne]. exists b0.
        split; [apply in_or_app; now left | auto].
      * intros (b0 & Hin & Hid & Hst).
        apply in_app_or in Hin. destruct Hin as [Hin | [<- | []]];
          [| discriminate Hst].
        split; [eauto |].
        apply list_elem_of_In in Hin. specialize (Hbelow b0 Hin).
        cbn in Hbelow. lia.
  - destruct (find_interface m dev) as [iface|] eqn:Hfi.
    2:{ unfold remove_interface. rewrite Hfi. exact Hm. }
    destruct (find (fun b => bool_decide (Some (board_id b) = iface_board iface))
                   (boards m)) as [b|] eqn:Hfb.
    2:{ unfold remove_interface. rewrite Hfi, Hfb. exact Hm. }
    destruct (remove_interface_shape m dev now iface b Hfi Hfb)
      as (fb & Hid & Hb & Hcase).
    apply find_some in Hfb. destruct Hfb as [Hinb _].
    intros i. rewrite Hb.
    destruct Hcase as [[Hst Hmiss] | (Hst & _ & Hmiss)]; rewrite Hmiss.
    + rewrite in_app_iff, In_filter_ne, (Hm i). cbn [In]. split.
      * intros [[(b0 & Hin & Hi & Hs0) Hne] | [<- | []]].
        -- exists b0. split; [| auto]. apply (In_stored _ _ _ _ Hid).
           right. split; [exact Hin | congruence].
        -- exists fb. split; [| auto]. apply (In_stored _ _ _ _ Hid).
           left. eauto.
      * intros (b0 & Hin & Hi & Hs0).
        apply (In_stored _ _ _ _ Hid) in Hin.
        destruct Hin as [[-> _] | [Hin Hne]].
        -- right. left. congruence.
        -- left. split; [eauto | congruence].
    + rewrite (Hm i). split.
      * intros (b0 & Hin & Hi & Hs0).
        destruct (Nat.eq_dec (board_id b0) (board_id b)) as [E | E].
        -- assert (b0 = b) by (apply (unique_board m); assumption). subst b0.
           exists fb. split; [| split; congruence].
           apply (In_stored _ _ _ _ Hid). left. eauto.
        -- exists b0. split; [| auto]. apply (In_stored _ _ _ _ Hid).
           right. auto.
      * intros (b0 & Hin & Hi & Hs0).
        apply (In_stored _ _ _ _ Hid) in Hin.
        destruct Hin as [[-> _] | [Hin Hne]].
        -- exists b. split; [exact Hinb |]. split; congruence.
        -- eauto.
Qed.

Lemma missing_list_names_missing_boards_witness :
  missing_ok
    (snd (fst (device_callback [Sample.vendor_teensy31 1]
                 Sample.manager_serial0
                 (Sample.device 7 0x16C0 0x483 None)
                 TY_DEVICE_EVENT_REMOVED 100)))
  /\ missing_ok (fst (drop_expired Sample.manager_serial0 [O] 100)).
Proof.
  apply missing_list_names_missing_boards.
  - apply add_interface_ids_ok. exact empty_manager_ids_ok.
  - intros i. split.
    + intros [].
    + intros (b & [<- | []] & _ & Hst). discriminate Hst.
  - intros _. exact manager_serial0_single_entry.
Defined.

Lemma drop_board_effect m b :
  Forall (fun c => call_event c = TY_BOARD_EVENT_DROPPED
                   /\ board_id (call_board c) = board_id b
                   /\ missing_since (call_board c) = missing_since b)
         (snd (drop_board m b))
  /\ forall x, In x (boards (fst (fst (drop_board m b))))
               <-> In x (boards m) /\ board_id x <> board_id b.
Proof.
  unfold drop_board.
  match goal with |- context [trigger_callbacks ?m1 ?b1 ?e] =>
    pose proof (trigger_callbacks_calls m1 b1 e) as Hcalls;
    destruct (trigger_callbacks_frame m1 b1 e) as (r & kept & calls & E);
    rewrite E in Hcalls |- * end.
  cbn [fst snd] in *. split.
  - eapply Forall_impl; [exact Hcalls |]. cbn. intros c [-> ->]. auto.
  - intros x. cbn [boards set_boards set_callbacks set_missing_boards].
    rewrite <- !list_elem_of_In, list_elem_of_filter. tauto.
Qed.

Lemma NoDup_ids_filter (l : list ty_board) i :
  List.NoDup (map board_id l) ->
  List.NoDup (map board_id (filter (fun b => board_id b ≠ i) l)).
Proof.
  induction l as [|x l IH]; cbn [map]; intros Hnd; [constructor |].
  inversion Hnd as [|? ? Hnotin Hnd']; subst.
  destruct (decide (board_id x = i)) as [E | E].
  - rewrite filter_cons_False by (intros H; now apply H). now apply IH.
  - rewrite filter_cons_True by exact E. cbn [map].
    constructor; [| now apply IH].
    intros Hin. apply Hnotin. apply in_map_iff in Hin.
    destruct Hin as (y & Hy & Hin). apply In_filter_board in Hin.
    apply in_map_iff. exists y. tauto.
Qed.

Lemma same_id_same_board (l : list ty_board) b b' :
  List.NoDup (map board_id l) -> In b l -> In b' l ->
  board_id b' = board_id b -> b' = b.
Proof.
  intros Hnd Hb Hb' Hid.
  induction l as [|x l IH]; [contradiction |].
  cbn [map] in Hnd. inversion Hnd as [|? ? Hnotin Hnd']; subst.
  destruct Hb as [-> | Hb], Hb' as [-> | Hb'].
  - reflexivity.
  - exfalso. apply Hnotin. rewrite <- Hid. now apply in_map.
  - exfalso. apply Hnotin. rewrite Hid. now apply in_map.
  - now apply IH.
Qed.

Lemma drop_board_ids m b :
  List.NoDup (map board_id (boards m)) ->
  List.NoDup (map board_id (boards (fst (fst (drop_board m b))))).
Proof.
  intros Hnd. unfold drop_board. frame_trigger.
  cbn [fst boards set_boards set_callbacks set_missing_boards].
  now apply NoDup_ids_filter.
Qed.

(** X20: the pass of [ty_board_manager_refresh] over the missing boards,
    when the addresses of the linked boards are distinct.  Every call it
    makes is a [DROPPED] event for a board of the missing list whose
    delay has run out; it links no board; a board it unlinks is named in
    the missing list and its delay has run out; and a board whose delay
    has not run out, or which the missing list does not name, stays
    linked. *)
Theorem drop_expired_only_drops_expired missing : forall m now,
  List.NoDup (map board_id (boards m)) ->
  Forall (fun c => call_event c = TY_BOARD_EVENT_DROPPED
                   /\ expired now (call_board c)
                   /\ In (board_id (call_board c)) missing)
         (snd (drop_expired m missing now))
  /\ (forall b, In b (boards (fst (drop_expired m missing now))) ->
                In b (boards m))
  /\ (forall b, In b (boards m) ->
                ~ In b (boards (fst (drop_expired m missing now))) ->
                In (board_id b) missing /\ expired now b)
  /\ (forall b, In b (boards m) ->
                ~ expired now b \/ ~ In (board_id b) missing ->
                In b (boards (fst (drop_expired m missing now)))).
Proof.
  induction missing as [|i rest IH]; intros m now Hnd; cbn [drop_expired].
  - cbn [fst snd]. split; [constructor |]. split; [auto |].
    split; [intros b Hb Hn; contradiction | auto].
  - destruct (find _ (boards m)) as [board|] eqn:Hfind.
    + apply find_some in Hfind. destruct Hfind as [Hin Hid].
      apply Nat.eqb_eq in Hid.
      destruct (Z.eqb_spec
                  (ty_adjust_timeout drop_board_delay (missing_since board) now)
                  0) as [Hexp | Hwait].
      * pose proof (drop_board_effect m board) as [Hcalls Hboards].
        pose proof (drop_board_ids m board Hnd) as Hnd1.
        destruct (drop_board m board) as [[m1 bd] calls].
        cbn [fst snd] in Hcalls, Hboards, Hnd1.
        specialize (IH m1 now Hnd1).
        destruct (drop_expired m1 rest now) as [m2 calls']. cbn [fst snd] in *.
        destruct IH as (IHc & IHsub & IHgone & IHkeep).
        assert (Hsame : forall b, In b (boards m) -> board_id b = i ->
                                  b = board).
        { intros b Hb E. apply (same_id_same_board (boards m)); try assumption.
          congruence. }
        split; [| split; [| split]].
        -- apply Forall_app. split.
           ++ eapply Forall_impl; [exact Hcalls |]. cbn.
              intros c (He & Hi & Hs). split; [exact He |]. split.
              ** unfold expired. now rewrite Hs.
              ** left. congruence.
           ++ eapply Forall_impl; [exact IHc |]. cbn. intros c (? & ? & ?).
              auto.
        -- intros b Hb. apply IHsub in Hb. now apply Hboards in Hb.
        -- intros b Hb Hgone.
           destruct (Nat.eq_dec (board_id b) i) as [E | E].
           ++ rewrite (Hsame b Hb E). split; [left; congruence | exact Hexp].
           ++ assert (Hb1 : In b (boards m1))
                by (apply Hboards; split; [exact Hb | congruence]).
              destruct (IHgone b Hb1 Hgone) as [H1 H2].
              split; [now right | exact H2].
        -- intros b Hb Hor. apply IHkeep.
           ++ apply Hboards. split; [exact Hb |]. intros E.
              destruct Hor as [Hne | Hni].
              ** apply Hne. rewrite (Hsame b Hb ltac:(congruence)).
                 exact Hexp.
              ** apply Hni. left. congruence.
           ++ destruct Hor as [Hne | Hni]; [now left |].
              right. intros H. apply Hni. now right.
      * cbn [fst snd boards set_timer]. split; [constructor |].
        split; [auto |]. split; [intros b Hb Hn; contradiction | auto].
    + specialize (IH m now Hnd). destruct IH as (IHc & IHsub & IHgone & IHkeep).
      split; [| split; [| split]].
      * eapply Forall_impl; [exact IHc |]. cbn. intros c (? & ? & ?). auto.
      * exact IHsub.
      * intros b Hb Hgone. destruct (IHgone b Hb Hgone) as [H1 H2].
        split; [now right | exact H2].
      * intros b Hb Hor. apply IHkeep; [exact Hb |].
        destruct Hor as [Hne | Hni]; [now left |].
        right. intros H. apply Hni. now right.
Qed.

(** The board of [Sample.manager_serial0], not missing for longer than
    100 ms, stays linked. *)
Lemma drop_expired_only_drops_expired_witness :
  Forall (fun b =>
            In b (boards (fst (drop_expired Sample.manager_serial0 [O] 100))))
         (boards Sample.manager_serial0).
Proof.
  destruct (drop_expired_only_drops_expired [O] Sample.manager_serial0 100)
    as (_ & _ & _ & Hkeep).
  - cbn. constructor; [intros [] | constructor].
  - apply Forall_forall. intros b Hb. apply list_elem_of_In in Hb.
    apply Hkeep; [exact Hb |]. left.
    destruct Hb as [<- | []]. vm_compute. discriminate.
Defined.

Lemma list_ascii_app a b :
  list_ascii_of_string (a +:+ b) = list_ascii_of_string a ++ list_ascii_of_string b.
Proof. induction a as [|c a IH]; simpl; [reflexivity | now rewrite IH]. Qed.

Lemma append_snoc p c s : p +:+ String c s = (p +:+ String c "") +:+ s.
Proof.
  induction p as [|a p IH]; [reflexivity |].
  change (String a (p +:+ String c s)
          = String a ((p +:+ String c "") +:+ s)).
  now rewrite IH.
Qed.

Lemma append_empty p : p +:+ "" = p.
Proof.
  induction p as [|a p IH]; [reflexivity |].
  change (String a (p +:+ "") = String a p). now rewrite IH.
Qed.

Lemma pretty_N_char_digit d :
  (d < 10)%N -> digit_value (pretty_N_char d) = Some (Z.of_N d).
Proof.
  intros H.
  assert (d = 0 \/ d = 1 \/ d = 2 \/ d = 3 \/ d = 4 \/ d = 5 \/ d = 6
          \/ d = 7 \/ d = 8 \/ d = 9)%N as Hd by lia.
  repeat (destruct Hd as [-> | Hd]; [reflexivity |]). subst. reflexivity.
Qed.

Lemma pretty_N_go_digits x : forall s,
  exists p, pretty_N_go x s = p +:+ s /\ all_digits p
            /\ decimal_value p = Z.of_N x /\ ((0 < x)%N -> p <> "").
Proof.
  induction (N.lt_wf_0 x) as [x _ IH]; intros s.
  destruct (N.eq_dec x 0%N) as [-> | Hx].
  - exists "". rewrite pretty_N_go_0. repeat split; [constructor | lia].
  - rewrite pretty_N_go_step by lia.
    destruct (IH (x `div` 10)%N ltac:(apply N.div_lt; lia)
                 (String (pretty_N_char (x `mod` 10)) s))
      as (p & Hp & Hd & Hv & _).
    assert (Hm : (x `mod` 10 < 10)%N) by (apply N.mod_lt; lia).
    exists (p +:+ String (pretty_N_char (x `mod` 10)) "").
    split; [| split; [| split]].
    + rewrite Hp. apply append_snoc.
    + unfold all_digits in *. rewrite list_ascii_app. apply Forall_app.
      split; [exact Hd |]. constructor; [| constructor].
      rewrite (pretty_N_char_digit _ Hm). eauto.
    + unfold decimal_value in *. rewrite list_ascii_app, fold_left_app, Hv.
      simpl. unfold digit_step. rewrite (pretty_N_char_digit _ Hm). simpl.
      pose proof (N.div_mod x 10 ltac:(lia)). lia.
    + intros _. destruct p; discriminate.
Qed.

Lemma fmt_u64_digits n :
  0 <= n ->
  all_digits (fmt_u64 n) /\ fmt_u64 n <> "" /\ decimal_value (fmt_u64 n) = n.
Proof.
  intros Hn. unfold fmt_u64, pretty, pretty_N.
  destruct (decide (Z.to_N n = 0%N)) as [E | E].
  - assert (n = 0) by lia. subst.
    repeat split; [repeat constructor; vm_compute; eauto | discriminate].
  - destruct (pretty_N_go_digits (Z.to_N n) "") as (p & Hp & Hd & Hv & Hne).
    assert (Hp' : pretty_N_go (Z.to_N n) "" = p).
    { rewrite Hp. apply append_empty. }
    rewrite Hp'. repeat split; [exact Hd | apply Hne; lia | lia].
Qed.

Lemma strtoull_fmt_u64 n :
  0 <= n <= ULLONG_MAX ->
  strtoull (fmt_u64 n) = (n, String.length (fmt_u64 n)).
Proof.
  intros Hn. destruct (fmt_u64_digits n ltac:(lia)) as (Hd & Hne & Hv).
  rewrite (strtoull_digits _ Hd Hne), Hv. f_equal. lia.
Qed.

(** X21: a board whose identity is its location, ['#'] and its serial
    number in decimal, with no ['#'] in the location and a serial number
    that fits 64 bits, matches its own identity. *)
Theorem board_matches_own_identity b :
  identity_wf b ->
  strchr (location b) "#" = None ->
  0 <= serial b <= ULLONG_MAX ->
  ty_board_matches_identity b (Some (identity b)) = 1.
Proof.
  intros Hwf Hloc Hser. rewrite Hwf.
  set (loc := location b) in *.
  set (text := fmt_u64 (serial b)).
  assert (Hparse : parse_identity (loc +:+ String "#" text)
                   = inr (if bool_decide (loc = "") then None else Some loc,
                          serial b)).
  { rewrite (parse_identity_hash _ _ Hloc). unfold text.
    rewrite (strtoull_fmt_u64 _ Hser). cbn [fst snd].
    destruct (fmt_u64_digits (serial b) ltac:(lia)) as (_ & Hne & _).
    rewrite (bool_decide_eq_true_2 (_ = _) eq_refl).
    rewrite bool_decide_eq_false_2; [reflexivity |].
    destruct (fmt_u64 (serial b)); [contradiction | discriminate]. }
  change (loc +:+ "#" +:+ text) with (loc +:+ String "#" text).
  unfold ty_board_matches_identity.
  destruct (loc +:+ String "#" text) eqn:E.
  { destruct loc; discriminate. }
  rewrite Hparse. fold loc.
  rewrite Z.eqb_refl.
  case_bool_decide; rewrite ?String.eqb_refl; cbn [negb];
    now rewrite andb_false_r.
Qed.

Lemma board_matches_own_identity_witness :
  ty_board_matches_identity Sample.board_1234
    (Some (identity Sample.board_1234)) = 1.
Proof.
  apply board_matches_own_identity.
  - reflexivity.
  - reflexivity.
  - split; discriminate.
Defined.

End HotplugFacts.

(** ** Joining tasks, sizing the pool, running once *)

Module PoolFacts.
Import Task TaskStatements PoolStatements TaskFacts.

(** X22: [ty_task_join] on a task that was not started runs it in the
    calling thread and returns the value of its run callable; the pool
    is not touched and no thread is started. *)
Theorem join_runs_ready_task_inline w t x :
  tasks w !! t = Some x ->
  status x = TY_TASK_STATUS_READY ->
  ty_task_join w t = Some (task_run x, ran w t x).
Proof.
  intros Hx Hs. unfold ty_task_join, ty_task_wait_enter.
  cbn [rank negb Z.ltb Z.compare]. rewrite Hx. cbn [mbind option_bind].
  rewrite bool_decide_eq_true_2 by reflexivity. cbn [andb Z.ltb Z.compare].
  rewrite Hs. rewrite bool_decide_eq_false_2 by discriminate.
  cbn [mbind option_bind]. rewrite Hx. cbn [mbind option_bind]. rewrite Hs.
  rewrite bool_decide_eq_true_2 by reflexivity.
  rewrite (run_task_eq w t x Hx) by (rewrite Hs; cbn; lia).
  cbn [mbind option_bind Z.ltb Z.compare].
  fold (ran w t x). cbn [ran tasks]. rewrite lookup_insert_eq.
  reflexivity.
Qed.

Lemma join_runs_ready_task_inline_witness :
  ty_task_join (run_of acts_created) 0
  = Some (5, ran (run_of acts_created) 0
                 {| name := "job"; status := TY_TASK_STATUS_READY; ret := 0;
                    task_run := 5; task_finalize := true;
                    result_cleanup := false; user_cleanup := false;
                    refcount := 1 |}).
Proof.
  apply (join_runs_ready_task_inline (run_of acts_created) 0%nat
           {| name := "job"; status := TY_TASK_STATUS_READY; ret := 0;
              task_run := 5; task_finalize := true;
              result_cleanup := false; user_cleanup := false;
              refcount := 1 |}).
  - vm_compute. reflexivity.
  - reflexivity.
Defined.

Lemma filter_ne_fresh (l : list nat) t :
  ~ In t l -> filter (fun u => u ≠ t) l = l.
Proof.
  induction l as [|a l IH]; intros H; [reflexivity |].
  rewrite filter_cons_True by (intros ->; apply H; now left).
  rewrite IH; [reflexivity |]. intros Hin. apply H. now right.
Qed.

Lemma ty_task_start_queues w t x spawn :
  tasks w !! t = Some x -> status x = TY_TASK_STATUS_READY -> 0 <= spawn ->
  exists p1,
    ty_task_start w t spawn
    = Some (0,
            {| tasks := <[t := with_status (with_refcount x (refcount x + 1))
                                           TY_TASK_STATUS_PENDING]> (tasks w);
               pool := {| unused_timeout := unused_timeout p1;
                          max_threads := max_threads p1;
                          started := started p1; busy := busy p1;
                          pending_tasks := t :: pending_tasks (pool w);
                          init := init p1 |};
               held := held w;
               current_task := current_task w; next_task := next_task w;
               log := log w ++ [EvStore t TY_TASK_STATUS_PENDING;
                                EvMessage t TY_TASK_STATUS_PENDING] |}).
Proof.
  intros Hx Hs Hsp. unfold ty_task_start. rewrite Hx. cbn [mbind option_bind].
  rewrite Hs. rewrite bool_decide_eq_true_2 by reflexivity. cbn [negb].
  set (cond := (busy (pool w) =? started (pool w))
               && (started (pool w) <? max_threads (pool w))).
  assert (Hst : exists p1,
            (if cond then start_thread (pool w) spawn else (0, pool w))
            = (0, p1) /\ pending_tasks p1 = pending_tasks (pool w)).
  { destruct cond; [| eauto]. unfold start_thread.
    destruct (Z.ltb_spec spawn 0); [lia |]. eexists. split; reflexivity. }
  destruct Hst as (p1 & -> & Hp1). exists p1.
  cbn [Z.ltb Z.compare]. unfold ty_task_ref.
  rewrite tasks_set_pool, Hx. cbn [mbind option_bind].
  unfold change_status. cbn [tasks set_pool set_task].
  rewrite lookup_insert_eq. cbn [mbind option_bind].
  unfold emit, set_task, set_pool. cbn. rewrite insert_insert_eq, Hp1.
  reflexivity.
Qed.

(** X23: a task that is started and then joined before a worker has
    taken it: [ty_task_start] queues it, [ty_task_join] takes it out of
    the queue again, gives back the reference of the queue, runs it in
    the calling thread and returns the value of its run callable; the
    queue is as it was before the start. *)
Theorem join_takes_back_queued_task w t x spawn :
  tasks w !! t = Some x ->
  status x = TY_TASK_STATUS_READY ->
  0 < refcount x ->
  ~ In t (pending_tasks (pool w)) ->
  0 <= spawn ->
  exists w1 w2,
    ty_task_start w t spawn = Some (0, w1)
    /\ ty_task_join w1 t = Some (task_run x, w2)
    /\ tasks w2 = <[t := finished x]> (tasks w)
    /\ pending_tasks (pool w2) = pending_tasks (pool w)
    /\ log w2 = log w ++ [EvStore t TY_TASK_STATUS_PENDING;
                          EvMessage t TY_TASK_STATUS_PENDING;
                          EvStore t TY_TASK_STATUS_READY]
                      ++ run_events t x.
Proof.
  intros Hx Hs Hrc Hnot Hsp.
  destruct (ty_task_start_queues w t x spawn Hx Hs Hsp) as (p1 & E).
  eexists. eexists. split; [exact E |].
  unfold ty_task_join, ty_task_wait_enter.
  cbn [rank negb Z.ltb Z.compare tasks]. rewrite lookup_insert_eq.
  cbn [mbind option_bind].
  rewrite (bool_decide_eq_true_2 (TY_TASK_STATUS_FINISHED = _) eq_refl).
  cbn [andb with_status status].
  rewrite (bool_decide_eq_true_2 (TY_TASK_STATUS_PENDING = _) eq_refl).
  match goal with |- context [ty_task_unref ?w1 t] =>
    rewrite (ty_task_unref_eq w1 t
               (with_status (with_refcount x (refcount x + 1))
                            TY_TASK_STATUS_PENDING))
      by (cbn [remove_pending tasks set_pool]; apply lookup_insert_eq) end.
  cbn [with_status with_refcount refcount].
  replace (refcount x + 1 - 1) with (refcount x) by lia.
  destruct (Z.eqb_spec (refcount x) 0) as [E0 | _]; [lia |].
  cbn [negb mbind option_bind].
  rewrite tasks_set_task, lookup_insert_eq. cbn [mbind option_bind].
  rewrite tasks_emit, tasks_set_task, lookup_insert_eq.
  cbn [mbind option_bind with_status status].
  rewrite (bool_decide_eq_true_2 (TY_TASK_STATUS_READY = _) eq_refl).
  match goal with |- context [run_task ?w1 t] =>
    rewrite (run_task_eq w1 t
               {| name := name x; status := TY_TASK_STATUS_READY;
                  ret := ret x; task_run := task_run x;
                  task_finalize := task_finalize x;
                  result_cleanup := result_cleanup x;
                  user_cleanup := user_cleanup x;
                  refcount := refcount x |})
      by (try (rewrite tasks_emit, tasks_set_task; apply lookup_insert_eq);
          cbn; lia) end.
  cbn [mbind option_bind Z.ltb Z.compare tasks].
  rewrite lookup_insert_eq. cbn [mbind option_bind finished ret task_run].
  split; [reflexivity |].
  cbn [tasks pool log emit set_task set_pool remove_pending pending_tasks].
  split; [| split].
  - rewrite !insert_insert_eq. reflexivity.
  - rewrite filter_cons_False by (intros H; now apply H).
    now apply filter_ne_fresh.
  - unfold run_events. cbn [task_finalize]. rewrite <- !app_assoc. reflexivity.
Qed.

Lemma join_takes_back_queued_task_witness :
  exists w1 w2,
    ty_task_start (run_of acts_created) 0 0 = Some (0, w1)
    /\ ty_task_join w1 0 = Some (5, w2)
    /\ pending_tasks (pool w2) = [].
Proof.
  destruct (join_takes_back_queued_task (run_of acts_created) 0%nat
              {| name := "job"; status := TY_TASK_STATUS_READY; ret := 0;
                 task_run := 5; task_finalize := true;
                 result_cleanup := false; user_cleanup := false;
                 refcount := 1 |} 0)
    as (w1 & w2 & H1 & H2 & _ & H4 & _).
  - vm_compute. reflexivity.
  - reflexivity.
  - reflexivity.
  - intros [].
  - discriminate.
  - exists w1, w2. split; [exact H1 |]. split; [exact H2 |]. exact H4.
Defined.

Lemma grown_0 p : grown p (max_threads p) 0 = p.
Proof.
  unfold grown. rewrite !Z.add_0_r. destruct p; reflexivity.
Qed.

Lemma set_max_loop_all_spawned cur max : forall p spawns,
  Forall (fun s => 0 <= s) spawns ->
  set_max_loop cur max p spawns
  = (None,
     grown p (max_threads p)
           (Z.min (Z.of_nat (length cur)) (Z.max 0 (max - started p)))).
Proof.
  induction cur as [|t cur IH]; intros p spawns Hsp.
  - cbn [set_max_loop length]. rewrite Z.min_l by lia.
    now rewrite grown_0.
  - cbn [set_max_loop].
    destruct (Z.leb_spec max (started p)) as [Hle | Hlt].
    + rewrite Z.max_l by lia. rewrite Z.min_r by lia. now rewrite grown_0.
    + assert (Hhd : 0 <= hd 0 spawns).
      { destruct Hsp; cbn; [lia | assumption]. }
      unfold start_thread. destruct (Z.ltb_spec (hd 0 spawns) 0); [lia |].
      cbn [Z.ltb Z.compare].
      rewrite IH by (destruct Hsp; cbn; [constructor | assumption]).
      change (length (t :: cur)) with (S (length cur)).
      rewrite Nat2Z.inj_succ.
      f_equal. unfold grown. cbn [unused_timeout max_threads started busy
                                  pending_tasks init].
      f_equal; lia.
Qed.

(** X24: when no spawn fails, [ty_pool_set_max_threads] returns zero
    and sets the limit; raising the limit starts one thread per pending
    task as long as the number of threads is below the new limit, and
    lowering it or keeping it starts none. *)
Theorem set_max_threads_starts_one_thread_per_pending_task w max spawns :
  Forall (fun s => 0 <= s) spawns ->
  ty_pool_set_max_threads w max spawns
  = (0, set_pool w (grown (pool w) max (threads_to_start (pool w) max))).
Proof.
  intros Hsp. unfold ty_pool_set_max_threads, threads_to_start.
  destruct (max_threads (pool w) <? max).
  - rewrite (set_max_loop_all_spawned _ _ _ _ Hsp). reflexivity.
  - unfold grown. now rewrite !Z.add_0_r.
Qed.

Lemma set_max_threads_starts_one_thread_per_pending_task_witness :
  fst (ty_pool_set_max_threads (run_of acts_busy) 32 [0]) = 0
  /\ started (pool (snd (ty_pool_set_max_threads (run_of acts_busy) 32 [0])))
     = 2
  /\ max_threads
       (pool (snd (ty_pool_set_max_threads (run_of acts_busy) 32 [0])))
     = 32.
Proof.
  rewrite (set_max_threads_starts_one_thread_per_pending_task
             (run_of acts_busy) 32 [0]).
  - repeat split.
  - repeat constructor. discriminate.
Defined.




















(** X26: a worker that is not busy, in a pool that is not above its
    limit, takes the first pending task, runs it and gives back the
    reference of the queue: when no other call comes in between, the
    task is finished, its reference count is one less, the queue has
    lost its head and the worker counts as busy. *)
Theorem worker_runs_first_pending_task w t rest x timed_out :
  pending_tasks (pool w) = t :: rest ->
  tasks w !! t = Some x ->
  status x = TY_TASK_STATUS_PENDING ->
  busy (pool w) < started (pool w) ->
  started (pool w) <= max_threads (pool w) ->
  1 < refcount x ->
  exists w',
    task_thread_pass w timed_out = Some w'
    /\ tasks w' = <[t := with_refcount (finished x) (refcount x - 1)]> (tasks w)
    /\ pending_tasks (pool w') = rest
    /\ busy (pool w') = busy (pool w) + 1
    /\ started (pool w') = started (pool w)
    /\ log w' = log w ++ run_events t x.
Proof.
  intros Hp Hx Hs Hb Hm Hrc. unfold task_thread_pass, task_thread_scan.
  destruct (Z.leb_spec (started (pool w) - busy (pool w)) 0); [lia |].
  destruct (Z.ltb_spec (max_threads (pool w)) (started (pool w))); [lia |].
  rewrite Hp. cbn [mbind option_bind]. unfold task_thread_run.
  cbn [held set_held].
  rewrite (bool_decide_eq_true_2 (t ∈ t :: held w) (list_elem_of_here _ _)).
  cbn [negb].
  match goal with |- context [run_task ?w1 t] =>
    rewrite (run_task_eq w1 t x) by
      (try exact Hx; rewrite Hs; cbn; lia) end.
  cbn [mbind option_bind].
  match goal with |- context [ty_task_unref ?w1 t] =>
    rewrite (ty_task_unref_eq w1 t (finished x))
      by (cbn [tasks]; apply lookup_insert_eq) end.
  cbn [finished refcount].
  destruct (Z.eqb_spec (refcount x - 1) 0); [lia |]. cbn [negb].
  eexists. split; [reflexivity |].
  cbn [tasks pool log set_task set_pool set_held pending_tasks busy started].
  rewrite insert_insert_eq. repeat split.
Qed.

Lemma worker_runs_first_pending_task_witness :
  exists w',
    task_thread_pass (run_of acts_worker_idle) false = Some w'
    /\ pending_tasks (pool w') = []
    /\ busy (pool w') = 1.
Proof.
  destruct (worker_runs_first_pending_task (run_of acts_worker_idle) 0%nat []
              {| name := "job"; status := TY_TASK_STATUS_PENDING; ret := 0;
                 task_run := 5; task_finalize := true;
                 result_cleanup := false; user_cleanup := false;
                 refcount := 2 |} false)
    as (w' & H1 & _ & H3 & H4 & _).
  - vm_compute. reflexivity.
  - vm_compute. reflexivity.
  - reflexivity.
  - vm_compute. reflexivity.
  - vm_compute. discriminate.
  - reflexivity.
  - exists w'. split; [exact H1 |]. split; [exact H3 |].
    rewrite H4. vm_compute. reflexivity.
Defined.

End PoolFacts.

(** ** The firmware file of the upload command *)

Module TycFacts.
Import Board Tyc.

(** X27: when [ty_stat] and [ty_firmware_load] succeed,
    [reload_firmware] leaves a firmware and the modification time of the
    file, returns 1 when it has loaded the file and 0 when it has not,
    and a second call for a file with that modification time returns 0
    without loading it. *)
Theorem reload_firmware_loads_once_per_change fw mt stat load load' :
  0 <= fst stat -> 0 <= fst load ->
  exists r fw1,
    reload_firmware fw mt stat load = (r, Some fw1, snd stat, negb (r =? 0))
    /\ (r = 0 \/ r = 1)
    /\ reload_firmware (Some fw1) (snd stat) stat load'
       = (0, Some fw1, snd stat, false).
Proof.
  destruct stat as [rs mtime], load as [rl f]. cbn [fst snd].
  intros Hs Hl. unfold reload_firmware.
  destruct (Z.ltb_spec rs 0); [lia |].
  destruct fw as [f0|]; cbn [orb].
  - destruct (Z.eqb_spec mtime mt) as [-> | Hne]; cbn [negb].
    + exists 0, f0. rewrite !Z.eqb_refl. repeat split; auto.
    + destruct (Z.ltb_spec rl 0); [lia |].
      exists 1, f. rewrite !Z.eqb_refl. repeat split; auto.
  - destruct (Z.ltb_spec rl 0); [lia |].
    exists 1, f. rewrite !Z.eqb_refl. repeat split; auto.
Qed.

Lemma reload_firmware_loads_once_per_change_witness :
  exists r fw1,
    reload_firmware None 0 (0, 42) (0, {| image := [1; 2] |})
    = (r, Some fw1, 42, negb (r =? 0))
    /\ (r = 0 \/ r = 1)
    /\ reload_firmware (Some fw1) 42 (0, 42) (0, {| image := [3] |})
       = (0, Some fw1, 42, false).
Proof.
  apply (reload_firmware_loads_once_per_change None 0 (0, 42)
           (0, {| image := [1; 2] |}) (0, {| image := [3] |}));
    discriminate.
Defined.

(** X28: a call of [reload_firmware] that fails leaves the firmware and
    the modification time the caller had. *)
Theorem reload_firmware_failure_keeps_firmware fw mt stat load :
  fst (fst (fst (reload_firmware fw mt stat load))) < 0 ->
  snd (fst (fst (reload_firmware fw mt stat load))) = fw
  /\ snd (fst (reload_firmware fw mt stat load)) = mt.
Proof.
  destruct stat as [rs mtime], load as [rl f]. unfold reload_firmware.
  destruct (rs <? 0); [auto |].
  destruct (_ || _); [| auto].
  destruct (rl <? 0); [auto |]. cbn. lia.
Qed.

Lemma reload_firmware_failure_keeps_firmware_witness :
  snd (fst (fst (reload_firmware (Some {| image := [1; 2] |}) 42 (0, 43)
                   (ty_error TY_ERROR_IO, {| image := [] |}))))
  = Some {| image := [1; 2] |}
  /\ snd (fst (reload_firmware (Some {| image := [1; 2] |}) 42 (0, 43)
                 (ty_error TY_ERROR_IO, {| image := [] |}))) = 42.
Proof.
  apply reload_firmware_failure_keeps_firmware.
  reflexivity.
Defined.

End TycFacts.
